(** * A reverse-mode automatic differentiation engine over scalar values

    Shallow embedding of [basic_ml/value_backprop.py]: the [Value] graph
    node, the operators that build the computation graph, the backward
    pass, and the [Neuron], [Layer] and [MLP] wrappers built on top of
    them; and of [ValueTrainer.train] of [basic_ml/value_trainer.py], the
    gradient descent that calls them.

    Modelling conventions.
    - Python numbers are idealised as exact reals: an [int] is embedded
      with [IZR], a [float] is a real.  Rounding and overflow of binary64
      are outside the graph model; the exceptions Python raises on
      arithmetic grounds that also exist over the reals
      ([ZeroDivisionError]) are kept.  The forward formula of [tanh] is
      given a second time on binary64 numbers, in [Binary64].
    - Objects live in a heap, a list indexed by allocation order; an object
      reference is its index.  Two references are the same object exactly
      when the indices are equal.
    - A [_backward] closure is a record of what it captured: the operand
      references, the result reference [out] and, where the source captures
      them, a number.
    - Code that mutates the heap or raises runs in a state-and-exception
      monad; the heap at the moment of a raise is kept, as it is in Python.
    - The draws of [random.uniform] are a function [rnd] from the rank of
      a draw to its value.
    - What [print] writes is returned: [train] gives the list of its lines,
      each the number of the turn and the value of the loss, in place of
      the model it was handed; [main] gives these lines and [y_pred].
      [Value.__repr__], which formats a binary64 number, is not embedded. *)

From Stdlib Require Import Floats Reals Lra Lia.
From stdpp Require Import base gmap sets list strings.

Local Open Scope R_scope.

(** ** Python numbers *)

Module PyNum.

(** The outcome of Python's [x ** k] on real arguments. *)
Inductive pow_result :=
| PowVal (v : R)          (* a real result *)
| PowZeroDivision         (* 0 ** negative raises ZeroDivisionError *)
| PowComplex.             (* negative ** fractional is a complex number *)

Definition is_integral (k : R) : Prop := IZR (Int_part k) = k.

Definition is_integral_dec (k : R) : {is_integral k} + {¬ is_integral k} :=
  Req_dec_T (IZR (Int_part k)) k.

(** [x ** k]: anything to the power 0 is 1; 0 to a positive power is 0 and
    to a negative one an error; a positive base uses [exp (k * ln x)]; a
    negative base is real only for an integral exponent. *)
Definition pow (x k : R) : pow_result :=
  if Req_dec_T k 0 then PowVal 1
  else if Req_dec_T x 0 then
    (if Rlt_dec k 0 then PowZeroDivision else PowVal 0)
  else if Rlt_dec 0 x then PowVal (Rpower x k)
  else if is_integral_dec k then PowVal (powerRZ x (Int_part k))
  else PowComplex.

(** The real function [fun x => x ** k], extended by 0 where Python has
    no real result. *)
Definition pow_total (x k : R) : R :=
  match pow x k with PowVal v => v | _ => 0 end.

(** The forward formula of [Value.tanh]. *)
Definition tanh_formula (n : R) : R :=
  (Rtrigo_def.exp (2 * n) - 1) / (Rtrigo_def.exp (2 * n) + 1).

End PyNum.

(** ** The heap of [Value] objects *)

Module Value.

(** The [_op] string: [''], ['+'], ['*'], [f'**{other}'], ["tanh"], ['exp']. *)
Inductive op_tag :=
| OpLeaf | OpAdd | OpMul | OpPow (other : R) | OpTanh | OpExp.

(** What each nested [_backward] function has captured. *)
Inductive closure :=
| BNone                                  (* lambda: None *)
| BAdd (self other out : nat)            (* in __add__ *)
| BMul (self other out : nat)            (* in __mul__ *)
| BPow (self : nat) (other : R) (out : nat)  (* in __pow__ *)
| BTanh (self : nat) (t : R) (out : nat) (* in tanh *)
| BExp (self out : nat).                 (* in exp *)

Record t := mk {
  data : R;
  grad : R;
  _prev : gset nat;
  _op : op_tag;
  _backward : closure;
  label : string
}.

Abbreviation heap := (list t).

Definition set_grad (g : R) (n : t) : t :=
  mk (data n) g (_prev n) (_op n) (_backward n) (label n).

Definition set_closure (c : closure) (n : t) : t :=
  mk (data n) (grad n) (_prev n) (_op n) c (label n).

Definition data_of (h : heap) (v : nat) : R := from_option data 0 (h !! v).
Definition grad_of (h : heap) (v : nat) : R := from_option grad 0 (h !! v).
Definition prev_of (h : heap) (v : nat) : gset nat :=
  from_option _prev ∅ (h !! v).
Definition backward_of (h : heap) (v : nat) : closure :=
  from_option _backward BNone (h !! v).

(** *** Exceptions and the monad *)

Inductive exn :=
| ValueError          (* raised by __pow__ *)
| TypeError           (* unsupported operand types *)
| ZeroDivisionError   (* 0 ** negative *)
| RecursionError      (* build_topo nested deeper than the interpreter allows *)
| AttributeError      (* a method looked up on an object that lacks it *)
| ComplexValue.       (* not an exception: the result is a complex number,
                         which a node of this model cannot hold *)

Inductive res (A : Type) :=
| Ok (a : A) (h : heap)
| Raise (e : exn) (h : heap).
Arguments Ok {A} a h.
Arguments Raise {A} e h.

Definition M (A : Type) : Type := heap → res A.

Definition ret {A} (a : A) : M A := λ h, Ok a h.
Definition bind {A B} (m : M A) (k : A → M B) : M B :=
  λ h, match m h with Ok a h' => k a h' | Raise e h' => Raise e h' end.
Definition raise {A} (e : exn) : M A := λ h, Raise e h.
Definition get : M heap := λ h, Ok h h.
Definition modify (f : heap → heap) : M unit := λ h, Ok () (f h).

Definition final_heap {A} (r : res A) : heap :=
  match r with Ok _ h => h | Raise _ h => h end.

#[global] Instance M_ret : MRet M := @ret.
#[global] Instance M_bind : MBind M := λ A B k m, bind m k.

Definition lift_pow (p : PyNum.pow_result) : M R :=
  match p with
  | PyNum.PowVal v => ret v
  | PyNum.PowZeroDivision => raise ZeroDivisionError
  | PyNum.PowComplex => raise ComplexValue
  end.

(** *** Operand values: what Python can pass where a [Value] is expected *)

Inductive pyobj :=
| PyInt (z : Z)
| PyFloat (r : R)
| PyValue (v : nat)
| PyNone.     (* an object that is neither a number nor a Value *)

(** *** [Value.__init__] *)

Definition __init__ (d : R) (_children : list nat) (op : op_tag)
    (lbl : string) : M nat :=
  λ h, Ok (length h) (h ++ [mk d 0 (list_to_set _children) op BNone lbl]).

(** [out._backward = _backward] *)
Definition set_backward (out : nat) (c : closure) : M unit :=
  modify (alter (set_closure c) out).

(** [v.grad += d] *)
Definition add_grad (v : nat) (d : R) : M unit :=
  modify (λ h, alter (set_grad (grad_of h v + d)) v h).

(** [other if isinstance(other, Value) else Value(other)].  For an object
    that is no number the source still allocates a node and the following
    arithmetic on its [data] raises [TypeError]; the model raises at once,
    which differs only by an unreachable object. *)
Definition promote (other : pyobj) : M nat :=
  match other with
  | PyValue o => ret o
  | PyInt z => __init__ (IZR z) [] OpLeaf ""
  | PyFloat r => __init__ r [] OpLeaf ""
  | PyNone => raise TypeError
  end.

Definition __add__ (self : nat) (other : pyobj) : M nat :=
  other ← promote other;
  h ← get;
  out ← __init__ (data_of h self + data_of h other) [self; other] OpAdd "";
  set_backward out (BAdd self other out);;
  ret out.

Definition __mul__ (self : nat) (other : pyobj) : M nat :=
  other ← promote other;
  h ← get;
  out ← __init__ (data_of h self * data_of h other) [self; other] OpMul "";
  set_backward out (BMul self other out);;
  ret out.

Definition __rmul__ (self : nat) (other : pyobj) : M nat := __mul__ self other.

Definition __radd__ (self : nat) (other : pyobj) : M nat := __add__ self other.

Definition pow_node (self : nat) (other : R) : M nat :=
  h ← get;
  d ← lift_pow (PyNum.pow (data_of h self) other);
  out ← __init__ d [self] (OpPow other) "";
  set_backward out (BPow self other out);;
  ret out.

Definition __pow__ (self : nat) (other : pyobj) : M nat :=
  match other with
  | PyInt z => pow_node self (IZR z)
  | PyFloat r => pow_node self r
  | PyValue _ | PyNone => raise ValueError
  end.

Definition __neg__ (self : nat) : M nat := __mul__ self (PyInt (-1)).

(** [-other] for an arbitrary operand. *)
Definition py_neg (other : pyobj) : M pyobj :=
  match other with
  | PyValue o => v ← __neg__ o; ret (PyValue v)
  | PyInt z => ret (PyInt (- z))
  | PyFloat r => ret (PyFloat (- r))
  | PyNone => raise TypeError
  end.

(** [other ** -1] for an arbitrary operand. *)
Definition py_pow_m1 (other : pyobj) : M pyobj :=
  match other with
  | PyValue o => v ← __pow__ o (PyInt (-1)); ret (PyValue v)
  | PyInt z => r ← lift_pow (PyNum.pow (IZR z) (-1)); ret (PyFloat r)
  | PyFloat x => r ← lift_pow (PyNum.pow x (-1)); ret (PyFloat r)
  | PyNone => raise TypeError
  end.

Definition __truediv__ (self : nat) (other : pyobj) : M nat :=
  p ← py_pow_m1 other; __mul__ self p.

Definition __sub__ (self : nat) (other : pyobj) : M nat :=
  n ← py_neg other; __add__ self n.

Definition tanh (self : nat) : M nat :=
  h ← get;
  let n := data_of h self in
  let t := PyNum.tanh_formula n in
  out ← __init__ t [self] OpTanh "";
  set_backward out (BTanh self t out);;
  ret out.

Definition exp (self : nat) : M nat :=
  h ← get;
  let x := data_of h self in
  out ← __init__ (Rtrigo_def.exp x) [self] OpExp "";
  set_backward out (BExp self out);;
  ret out.

(** *** Python's choice of method for a binary operator

    [x + y] calls [type(x).__add__(x, y)]; when the left operand is a
    number and the right one a [Value], the number's method declines and
    Python calls the reflected method of [Value], if the class has one.
    [Value] defines [__radd__] and [__rmul__] and no other reflected
    method. *)

Definition num_val (o : pyobj) : option R :=
  match o with
  | PyInt z => Some (IZR z)
  | PyFloat r => Some r
  | PyValue _ | PyNone => None
  end.

Definition py_add (x y : pyobj) : M pyobj :=
  match x, y with
  | PyValue a, _ => v ← __add__ a y; ret (PyValue v)
  | PyInt a, PyInt b => ret (PyInt (a + b))
  | (PyInt _ | PyFloat _), PyValue b => v ← __radd__ b x; ret (PyValue v)
  | PyNone, PyValue b => v ← __radd__ b x; ret (PyValue v)
  | _, _ =>
      match num_val x, num_val y with
      | Some a, Some b => ret (PyFloat (a + b))
      | _, _ => raise TypeError
      end
  end.

Definition py_mul (x y : pyobj) : M pyobj :=
  match x, y with
  | PyValue a, _ => v ← __mul__ a y; ret (PyValue v)
  | PyInt a, PyInt b => ret (PyInt (a * b))
  | (PyInt _ | PyFloat _), PyValue b => v ← __rmul__ b x; ret (PyValue v)
  | PyNone, PyValue b => v ← __rmul__ b x; ret (PyValue v)
  | _, _ =>
      match num_val x, num_val y with
      | Some a, Some b => ret (PyFloat (a * b))
      | _, _ => raise TypeError
      end
  end.

Definition py_sub (x y : pyobj) : M pyobj :=
  match x, y with
  | PyValue a, _ => v ← __sub__ a y; ret (PyValue v)
  | PyInt a, PyInt b => ret (PyInt (a - b))
  | _, PyValue _ => raise TypeError        (* no __rsub__ *)
  | _, _ =>
      match num_val x, num_val y with
      | Some a, Some b => ret (PyFloat (a - b))
      | _, _ => raise TypeError
      end
  end.

Definition py_truediv (x y : pyobj) : M pyobj :=
  match x, y with
  | PyValue a, _ => v ← __truediv__ a y; ret (PyValue v)
  | _, PyValue _ => raise TypeError        (* no __rtruediv__ *)
  | _, _ =>
      match num_val x, num_val y with
      | Some a, Some b =>
          if Req_dec_T b 0 then raise ZeroDivisionError
          else ret (PyFloat (a / b))
      | _, _ => raise TypeError
      end
  end.

(** *** Running a [_backward] closure *)

Definition run_closure (c : closure) : M unit :=
  match c with
  | BNone => ret ()
  | BAdd self other out =>
      h ← get; add_grad self (1 * grad_of h out);;
      h ← get; add_grad other (1 * grad_of h out)
  | BMul self other out =>
      h ← get; add_grad self (data_of h other * grad_of h out);;
      h ← get; add_grad other (data_of h self * grad_of h out)
  | BPow self other out =>
      h ← get;
      p ← lift_pow (PyNum.pow (data_of h self) (other - 1));
      add_grad self (other * p * grad_of h out)
  | BTanh self t out =>
      h ← get;
      t2 ← lift_pow (PyNum.pow t 2);
      add_grad self ((1 - t2) * grad_of h out)
  | BExp self out =>
      h ← get; add_grad self (data_of h out * grad_of h out)
  end.

(** *** [Value.backward] *)

Record topo_state := mk_topo { visited : gset nat; topo : list nat }.

Definition topo_empty : topo_state := mk_topo ∅ [].

Section Backward.

(** The order in which Python iterates over a set is not specified;
    [iter] is that order. *)
Variable iter : gset nat → list nat.

(** The nested function [build_topo].  [fuel] bounds the nesting of the
    recursive calls, as the interpreter's recursion limit does. *)
Fixpoint build_topo (fuel : nat) (h : heap) (v : nat) (s : topo_state)
    : option topo_state :=
  match fuel with
  | O => None
  | S fuel' =>
      if decide (v ∈ visited s) then Some s
      else
        match foldl (λ acc child, acc ≫= build_topo fuel' h child)
                    (Some (mk_topo ({[v]} ∪ visited s) (topo s)))
                    (iter (prev_of h v)) with
        | Some s' => Some (mk_topo (visited s') (topo s' ++ [v]))
        | None => None
        end
  end.

(** [for node in reversed(topo): node._backward()] *)
Fixpoint run_all (nodes : list nat) : M unit :=
  match nodes with
  | [] => ret ()
  | node :: rest =>
      h ← get; run_closure (backward_of h node);; run_all rest
  end.

Definition backward (fuel : nat) (self : nat) : M unit :=
  λ h, match build_topo fuel h self topo_empty with
       | None => Raise RecursionError h
       | Some s =>
           (modify (alter (set_grad 1) self);;
            run_all (reverse (topo s))) h
       end.

End Backward.

End Value.

(** ** Heaps that the operators can build *)

Module Graph.
Import Value.

(** The parts of a heap that [backward] never writes. *)
Definition same_graph (h h' : heap) : Prop :=
  length h' = length h ∧
  ∀ v, data_of h' v = data_of h v ∧ prev_of h' v = prev_of h v ∧
       backward_of h' v = backward_of h v.

(** Every closure belongs to the node that holds it, the node's
    predecessor set is the set of the closure's operands, and operands were
    allocated before the node. *)
Definition closure_ok (h : heap) (i : nat) : Prop :=
  match backward_of h i with
  | BNone => prev_of h i = ∅
  | BAdd s o out | BMul s o out =>
      out = i ∧ (∀ x, x ∈ prev_of h i ↔ x = s ∨ x = o) ∧ (s < i)%nat ∧ (o < i)%nat
  | BPow s _ out | BTanh s _ out | BExp s out =>
      out = i ∧ (∀ x, x ∈ prev_of h i ↔ x = s) ∧ (s < i)%nat
  end.

Definition wf (h : heap) : Prop := ∀ i, closure_ok h i.

(** Every node's value is what its operator computes from the operands. *)
Definition value_ok (h : heap) (i : nat) : Prop :=
  match backward_of h i with
  | BNone => True
  | BAdd s o _ => data_of h i = data_of h s + data_of h o
  | BMul s o _ => data_of h i = data_of h s * data_of h o
  | BPow s k _ => PyNum.pow (data_of h s) k = PyNum.PowVal (data_of h i)
  | BTanh s t _ =>
      t = PyNum.tanh_formula (data_of h s) ∧ data_of h i = t
  | BExp s _ => data_of h i = Rtrigo_def.exp (data_of h s)
  end.

Definition consistent (h : heap) : Prop := ∀ i, value_ok h i.

(** An operand that refers to an existing object. *)
Definition operand_ok (h : heap) (o : pyobj) : Prop :=
  match o with PyValue v => (v < length h)%nat | _ => True end.

(** The graph-building calls of the public interface. *)
Inductive call :=
| CLeaf (d : R) (lbl : string)
| CAdd (self : nat) (other : pyobj)
| CMul (self : nat) (other : pyobj)
| CPow (self : nat) (other : pyobj)
| CNeg (self : nat)
| CSub (self : nat) (other : pyobj)
| CDiv (self : nat) (other : pyobj)
| CTanh (self : nat)
| CExp (self : nat).

Definition run_call (c : call) : M nat :=
  match c with
  | CLeaf d lbl => __init__ d [] OpLeaf lbl
  | CAdd self other => __add__ self other
  | CMul self other => __mul__ self other
  | CPow self other => __pow__ self other
  | CNeg self => __neg__ self
  | CSub self other => __sub__ self other
  | CDiv self other => __truediv__ self other
  | CTanh self => tanh self
  | CExp self => exp self
  end.

Definition call_ok (h : heap) (c : call) : Prop :=
  match c with
  | CLeaf _ _ => True
  | CAdd self other | CMul self other | CPow self other
  | CSub self other | CDiv self other =>
      (self < length h)%nat ∧ operand_ok h other
  | CNeg self | CTanh self | CExp self => (self < length h)%nat
  end.

(** Heaps reachable from the empty heap by graph-building calls on
    existing objects and by assignments to [grad]. *)
Inductive built : heap → Prop :=
| built_empty : built []
| built_call h c :
    built h → call_ok h c → built (final_heap (run_call c h))
| built_grad h v g :
    built h → built (alter (set_grad g) v h).

(** [p] is one of [v]'s predecessors. *)
Definition edge (h : heap) (v p : nat) : Prop := p ∈ prev_of h v.

(** [n] is [root] or one of its transitive predecessors. *)
Definition reachable (h : heap) (root n : nat) : Prop := rtc (edge h) root n.

(** In the list [l] every node comes after all of its predecessors. *)
Definition preds_first (h : heap) (l : list nat) : Prop :=
  ∀ j v p, l !! j = Some v → edge h v p →
           ∃ i, (i < j)%nat ∧ l !! i = Some p.

(** The state of the traversal between two calls of [build_topo]. *)
Definition topo_inv (h : heap) (s : topo_state) : Prop :=
  NoDup (topo s) ∧ (∀ x, x ∈ topo s → x ∈ visited s) ∧ preds_first h (topo s).

(** An iteration order lists the elements of the set, each once. *)
Definition iter_ok (iter : gset nat → list nat) : Prop :=
  ∀ s, iter s ≡ₚ elements s.

(** In the list [l] the closure of [v] runs before the closure of [p]. *)
Definition runs_before (l : list nat) (v p : nat) : Prop :=
  ∃ i j, (i < j)%nat ∧ l !! i = Some v ∧ l !! j = Some p.

End Graph.

(** ** [Neuron] and [Layer] *)

Module Neuron.
Import Value.

Record t := mk { w : list nat; b : nat }.

(** [[Value(random.uniform(-1, 1)) for _ in range(nin)]], the draws of the
    random generator being given. *)
Fixpoint leaves (draws : list R) : M (list nat) :=
  match draws with
  | [] => ret []
  | d :: ds =>
      v ← Value.__init__ d [] OpLeaf ""; vs ← leaves ds; ret (v :: vs)
  end.

Definition __init__ (nin : nat) (rnd : nat → R) : M t :=
  ws ← leaves (rnd <$> seq 0 nin);
  bv ← Value.__init__ (rnd nin) [] OpLeaf "";
  ret (mk ws bv).

(** [sum(w1 * x1 for w1, x1 in zip(self.w, x))]: [sum] starts from the
    integer 0 and adds the products one by one as the generator yields
    them. *)
Fixpoint sum_products (acc : pyobj) (wx : list (nat * pyobj)) : M pyobj :=
  match wx with
  | [] => ret acc
  | (w1, x1) :: rest =>
      p ← __mul__ w1 x1;
      acc' ← py_add acc (PyValue p);
      sum_products acc' rest
  end.

Definition __call__ (self : t) (x : list pyobj) : M nat :=
  s ← sum_products (PyInt 0) (zip (w self) x);
  act ← py_add s (PyValue (b self));
  match act with
  | PyValue a => tanh a
  | _ => raise AttributeError
  end.

Definition parameters (self : t) : list nat := w self ++ [b self].

End Neuron.

Module Layer.
Import Value.

Record t := mk { neurons : list Neuron.t }.

(** The result of applying a layer: one node, or the list of them. *)
Inductive output := Single (v : nat) | Many (vs : list nat).

Fixpoint make_neurons (nin nout : nat) (rnd : nat → R) : M (list Neuron.t) :=
  match nout with
  | O => ret []
  | S k =>
      n ← Neuron.__init__ nin rnd;
      ns ← make_neurons nin k (λ i, rnd (S nin + i)%nat);
      ret (n :: ns)
  end.

Definition __init__ (nin nout : nat) (rnd : nat → R) : M t :=
  ns ← make_neurons nin nout rnd; ret (mk ns).

Fixpoint apply_all (ns : list Neuron.t) (x : list pyobj) : M (list nat) :=
  match ns with
  | [] => ret []
  | n :: rest =>
      o ← Neuron.__call__ n x; os ← apply_all rest x; ret (o :: os)
  end.

Definition __call__ (self : t) (x : list pyobj) : M output :=
  outs ← apply_all (neurons self) x;
  ret (match outs with [o] => Single o | _ => Many outs end).

Definition parameters (self : t) : list nat :=
  concat (Neuron.parameters <$> neurons self).

End Layer.

(** ** The chain rule over the graph *)

Module Chain.
Import Value.

(** The operands of [v], each with the factor by which [v]'s closure
    scales [v.grad] before adding it to the operand's [grad].  An operand
    used twice is listed twice. *)
Definition edges (h : heap) (v : nat) : list (nat * R) :=
  match backward_of h v with
  | BNone => []
  | BAdd s o _ => [(s, 1); (o, 1)]
  | BMul s o _ => [(s, data_of h o); (o, data_of h s)]
  | BPow s k _ => [(s, k * PyNum.pow_total (data_of h s) (k - 1))]
  | BTanh s t _ => [(s, 1 - PyNum.pow_total t 2)]
  | BExp s out => [(s, data_of h out)]
  end.

(** The closure of [v] runs without raising. *)
Definition closure_defined (h : heap) (v : nat) : Prop :=
  match backward_of h v with
  | BPow s k _ => ∃ p, PyNum.pow (data_of h s) (k - 1) = PyNum.PowVal p
  | _ => True
  end.

Definition Rsum (l : list R) : R := foldr Rplus 0 l.

(** All paths from [m] down to [n], each as the list of edges it follows. *)
Fixpoint paths (fuel : nat) (h : heap) (m n : nat) : list (list (nat * R)) :=
  match fuel with
  | O => []
  | S fuel' =>
      if decide (m = n) then [[]]
      else concat ((λ e, cons e <$> paths fuel' h e.1 n) <$> edges h m)
  end.

(** The product of the factors along a path. *)
Definition weight (p : list (nat * R)) : R := foldr (λ e acc, e.2 * acc) 1 p.

(** The sum over all paths from [m] to [n] of the path's weight, scaled by
    a function of its length. *)
Definition path_sum (f : nat → R) (h : heap) (m n : nat) : R :=
  Rsum ((λ p, weight p * f (length p)) <$> paths (S m) h m n).

(** The chain rule: the sum over all paths of the product of the local
    derivatives. *)
Definition chain_grad (h : heap) (root n : nat) : R :=
  path_sum (λ _, 1) h root n.

(** The value of node [m] as a function of the value [x] given to node
    [n], every other leaf keeping its value. *)
Fixpoint reeval (fuel : nat) (h : heap) (n : nat) (x : R) (m : nat) : R :=
  match fuel with
  | O => 0
  | S fuel' =>
      if decide (m = n) then x
      else
        match backward_of h m with
        | BNone => data_of h m
        | BAdd s o _ => reeval fuel' h n x s + reeval fuel' h n x o
        | BMul s o _ => reeval fuel' h n x s * reeval fuel' h n x o
        | BPow s k _ => PyNum.pow_total (reeval fuel' h n x s) k
        | BTanh s _ _ => PyNum.tanh_formula (reeval fuel' h n x s)
        | BExp s _ => Rtrigo_def.exp (reeval fuel' h n x s)
        end
  end.

(** [root]'s value as a function of [n]'s value. *)
Definition value_as_function (h : heap) (root n : nat) (x : R) : R :=
  reeval (S root) h n x root.

(** The total factor by which [v]'s closure scales [v.grad] into [n.grad]. *)
Definition mult (h : heap) (v n : nat) : R :=
  Rsum ((λ e, if decide (e.1 = n) then e.2 else 0) <$> edges h v).

(** The gradients after the closures of [nodes] have run in that order,
    as a function of the gradients [g] before. *)
Fixpoint propagate (h : heap) (nodes : list nat) (g : nat → R) : nat → R :=
  match nodes with
  | [] => g
  | v :: rest => propagate h rest (λ n, g n + mult h v n * g v)
  end.

(** In the list every node comes before all of its predecessors. *)
Fixpoint users_first (h : heap) (l : list nat) : Prop :=
  match l with
  | [] => True
  | v :: rest => (∀ u, u ∈ v :: rest → ¬ Graph.edge h u v) ∧ users_first h rest
  end.

End Chain.

(** ** The nodes that the operators allocate *)

Module Alloc.
Import Value.

(** A leaf as [Value(d)] allocates it. *)
Definition leaf (d : R) (lbl : string) : t := mk d 0 ∅ OpLeaf BNone lbl.

Definition add_node (h : heap) (self o : nat) : t :=
  mk (data_of h self + data_of h o) 0 (list_to_set [self; o]) OpAdd
     (BAdd self o (length h)) "".

Definition mul_node (h : heap) (self o : nat) : t :=
  mk (data_of h self * data_of h o) 0 (list_to_set [self; o]) OpMul
     (BMul self o (length h)) "".

Definition pow_node_of (h : heap) (self : nat) (k d : R) : t :=
  mk d 0 (list_to_set [self]) (OpPow k) (BPow self k (length h)) "".

Definition tanh_node (h : heap) (self : nat) : t :=
  mk (PyNum.tanh_formula (data_of h self)) 0 (list_to_set [self]) OpTanh
     (BTanh self (PyNum.tanh_formula (data_of h self)) (length h)) "".

Definition exp_node (h : heap) (self : nat) : t :=
  mk (Rtrigo_def.exp (data_of h self)) 0 (list_to_set [self]) OpExp
     (BExp self (length h)) "".

(** The invariants of a heap built by the operators, together. *)
Definition good (h : heap) : Prop := Graph.wf h ∧ Graph.consistent h.

(** A computation only appends nodes, keeps the invariants, and returns a
    result that is valid in the heap it leaves. *)
Definition grows {A} (valid : A → heap → Prop) (m : M A) (h : heap) : Prop :=
  ∃ l, final_heap (m h) = h ++ l ∧ good (h ++ l) ∧
       ∀ a h', m h = Ok a h' → valid a h'.

(** A reference to an object of the heap. *)
Definition is_ref (v : nat) (h : heap) : Prop := (v < length h)%nat.

(** The heap after a raw number was promoted and combined with [a]. *)
Definition promoted (h : heap) (r : R) (node : heap → nat → nat → t)
    (a : nat) : heap :=
  h ++ [leaf r ""; node (h ++ [leaf r ""]) a (length h)].

End Alloc.

(** ** Small graphs used to instantiate the theorems *)

Module Examples.
Import Value Graph.

(** [a = Value(3.0)] *)
Definition one_leaf : heap := final_heap (run_call (CLeaf 3 "a") []).

(** [a = Value(3.0); m = a + a; root = m + m], so that [a] is node 0, [m]
    node 1 and [root] node 2. *)
Definition chain : heap :=
  final_heap (run_call (CAdd 1 (PyValue 1))
    (final_heap (run_call (CAdd 0 (PyValue 0)) one_leaf))).

(** [a = Value(3.0); b = Value(2.0); root = a * b] *)
Definition product : heap :=
  final_heap (run_call (CMul 0 (PyValue 1))
    (final_heap (run_call (CLeaf 2 "b") one_leaf))).

(** [a = Value(0.0)] *)
Definition zero_leaf : heap := final_heap (run_call (CLeaf 0 "a") []).

End Examples.

(** ** What a neuron computes *)

Module NeuronSpec.
Import Value Graph.

(** The number an operand stands for. *)
Definition obj_val (h : heap) (o : pyobj) : R :=
  match o with
  | PyInt z => IZR z
  | PyFloat r => r
  | PyValue v => data_of h v
  | PyNone => 0
  end.

(** [sum(w1.value * x1.value for w1, x1 in pairs)] *)
Definition weighted_sum (h : heap) (wx : list (nat * pyobj)) : R :=
  Chain.Rsum ((λ p, data_of h p.1 * obj_val h p.2) <$> wx).

(** An input element: a number or an existing node. *)
Definition input_ok (h : heap) (o : pyobj) : Prop :=
  o ≠ PyNone ∧ operand_ok h o.

Definition neuron_ok (h : heap) (n : Neuron.t) : Prop :=
  Forall (λ v, (v < length h)%nat) (Neuron.w n) ∧
  (Neuron.b n < length h)%nat.

(** [w = [Value(0.5), Value(0.5)]; b = Value(0.5)]: a neuron of input
    width 2 in the heap that its construction leaves. *)
Definition three_leaves : heap :=
  final_heap (run_call (CLeaf (1/2) "")
    (final_heap (run_call (CLeaf (1/2) "")
      (final_heap (run_call (CLeaf (1/2) "") []))))).

Definition two_inputs : Neuron.t := Neuron.mk [0; 1]%nat 2%nat.

(** The accumulator of [sum]: the integer 0 before the first product, a
    node afterwards. *)
Definition acc_ok (h : heap) (acc : pyobj) : Prop :=
  acc = PyInt 0 ∨ ∃ a, acc = PyValue a ∧ (a < length h)%nat.

End NeuronSpec.

(** ** The tanh formula on binary64

    The graph model above takes numbers as exact reals.  The range of a
    computed number is the one property here that rounding decides, so the
    forward formula of [Value.tanh] is also given on binary64 numbers. *)

Module Binary64.

(** [math.exp] where its result does not depend on how the C library
    rounds: below the underflow threshold it is 0.0, above the overflow
    threshold Python raises [OverflowError]; in between this model gives no
    value. *)
Inductive exp_result :=
| ExpVal (y : float)
| ExpOverflow
| ExpOther.

Definition math_exp (x : float) : exp_result :=
  if (x <? -746)%float then ExpVal 0%float
  else if (710 <? x)%float then ExpOverflow
  else ExpOther.

Inductive tanh_result :=
| TanhVal (t : float)
| TanhOverflowError
| TanhOther.

(** [t = (math.exp(2 * n) - 1) / (math.exp(2 * n) + 1)] *)
Definition tanh_value (n : float) : tanh_result :=
  match math_exp (2 * n)%float, math_exp (2 * n)%float with
  | ExpVal e1, ExpVal e2 => TanhVal ((e1 - 1) / (e2 + 1))%float
  | ExpOverflow, _ | _, ExpOverflow => TanhOverflowError
  | _, _ => TanhOther
  end.

End Binary64.

(** ** [MLP] *)

Module MLP.
Import Value.

Record t := mk { layers : list Layer.t }.

(** What the variable [x] of [__call__] is bound to: a list, as the caller
    gives it and as a layer of several neurons returns it, or the single
    node that a layer of one neuron returns. *)
Inductive pyval :=
| VList (xs : list pyobj)
| VValue (v : nat).

(** [[Layer(sz[i], sz[i + 1]) for i in range(len(nouts))]]: the indices
    are within [sz], so the default of the lookup is never used.  Each
    layer takes its draws after those of the layers before it. *)
Fixpoint make_layers (sz : list nat) (idx : list nat) (rnd : nat → R)
    : M (list Layer.t) :=
  match idx with
  | [] => ret []
  | i :: rest =>
      let nin := sz !!! i in
      let nout := sz !!! (i + 1)%nat in
      l ← Layer.__init__ nin nout rnd;
      ls ← make_layers sz rest (λ j, rnd (nout * S nin + j)%nat);
      ret (l :: ls)
  end.

Definition __init__ (nin : nat) (nouts : list nat) (rnd : nat → R) : M t :=
  let sz := [nin] ++ nouts in
  ls ← make_layers sz (seq 0 (length nouts)) rnd;
  ret (mk ls).

(** [Neuron.__call__] on whatever [x] is bound to: a node is not iterable,
    so [zip(self.w, x)] raises [TypeError] on it. *)
Definition call_neuron (n : Neuron.t) (x : pyval) : M nat :=
  match x with
  | VList xs => Neuron.__call__ n xs
  | VValue _ => raise TypeError
  end.

(** [[n(x) for n in self.neurons]] *)
Fixpoint call_neurons (ns : list Neuron.t) (x : pyval) : M (list nat) :=
  match ns with
  | [] => ret []
  | n :: rest =>
      o ← call_neuron n x; os ← call_neurons rest x; ret (o :: os)
  end.

(** [Layer.__call__] on whatever [x] is bound to. *)
Definition call_layer (self : Layer.t) (x : pyval) : M Layer.output :=
  outs ← call_neurons (Layer.neurons self) x;
  ret (match outs with [o] => Layer.Single o | _ => Layer.Many outs end).

Definition of_output (o : Layer.output) : pyval :=
  match o with
  | Layer.Single v => VValue v
  | Layer.Many vs => VList (PyValue <$> vs)
  end.

(** [for layer in self.layers: x = layer(x)] *)
Fixpoint call_layers (ls : list Layer.t) (x : pyval) : M pyval :=
  match ls with
  | [] => ret x
  | layer :: rest => o ← call_layer layer x; call_layers rest (of_output o)
  end.

Definition __call__ (self : t) (x : pyval) : M pyval :=
  call_layers (layers self) x.

Definition parameters (self : t) : list nat :=
  concat (Layer.parameters <$> layers self).

End MLP.

(** ** [ValueTrainer] *)

Module ValueTrainer.
Import Value.

Definition set_data (d : R) (n : Value.t) : Value.t :=
  Value.mk d (grad n) (_prev n) (_op n) (_backward n) (label n).

(** [ypred = [model(x) for x in xs]] *)
Fixpoint predict (model : MLP.t) (xs : list MLP.pyval)
    : M (list MLP.pyval) :=
  match xs with
  | [] => ret []
  | x :: rest =>
      y ← MLP.__call__ model x; ys ← predict model rest; ret (y :: ys)
  end.

(** [(yout - ygt) ** 2]; a list has no subtraction. *)
Definition squared_error (ygt : pyobj) (yout : MLP.pyval) : M nat :=
  match yout with
  | MLP.VList _ => raise TypeError
  | MLP.VValue v => d ← __sub__ v ygt; __pow__ d (PyInt 2)
  end.

(** [[(yout - ygt) ** 2 for ygt, yout in zip(ys, ypred)]] *)
Fixpoint squared_errors (pairs : list (pyobj * MLP.pyval)) : M (list nat) :=
  match pairs with
  | [] => ret []
  | (ygt, yout) :: rest =>
      e ← squared_error ygt yout; es ← squared_errors rest; ret (e :: es)
  end.

(** [sum(items)] on a list of nodes: [sum] starts from the integer 0. *)
Fixpoint py_sum (acc : pyobj) (items : list nat) : M pyobj :=
  match items with
  | [] => ret acc
  | e :: rest => acc' ← py_add acc (PyValue e); py_sum acc' rest
  end.

(** [for p in model.parameters(): p.grad = 0.0] *)
Fixpoint zero_grad (ps : list nat) : M unit :=
  match ps with
  | [] => ret ()
  | p :: rest => modify (alter (set_grad 0) p);; zero_grad rest
  end.

(** [for p in model.parameters(): p.data -= lr * p.grad] *)
Fixpoint descend (lr : R) (ps : list nat) : M unit :=
  match ps with
  | [] => ret ()
  | p :: rest =>
      modify (λ h, alter (set_data (data_of h p - lr * grad_of h p)) p h);;
      descend lr rest
  end.

Section Train.

Variable iter : gset nat → list nat.
Variable fuel : nat.

(** One turn of the loop of [train].  The result is what [print(i, loss)]
    writes: the number [i] and the value of [loss].  An object that is not
    a node has no [backward]. *)
Definition iteration (model : MLP.t) (xs : list MLP.pyval) (ys : list pyobj)
    (lr : R) (i : nat) : M (nat * R) :=
  ypred ← predict model xs;
  errs ← squared_errors (zip ys ypred);
  loss ← py_sum (PyInt 0) errs;
  zero_grad (MLP.parameters model);;
  match loss with
  | PyValue l =>
      backward iter fuel l;;
      h ← get;
      descend lr (MLP.parameters model);;
      ret (i, data_of h l)
  | _ => raise AttributeError
  end.

(** [for i in range(iterations): ...] *)
Fixpoint loop (model : MLP.t) (xs : list MLP.pyval) (ys : list pyobj)
    (lr : R) (turns : list nat) : M (list (nat * R)) :=
  match turns with
  | [] => ret []
  | i :: rest =>
      line ← iteration model xs ys lr i;
      lines ← loop model xs ys lr rest;
      ret (line :: lines)
  end.

(** [train]: the object returned is [model] itself; the result here is
    the list of the lines printed. *)
Definition train (model : MLP.t) (xs : list MLP.pyval) (ys : list pyobj)
    (iterations : nat) (lr : R) : M (list (nat * R)) :=
  loop model xs ys lr (seq 0 iterations).

End Train.

End ValueTrainer.

(** ** [main] of [basic_ml/value_trainer_main.py] *)

Module Main.
Import Value.

(** [xs = [[2.0, 3.0, -1.0], [3.0, -1.0, 0.5], [0.5, 1.0, 1.0],
    [1.0, 1.0, -1.0]]] *)
Definition xs : list (list pyobj) :=
  [[PyFloat 2; PyFloat 3; PyFloat (-1)];
   [PyFloat 3; PyFloat (-1); PyFloat (1/2)];
   [PyFloat (1/2); PyFloat 1; PyFloat 1];
   [PyFloat 1; PyFloat 1; PyFloat (-1)]].

(** [ys = [1.0, -1.0, -1.0, 1.0]] *)
Definition ys : list pyobj :=
  [PyFloat 1; PyFloat (-1); PyFloat (-1); PyFloat 1].

(** The defaults of [train]: [iterations=100, lr=0.01]. *)
Definition iterations : nat := 100.

Definition lr : R := 1/100.

(** [main], with the draws of [random.uniform] given by [rnd].  The result
    is what is printed: the lines of [train], then [y_pred]. *)
Definition main (iter : gset nat → list nat) (fuel : nat) (rnd : nat → R)
    : M (list (nat * R) * list MLP.pyval) :=
  model ← MLP.__init__ 3 [4; 4; 1]%nat rnd;
  lines ← ValueTrainer.train iter fuel model (MLP.VList <$> xs) ys
            iterations lr;
  y_pred ← ValueTrainer.predict model (MLP.VList <$> xs);
  ret (lines, y_pred).

End Main.

(** ** What the layers compute *)

Module MLPSpec.
Import Value.

(** The number that an operand stands for when node [v] has the value
    [ρ v]. *)
Definition obj_at (ρ : nat → R) (o : pyobj) : R :=
  match o with
  | PyInt z => IZR z
  | PyFloat r => r
  | PyValue v => ρ v
  | PyNone => 0
  end.

(** The numbers that a value of [x] stands for. *)
Definition vals (ρ : nat → R) (x : MLP.pyval) : list R :=
  match x with
  | MLP.VList xs => obj_at ρ <$> xs
  | MLP.VValue v => [ρ v]
  end.

(** [tanh(w . x + b)] on numbers, over as many terms as both [w] and [x]
    have, when parameter [p] has the value [ρ p]. *)
Definition neuron_eval (ρ : nat → R) (n : Neuron.t) (x : list R) : R :=
  PyNum.tanh_formula
    (Chain.Rsum (zip_with Rmult (ρ <$> Neuron.w n) x) + ρ (Neuron.b n)).

Definition layer_eval (ρ : nat → R) (l : Layer.t) (x : list R) : list R :=
  (λ n, neuron_eval ρ n x) <$> Layer.neurons l.

Definition layers_eval (ρ : nat → R) (ls : list Layer.t) (x : list R)
    : list R :=
  foldl (λ x l, layer_eval ρ l x) x ls.

(** The model's output on [x]: the first number its last layer gives. *)
Definition output (ρ : nat → R) (ls : list Layer.t) (x : list R) : R :=
  hd 0 (layers_eval ρ ls x).

(** The L2 loss of the model on the pairs of [zip(ys, xs)]. *)
Definition l2_loss (ρ : nat → R) (ls : list Layer.t) (xs : list (list R))
    (ys : list R) : R :=
  Chain.Rsum
    (zip_with (λ y x, (output ρ ls x - y) * (output ρ ls x - y)) ys xs).

(** A raw number, and its value. *)
Definition is_number (o : pyobj) : Prop := is_Some (num_val o).

Definition num (o : pyobj) : R := obj_at (λ _, 0) o.

(** The values [ρ] with the one of [p] replaced by [x]. *)
Definition update (ρ : nat → R) (p : nat) (x : R) : nat → R :=
  λ q, if decide (q = p) then x else ρ q.

(** Every layer but the last has a number of neurons other than one. *)
Fixpoint chained (ls : list Layer.t) : Prop :=
  match ls with
  | [] => True
  | [_] => True
  | l :: rest => length (Layer.neurons l) ≠ 1%nat ∧ chained rest
  end.

(** The number of parameters of [MLP(nin, nouts)]: a layer of [nout]
    neurons on [nin] inputs has [nout * (nin + 1)] of them. *)
Fixpoint param_count (nin : nat) (nouts : list nat) : nat :=
  match nouts with
  | [] => 0
  | nout :: rest => nout * S nin + param_count nout rest
  end.

(** The input width of every neuron, layer by layer. *)
Definition widths (ls : list Layer.t) : list (list nat) :=
  (λ l, (λ n, length (Neuron.w n)) <$> Layer.neurons l) <$> ls.

(** The last layer has exactly one neuron. *)
Definition scalar_output (ls : list Layer.t) : Prop :=
  ∃ l, last ls = Some l ∧ length (Layer.neurons l) = 1%nat.

(** The parameters of the layers are objects of the heap, and leaves. *)
Definition params_ok (h : heap) (ps : list nat) : Prop :=
  Forall (λ p, (p < length h)%nat ∧ backward_of h p = BNone) ps.

End MLPSpec.

(** ** The nodes a computation adds to a heap *)

Module Fresh.
Import Value Graph.

Section Fresh.

(** The heap before the computation, and the nodes of it that the
    computation may use as operands. *)
Variable h0 : heap.
Variable P : nat → Prop.

(** A node the computation may use: one it allocated, or one of [P]. *)
Definition usable (v : nat) : Prop := (length h0 ≤ v)%nat ∨ P v.

Definition ok_ref (h : heap) (v : nat) : Prop :=
  (v < length h)%nat ∧ usable v.

Definition ok_obj (h : heap) (o : pyobj) : Prop :=
  match o with
  | PyValue v => ok_ref h v
  | PyInt _ | PyFloat _ => True
  | PyNone => False
  end.

(** A node the computation allocated holds the value of its operator, has
    a zero [grad], a closure that runs without raising, and usable
    operands. *)
Definition node_ok (h : heap) (i : nat) : Prop :=
  value_ok h i ∧ grad_of h i = 0 ∧ Chain.closure_defined h i ∧
  ∀ p, p ∈ prev_of h i → usable p.

Definition inv (h : heap) : Prop :=
  (∃ l, h = h0 ++ l) ∧ wf h ∧ ∀ i, (length h0 ≤ i)%nat → node_ok h i.

(** The value of node [m] as a function of the values [ρ] given to the
    nodes of [h0]: a node of [h0] has the value [ρ] gives it, a node
    allocated since has the value its operator computes. *)
Fixpoint ev (fuel : nat) (h : heap) (ρ : nat → R) (m : nat) : R :=
  match fuel with
  | O => 0
  | S fuel' =>
      if decide (m < length h0)%nat then ρ m
      else
        match backward_of h m with
        | BNone => data_of h m
        | BAdd s o _ => ev fuel' h ρ s + ev fuel' h ρ o
        | BMul s o _ => ev fuel' h ρ s * ev fuel' h ρ o
        | BPow s k _ => PyNum.pow_total (ev fuel' h ρ s) k
        | BTanh s _ _ => PyNum.tanh_formula (ev fuel' h ρ s)
        | BExp s _ => Rtrigo_def.exp (ev fuel' h ρ s)
        end
  end.

Definition value_in (h : heap) (ρ : nat → R) (m : nat) : R :=
  ev (S m) h ρ m.

(** The computation [m] returns from [h], having only appended nodes. *)
Definition yields {A} (m : M A) (h : heap) (Q : A → heap → Prop) : Prop :=
  ∃ a l, m h = Ok a (h ++ l) ∧ inv (h ++ l) ∧ Q a (h ++ l).

(** What [x] is bound to in [MLP.__call__], made of numbers and usable
    nodes. *)
Definition ok_val (h : heap) (x : MLP.pyval) : Prop :=
  match x with
  | MLP.VList xs => Forall (ok_obj h) xs
  | MLP.VValue v => ok_ref h v
  end.

(** The accumulator of [sum]: the integer 0, or a usable node. *)
Definition ok_acc (h : heap) (acc : pyobj) : Prop :=
  acc = PyInt 0 ∨ ∃ a, acc = PyValue a ∧ ok_ref h a.

End Fresh.

(** What a call appends: nothing when it raises before allocating. *)
Definition appended (h : heap) (c : call) : Prop :=
  ∃ l, final_heap (run_call c h) = h ++ l ∧
       Forall (λ n, grad n = 0) l ∧
       ∀ out h', run_call c h = Ok out h' →
                 S out = length h' ∧ (length h < length h')%nat.

End Fresh.

(** ** Small models used to instantiate the theorems *)

Module Samples.
Import Value Graph.

(** [a = Value(3.0); b = Value(2.0); root = a * b], with [a.grad = 5.0]. *)
Definition graded_product : heap :=
  alter (set_grad 5) 0%nat Examples.product.

(** A model of one layer of one neuron of input width 2, whose parameters
    are the three leaves of [NeuronSpec.three_leaves]. *)
Definition one_neuron : MLP.t :=
  MLP.mk [Layer.mk [NeuronSpec.two_inputs]].

(** Two such layers in sequence: the first returns a bare node. *)
Definition two_layers : MLP.t :=
  MLP.mk [Layer.mk [NeuronSpec.two_inputs];
          Layer.mk [NeuronSpec.two_inputs]].

(** One layer of two neurons: the model returns a list. *)
Definition two_outputs : MLP.t :=
  MLP.mk [Layer.mk [NeuronSpec.two_inputs; NeuronSpec.two_inputs]].

(** [xs = [[1.0, 2.0]]; ys = [1.0]] *)
Definition inputs : list (list pyobj) := [[PyFloat 1; PyFloat 2]].

Definition targets : list pyobj := [PyFloat 1].

End Samples.

(** * Properties *)

(** ** Reading a heap after an allocation or an update *)

Section Accessors.
Import Value.

Lemma lookup_alloc (h : heap) (n : t) (v : nat) :
  (h ++ [n]) !! v =
  if decide (v = length h) then Some n else h !! v.
Proof.
  case_decide as Hv.
  - subst v. rewrite lookup_app_r by lia.
    by replace (length h - length h)%nat with 0%nat by lia.
  - destruct (decide (v < length h)%nat).
    + by rewrite lookup_app_l.
    + rewrite !lookup_ge_None_2; [done | lia |].
      rewrite length_app. simpl. lia.
Qed.

Lemma alter_alloc (f : t → t) (h : heap) (n : t) :
  alter f (length h) (h ++ [n]) = h ++ [f n].
Proof.
  replace (length h) with (length h + 0)%nat at 1 by lia.
  by rewrite alter_app_r.
Qed.

Lemma data_of_alloc h n v :
  data_of (h ++ [n]) v = if decide (v = length h) then data n else data_of h v.
Proof. unfold data_of. rewrite lookup_alloc. by case_decide. Qed.

Lemma grad_of_alloc h n v :
  grad_of (h ++ [n]) v = if decide (v = length h) then grad n else grad_of h v.
Proof. unfold grad_of. rewrite lookup_alloc. by case_decide. Qed.

Lemma prev_of_alloc h n v :
  prev_of (h ++ [n]) v = if decide (v = length h) then _prev n else prev_of h v.
Proof. unfold prev_of. rewrite lookup_alloc. by case_decide. Qed.

Lemma backward_of_alloc h n v :
  backward_of (h ++ [n]) v =
  if decide (v = length h) then _backward n else backward_of h v.
Proof. unfold backward_of. rewrite lookup_alloc. by case_decide. Qed.

Lemma data_of_set_grad h g v n :
  data_of (alter (set_grad g) v h) n = data_of h n.
Proof.
  unfold data_of. rewrite list_lookup_alter. case_decide; [subst|done].
  by destruct (h !! n).
Qed.

Lemma prev_of_set_grad h g v n :
  prev_of (alter (set_grad g) v h) n = prev_of h n.
Proof.
  unfold prev_of. rewrite list_lookup_alter. case_decide; [subst|done].
  by destruct (h !! n).
Qed.

Lemma backward_of_set_grad h g v n :
  backward_of (alter (set_grad g) v h) n = backward_of h n.
Proof.
  unfold backward_of. rewrite list_lookup_alter. case_decide; [subst|done].
  by destruct (h !! n).
Qed.

Lemma grad_of_set_grad h g v n :
  grad_of (alter (set_grad g) v h) n =
  if decide (n = v ∧ (v < length h)%nat) then g else grad_of h n.
Proof.
  unfold grad_of. rewrite list_lookup_alter.
  destruct (decide (v = n)) as [->|Hne].
  - destruct (h !! n) eqn:E; simpl.
    + apply lookup_lt_Some in E. by rewrite decide_True.
    + apply lookup_ge_None in E. rewrite decide_False; [done | lia].
  - rewrite decide_False; [done | naive_solver].
Qed.

Lemma data_of_ge h v : (length h ≤ v)%nat → data_of h v = 0.
Proof. intros. unfold data_of. by rewrite lookup_ge_None_2. Qed.

Lemma prev_of_ge h v : (length h ≤ v)%nat → prev_of h v = ∅.
Proof. intros. unfold prev_of. by rewrite lookup_ge_None_2. Qed.

Lemma backward_of_ge h v : (length h ≤ v)%nat → backward_of h v = BNone.
Proof. intros. unfold backward_of. by rewrite lookup_ge_None_2. Qed.

End Accessors.

(** ** Every heap the operators build is well formed *)

Section Built.
Import Value Graph.

Lemma same_graph_refl h : same_graph h h.
Proof. by split. Qed.

Lemma same_graph_trans h1 h2 h3 :
  same_graph h1 h2 → same_graph h2 h3 → same_graph h1 h3.
Proof.
  intros [L1 H1] [L2 H2]. split; [congruence|].
  intros v. destruct (H1 v) as (?&?&?), (H2 v) as (?&?&?).
  repeat split; congruence.
Qed.

Lemma same_graph_set_grad h g v : same_graph h (alter (set_grad g) v h).
Proof.
  split; [apply length_alter|]. intros n.
  by rewrite data_of_set_grad, prev_of_set_grad, backward_of_set_grad.
Qed.

Lemma wf_same_graph h h' : same_graph h h' → wf h → wf h'.
Proof.
  intros [_ Hs] Hwf i. specialize (Hwf i). unfold closure_ok in *.
  destruct (Hs i) as (_ & -> & ->). done.
Qed.

Lemma consistent_same_graph h h' : same_graph h h' → consistent h → consistent h'.
Proof.
  intros [_ Hs] Hc i. specialize (Hc i). unfold value_ok in *.
  destruct (Hs i) as (Hd & _ & ->).
  destruct (backward_of h i); rewrite ?Hd; try done;
    repeat match goal with |- context [data_of h' ?x] =>
      rewrite (proj1 (Hs x)) end; done.
Qed.

(** Allocating a node whose closure is set keeps the invariants when the
    operands exist. *)
Lemma wf_alloc h n :
  wf h →
  match _backward n with
  | BNone => _prev n = ∅
  | BAdd s o out | BMul s o out =>
      out = length h ∧ (∀ x, x ∈ _prev n ↔ x = s ∨ x = o) ∧
      (s < length h)%nat ∧ (o < length h)%nat
  | BPow s _ out | BTanh s _ out | BExp s out =>
      out = length h ∧ (∀ x, x ∈ _prev n ↔ x = s) ∧ (s < length h)%nat
  end →
  wf (h ++ [n]).
Proof.
  intros Hwf Hn i. unfold closure_ok.
  rewrite backward_of_alloc, prev_of_alloc.
  case_decide as Hi; [subst i; done | apply Hwf].
Qed.

Lemma wf_bound h i :
  wf h → backward_of h i ≠ BNone → (i < length h)%nat.
Proof.
  intros _ Hne. destruct (decide (i < length h)%nat); [done|].
  rewrite backward_of_ge in Hne by lia. done.
Qed.

Lemma consistent_alloc h n :
  wf h → consistent h →
  match _backward n with
  | BNone => True
  | BAdd s o _ =>
      (s < length h)%nat ∧ (o < length h)%nat ∧
      data n = data_of h s + data_of h o
  | BMul s o _ =>
      (s < length h)%nat ∧ (o < length h)%nat ∧
      data n = data_of h s * data_of h o
  | BPow s k _ =>
      (s < length h)%nat ∧ PyNum.pow (data_of h s) k = PyNum.PowVal (data n)
  | BTanh s t _ =>
      (s < length h)%nat ∧ t = PyNum.tanh_formula (data_of h s) ∧ data n = t
  | BExp s _ =>
      (s < length h)%nat ∧ data n = Rtrigo_def.exp (data_of h s)
  end →
  consistent (h ++ [n]).
Proof.
  intros Hwf Hc Hn i. unfold value_ok.
  rewrite backward_of_alloc, !data_of_alloc.
  case_decide as Hi.
  - subst i. destruct (_backward n); try done;
      rewrite ?data_of_alloc; repeat case_decide; try lia; naive_solver.
  - specialize (Hc i). specialize (Hwf i).
    unfold value_ok in Hc. unfold closure_ok in Hwf.
    destruct (decide (i < length h)%nat) as [Hlt|Hge].
    + destruct (backward_of h i); try done;
        rewrite ?data_of_alloc; repeat case_decide; try lia; naive_solver.
    + rewrite backward_of_ge in * by lia. done.
Qed.

End Built.

(** ** What each operator allocates *)

Section Operators.
Import Value Graph Alloc.

Ltac run_op :=
  unfold __add__, __mul__, pow_node, tanh, exp, promote, mbind, M_bind,
    bind, get, __init__, set_backward, modify, ret, lift_pow, raise;
  simpl; rewrite ?alter_alloc.

Lemma init_leaf d lbl h :
  __init__ d [] OpLeaf lbl h = Ok (length h) (h ++ [leaf d lbl]).
Proof. reflexivity. Qed.

Lemma add_value self o h :
  __add__ self (PyValue o) h = Ok (length h) (h ++ [add_node h self o]).
Proof. by run_op. Qed.

Lemma mul_value self o h :
  __mul__ self (PyValue o) h = Ok (length h) (h ++ [mul_node h self o]).
Proof. by run_op. Qed.

Lemma add_number self x r h :
  num_val x = Some r →
  __add__ self x h = __add__ self (PyValue (length h)) (h ++ [leaf r ""]).
Proof. destruct x; intros [= <-]; by run_op. Qed.

Lemma mul_number self x r h :
  num_val x = Some r →
  __mul__ self x h = __mul__ self (PyValue (length h)) (h ++ [leaf r ""]).
Proof. destruct x; intros [= <-]; by run_op. Qed.

Lemma add_none self h : __add__ self PyNone h = Raise TypeError h.
Proof. reflexivity. Qed.

Lemma mul_none self h : __mul__ self PyNone h = Raise TypeError h.
Proof. reflexivity. Qed.

Lemma pow_node_val self k d h :
  PyNum.pow (data_of h self) k = PyNum.PowVal d →
  pow_node self k h = Ok (length h) (h ++ [pow_node_of h self k d]).
Proof. intros E. run_op. rewrite E. simpl. by rewrite alter_alloc. Qed.

Lemma pow_node_zero_division self k h :
  PyNum.pow (data_of h self) k = PyNum.PowZeroDivision →
  pow_node self k h = Raise ZeroDivisionError h.
Proof. intros E. run_op. by rewrite E. Qed.

Lemma pow_node_complex self k h :
  PyNum.pow (data_of h self) k = PyNum.PowComplex →
  pow_node self k h = Raise ComplexValue h.
Proof. intros E. run_op. by rewrite E. Qed.

Lemma tanh_eq self h :
  tanh self h = Ok (length h) (h ++ [tanh_node h self]).
Proof. by run_op. Qed.

Lemma exp_eq self h :
  exp self h = Ok (length h) (h ++ [exp_node h self]).
Proof. by run_op. Qed.

(** *** The invariants are kept *)


Lemma good_empty : good [].
Proof.
  split; intros i; unfold closure_ok, value_ok;
    by rewrite backward_of_ge by (simpl; lia).
Qed.

Lemma good_leaf h d lbl : good h → good (h ++ [leaf d lbl]).
Proof.
  intros [Hw Hc]. split; [by apply wf_alloc | by apply consistent_alloc].
Qed.

Lemma good_add_node h self o :
  good h → (self < length h)%nat → (o < length h)%nat →
  good (h ++ [add_node h self o]).
Proof.
  intros [Hw Hc] ??. split; [apply wf_alloc | apply consistent_alloc];
    simpl; try done. split_and!; [done | set_solver | done | done].
Qed.

Lemma good_mul_node h self o :
  good h → (self < length h)%nat → (o < length h)%nat →
  good (h ++ [mul_node h self o]).
Proof.
  intros [Hw Hc] ??. split; [apply wf_alloc | apply consistent_alloc];
    simpl; try done. split_and!; [done | set_solver | done | done].
Qed.

Lemma good_pow_node h self k d :
  good h → (self < length h)%nat →
  PyNum.pow (data_of h self) k = PyNum.PowVal d →
  good (h ++ [pow_node_of h self k d]).
Proof.
  intros [Hw Hc] ??. split; [apply wf_alloc | apply consistent_alloc];
    simpl; try done. split_and!; [done | set_solver | done].
Qed.

Lemma good_tanh_node h self :
  good h → (self < length h)%nat → good (h ++ [tanh_node h self]).
Proof.
  intros [Hw Hc] ?. split; [apply wf_alloc | apply consistent_alloc];
    simpl; try done. split_and!; [done | set_solver | done].
Qed.

Lemma good_exp_node h self :
  good h → (self < length h)%nat → good (h ++ [exp_node h self]).
Proof.
  intros [Hw Hc] ?. split; [apply wf_alloc | apply consistent_alloc];
    simpl; try done. split_and!; [done | set_solver | done].
Qed.

Lemma good_set_grad h g v : good h → good (alter (set_grad g) v h).
Proof.
  intros [Hw Hc]. split;
    [eapply wf_same_graph | eapply consistent_same_graph];
    eauto using same_graph_set_grad.
Qed.

End Operators.

Section Grows.
Import Value Graph Alloc.

Lemma grows_ret {A} (V : A → heap → Prop) (a : A) h :
  good h → V a h → grows V (ret a) h.
Proof.
  intros Hg Hv. exists []. rewrite app_nil_r. simpl.
  split_and!; [done | done |]. by intros ?? [= <- <-].
Qed.

Lemma grows_raise {A} (V : A → heap → Prop) e h :
  good h → grows V (raise e) h.
Proof.
  intros Hg. exists []. rewrite app_nil_r. by split_and!.
Qed.

Lemma grows_bind {A B} (V : A → heap → Prop) (W : B → heap → Prop)
    (m : M A) (k : A → M B) h :
  grows V m h →
  (∀ a h', m h = Ok a h' → good h' → V a h' → (length h ≤ length h')%nat →
           grows W (k a) h') →
  grows W (m ≫= k) h.
Proof.
  intros (l & Hfin & Hg & Hv) Hk.
  unfold grows, mbind, M_bind, bind.
  destruct (m h) as [a h'|e h'] eqn:E; simpl in *.
  - subst h'.
    assert (length h ≤ length (h ++ l))%nat as Hle
      by (rewrite length_app; lia).
    destruct (Hk a (h ++ l) eq_refl Hg (Hv _ _ eq_refl) Hle)
      as (l' & Hfin' & Hg' & Hv').
    exists (l ++ l'). rewrite app_assoc. by split_and!.
  - subst h'. exists l. by split_and!.
Qed.

Lemma grows_weaken {A} (V W : A → heap → Prop) (m : M A) h :
  grows V m h → (∀ a h', V a h' → W a h') → grows W m h.
Proof.
  intros (l & ? & ? & Hv) HVW. exists l. split_and!; [done | done |].
  intros. by apply HVW, Hv.
Qed.

Lemma grows_one (n : t) v h :
  good (h ++ [n]) → v = length h → grows is_ref (λ h0, Ok v (h0 ++ [n])) h.
Proof.
  intros Hg ->. exists [n]. split_and!; [done | done |].
  intros ?? [= <- <-]. unfold is_ref. rewrite length_app. simpl. lia.
Qed.

Lemma grows_leaf d lbl h : good h → grows is_ref (__init__ d [] OpLeaf lbl) h.
Proof.
  intros Hg. exists [leaf d lbl]. split_and!; [done | by apply good_leaf |].
  intros ?? [= <- <-]. unfold is_ref. rewrite length_app. simpl. lia.
Qed.

Lemma grows_add_value self o h :
  good h → is_ref self h → is_ref o h →
  grows is_ref (__add__ self (PyValue o)) h.
Proof.
  intros Hg Hs Ho. exists [add_node h self o]. rewrite add_value.
  split_and!; [done | by apply good_add_node |].
  intros ?? [= <- <-]. unfold is_ref. rewrite length_app. simpl. lia.
Qed.

Lemma grows_mul_value self o h :
  good h → is_ref self h → is_ref o h →
  grows is_ref (__mul__ self (PyValue o)) h.
Proof.
  intros Hg Hs Ho. exists [mul_node h self o]. rewrite mul_value.
  split_and!; [done | by apply good_mul_node |].
  intros ?? [= <- <-]. unfold is_ref. rewrite length_app. simpl. lia.
Qed.

Lemma is_ref_alloc v h n : is_ref v h → is_ref v (h ++ [n]).
Proof. unfold is_ref. rewrite length_app. lia. Qed.

Lemma is_ref_new h n : is_ref (length h) (h ++ [n]).
Proof. unfold is_ref. rewrite length_app. simpl. lia. Qed.

Lemma grows_after_alloc {A} (V : A → heap → Prop) (m : M A) h n :
  grows V m (h ++ [n]) → grows V (λ h0, m (h0 ++ [n])) h.
Proof.
  intros (l & Hfin & Hg & Hv). exists ([n] ++ l).
  rewrite app_assoc. by split_and!.
Qed.

Lemma grows_add self other h :
  good h → is_ref self h → operand_ok h other →
  grows is_ref (__add__ self other) h.
Proof.
  intros Hg Hs Ho. destruct (num_val other) as [r|] eqn:E.
  - destruct (grows_add_value self (length h) (h ++ [leaf r ""])
                (good_leaf _ _ _ Hg) (is_ref_alloc _ _ _ Hs) (is_ref_new _ _))
      as (l & Hfin & Hg' & Hv).
    exists ([leaf r ""] ++ l). rewrite (add_number _ _ _ _ E), app_assoc.
    by split_and!.
  - destruct other; try done.
    + by apply grows_add_value.
    + exists []. rewrite app_nil_r. by split_and!.
Qed.

Lemma grows_mul self other h :
  good h → is_ref self h → operand_ok h other →
  grows is_ref (__mul__ self other) h.
Proof.
  intros Hg Hs Ho. destruct (num_val other) as [r|] eqn:E.
  - destruct (grows_mul_value self (length h) (h ++ [leaf r ""])
                (good_leaf _ _ _ Hg) (is_ref_alloc _ _ _ Hs) (is_ref_new _ _))
      as (l & Hfin & Hg' & Hv).
    exists ([leaf r ""] ++ l). rewrite (mul_number _ _ _ _ E), app_assoc.
    by split_and!.
  - destruct other; try done.
    + by apply grows_mul_value.
    + exists []. rewrite app_nil_r. by split_and!.
Qed.

Lemma grows_pow_node self k h :
  good h → is_ref self h → grows is_ref (pow_node self k) h.
Proof.
  intros Hg Hs. destruct (PyNum.pow (data_of h self) k) as [d| |] eqn:E.
  - exists [pow_node_of h self k d]. rewrite (pow_node_val _ _ _ _ E).
    split_and!; [done | by apply good_pow_node |].
    intros ?? [= <- <-]. apply is_ref_new.
  - exists []. rewrite app_nil_r, (pow_node_zero_division _ _ _ E).
    by split_and!.
  - exists []. rewrite app_nil_r, (pow_node_complex _ _ _ E).
    by split_and!.
Qed.

Lemma grows_pow self other h :
  good h → is_ref self h → grows is_ref (__pow__ self other) h.
Proof.
  intros Hg Hs. destruct other; simpl;
    try (by apply grows_pow_node); by apply grows_raise.
Qed.

Lemma grows_tanh self h : good h → is_ref self h → grows is_ref (tanh self) h.
Proof.
  intros Hg Hs. exists [tanh_node h self]. rewrite tanh_eq.
  split_and!; [done | by apply good_tanh_node |].
  intros ?? [= <- <-]. apply is_ref_new.
Qed.

Lemma grows_exp self h : good h → is_ref self h → grows is_ref (exp self) h.
Proof.
  intros Hg Hs. exists [exp_node h self]. rewrite exp_eq.
  split_and!; [done | by apply good_exp_node |].
  intros ?? [= <- <-]. apply is_ref_new.
Qed.

Lemma is_ref_mono v h h' : is_ref v h → (length h ≤ length h')%nat → is_ref v h'.
Proof. unfold is_ref. lia. Qed.

Lemma grows_neg self h : good h → is_ref self h → grows is_ref (__neg__ self) h.
Proof. intros. by apply grows_mul. Qed.

Lemma grows_lift_pow p h : good h → grows (λ _ _, True) (lift_pow p) h.
Proof.
  intros Hg. destruct p; simpl; [by apply grows_ret | by apply grows_raise..].
Qed.

Lemma grows_py_neg other h :
  good h → operand_ok h other → grows (λ o h', operand_ok h' o) (py_neg other) h.
Proof.
  intros Hg Ho. destruct other; simpl.
  - by apply grows_ret.
  - by apply grows_ret.
  - eapply grows_bind; [by apply grows_neg|].
    intros a h' _ Hg' Ha _. by apply grows_ret.
  - by apply grows_raise.
Qed.

Lemma grows_py_pow_m1 other h :
  good h → operand_ok h other →
  grows (λ o h', operand_ok h' o) (py_pow_m1 other) h.
Proof.
  intros Hg Ho. destruct other; simpl.
  - eapply grows_bind; [by apply grows_lift_pow|].
    intros a h' _ Hg' _ _. by apply grows_ret.
  - eapply grows_bind; [by apply grows_lift_pow|].
    intros a h' _ Hg' _ _. by apply grows_ret.
  - eapply grows_bind; [by apply grows_pow_node|].
    intros a h' _ Hg' Ha _. by apply grows_ret.
  - by apply grows_raise.
Qed.

Lemma grows_sub self other h :
  good h → is_ref self h → operand_ok h other →
  grows is_ref (__sub__ self other) h.
Proof.
  intros Hg Hs Ho. eapply grows_bind; [by apply grows_py_neg|].
  intros a h' _ Hg' Ha Hle. apply grows_add; eauto using is_ref_mono.
Qed.

Lemma grows_truediv self other h :
  good h → is_ref self h → operand_ok h other →
  grows is_ref (__truediv__ self other) h.
Proof.
  intros Hg Hs Ho. eapply grows_bind; [by apply grows_py_pow_m1|].
  intros a h' _ Hg' Ha Hle. apply grows_mul; eauto using is_ref_mono.
Qed.

Lemma grows_call c h : good h → call_ok h c → grows is_ref (run_call c) h.
Proof.
  intros Hg Hc. destruct c; simpl in *; destruct_and?;
    eauto using grows_leaf, grows_add, grows_mul, grows_pow, grows_neg,
      grows_sub, grows_truediv, grows_tanh, grows_exp.
Qed.

(** Every heap built by the operators is well formed and consistent. *)
Lemma built_good h : built h → good h.
Proof.
  induction 1 as [|h c _ IH Hc|h v g _ IH].
  - apply good_empty.
  - destruct (grows_call c h IH Hc) as (l & -> & Hg & _). done.
  - by apply good_set_grad.
Qed.

End Grows.

(** ** Reachability in a well-formed heap *)

Section GraphFacts.
Import Value Graph.

Lemma edge_lt h v p : wf h → edge h v p → (p < v)%nat.
Proof.
  intros Hwf He. specialize (Hwf v). unfold edge, closure_ok in *.
  destruct (backward_of h v); [rewrite Hwf in He; set_solver|..];
    naive_solver.
Qed.

Lemma reachable_le h v x : wf h → reachable h v x → (x ≤ v)%nat.
Proof.
  intros Hwf. induction 1 as [|a b c Hab _ IH]; [lia|].
  apply (edge_lt _ _ _ Hwf) in Hab. lia.
Qed.

Lemma preds_first_closed h l v x :
  preds_first h l → v ∈ l → reachable h v x → x ∈ l.
Proof.
  intros Hpf Hv Hr. induction Hr as [|a b c Hab _ IH]; [done|].
  apply IH. apply list_elem_of_lookup in Hv as [j Hj].
  destruct (Hpf _ _ _ Hj Hab) as (i & _ & Hi).
  apply list_elem_of_lookup. eauto.
Qed.

Lemma preds_first_snoc h l v :
  preds_first h l → (∀ p, edge h v p → p ∈ l) → preds_first h (l ++ [v]).
Proof.
  intros Hpf Hv j u p Hj He.
  destruct (decide (j < length l)%nat) as [Hlt|Hge].
  - rewrite lookup_app_l in Hj by done.
    destruct (Hpf _ _ _ Hj He) as (i & Hi & Hp).
    exists i. split; [done|]. rewrite lookup_app_l; [done|lia].
  - rewrite lookup_app_r in Hj by lia.
    destruct (j - length l)%nat eqn:E; [|by destruct n].
    injection Hj as <-. apply Hv, list_elem_of_lookup in He as [i Hi].
    exists i. pose proof (lookup_lt_Some _ _ _ Hi).
    split; [lia|]. by rewrite lookup_app_l.
Qed.

End GraphFacts.

(** ** The traversal [build_topo] *)

Section BuildTopo.
Import Value Graph.

Variable iter : gset nat → list nat.
Hypothesis iter_perm : iter_ok iter.

Lemma elem_of_iter (s : gset nat) x : x ∈ iter s ↔ x ∈ s.
Proof. rewrite (iter_perm s). apply elem_of_elements. Qed.

(** One call of [build_topo] on [v], made when every node that is visited
    and not yet listed is an ancestor still on the call stack. *)
Lemma build_topo_spec h (Hwf : wf h) fuel :
  ∀ v s,
    (v < fuel)%nat → topo_inv h s →
    (∀ x, x ∈ visited s → x ∉ topo s → (v < x)%nat) →
    ∃ s' new,
      build_topo iter fuel h v s = Some s' ∧ topo_inv h s' ∧
      topo s' = topo s ++ new ∧
      visited s' = visited s ∪ list_to_set new ∧
      (∀ x, x ∈ new → (x ≤ v)%nat ∧ reachable h v x) ∧
      (∀ x, reachable h v x → x ∈ topo s') ∧
      (v ∉ visited s → ∃ new', new = new' ++ [v]).
Proof.
  induction fuel as [|fuel IH]; intros v s Hv Hinv Hpend; [lia|].
  simpl. destruct (decide (v ∈ visited s)) as [Hin|Hnin].
  - assert (v ∈ topo s) as Hvt.
    { destruct (decide (v ∈ topo s)) as [|Hnt]; [done|].
      specialize (Hpend v Hin Hnt). lia. }
    exists s, []. rewrite app_nil_r. split_and!; try done.
    + set_solver.
    + intros x Hx. by apply elem_of_nil in Hx.
    + intros x Hr. eapply preds_first_closed; [apply Hinv|done..].
  - assert (∀ cs s0,
      (∀ c, c ∈ cs → (c < v)%nat) → topo_inv h s0 →
      (∀ x, x ∈ visited s0 → x ∉ topo s0 → (v ≤ x)%nat) →
      ∃ s' new,
        foldl (λ acc child, acc ≫= build_topo iter fuel h child)
              (Some s0) cs = Some s' ∧ topo_inv h s' ∧
        topo s' = topo s0 ++ new ∧
        visited s' = visited s0 ∪ list_to_set new ∧
        (∀ x, x ∈ new → (x < v)%nat ∧ ∃ c, c ∈ cs ∧ reachable h c x) ∧
        (∀ c x, c ∈ cs → reachable h c x → x ∈ topo s')) as Hfold.
    { induction cs as [|c cs IHcs]; intros s0 Hcs Hinv0 Hpend0.
      - exists s0, []. rewrite app_nil_r. split_and!; try done.
        + set_solver.
        + intros x Hx. by apply elem_of_nil in Hx.
        + intros c x Hc. by apply elem_of_nil in Hc.
      - assert (c < v)%nat as Hc by (apply Hcs; left).
        destruct (IH c s0)
          as (s1 & new1 & E1 & Hinv1 & Ht1 & Hv1 & Hn1 & Hr1 & _);
          [lia | done | |].
        { intros x Hx Hnx. specialize (Hpend0 x Hx Hnx). lia. }
        destruct (IHcs s1) as (s2 & new2 & E2 & Hinv2 & Ht2 & Hv2 & Hn2 & Hr2);
          [ | done | |].
        { intros c' Hc'. apply Hcs. by right. }
        { intros x Hx Hnx. apply Hpend0.
          - rewrite Hv1 in Hx. rewrite Ht1 in Hnx.
            apply elem_of_union in Hx as [Hx|Hx]; [done|].
            exfalso. apply Hnx. apply elem_of_app. right.
            by apply elem_of_list_to_set in Hx.
          - rewrite Ht1 in Hnx. intros Hx0. apply Hnx, elem_of_app. by left. }
        exists s2, (new1 ++ new2). simpl. rewrite E1. simpl.
        split_and!; try done.
        + by rewrite Ht2, Ht1, app_assoc.
        + rewrite Hv2, Hv1, list_to_set_app_L. set_solver.
        + intros x Hx. apply elem_of_app in Hx as [Hx|Hx].
          * destruct (Hn1 x Hx) as [Hle Hr]. split; [lia|].
            exists c. split; [left|done].
          * destruct (Hn2 x Hx) as [Hlt (c' & Hc' & Hr)]. split; [done|].
            exists c'. split; [by right|done].
        + intros c' x Hc' Hr. apply elem_of_cons in Hc' as [->|Hc'].
          * rewrite Ht2. apply elem_of_app. left. by apply Hr1.
          * by eapply Hr2. }
    destruct (Hfold (iter (prev_of h v))
                (mk_topo ({[v]} ∪ visited s) (topo s)))
      as (s2 & new & E & Hinv2 & Ht2 & Hv2 & Hn2 & Hr2).
    { intros c Hc. apply elem_of_iter in Hc. by eapply edge_lt. }
    { destruct Hinv as (Hnd & Hsub & Hpf). split_and!; simpl; try done.
      intros x Hx. apply elem_of_union. right. by apply Hsub. }
    { simpl. intros x Hx Hnx. apply elem_of_union in Hx as [Hx|Hx].
      - apply elem_of_singleton in Hx. lia.
      - specialize (Hpend x Hx Hnx). lia. }
    simpl in *. rewrite E.
    destruct Hinv as (Hnd & Hsub & Hpf).
    destruct Hinv2 as (Hnd2 & Hsub2 & Hpf2).
    assert (v ∉ topo s2) as Hvn.
    { rewrite Ht2. intros Hx. apply elem_of_app in Hx as [Hx|Hx].
      - apply Hnin. by apply Hsub.
      - destruct (Hn2 v Hx) as [Hlt _]. lia. }
    exists (mk_topo (visited s2) (topo s2 ++ [v])), (new ++ [v]). simpl.
    split_and!; try done.
    + split_and!; simpl.
      * apply NoDup_app. split_and!; [done | | apply NoDup_singleton].
        intros x Hx Hx'. apply list_elem_of_singleton in Hx'. by subst.
      * intros x Hx. apply elem_of_app in Hx as [Hx|Hx]; [by apply Hsub2|].
        apply list_elem_of_singleton in Hx. subst x.
        rewrite Hv2. set_solver.
      * apply preds_first_snoc; [done|].
        intros p Hp. apply (Hr2 p p); [by apply elem_of_iter | apply rtc_refl].
    + by rewrite Ht2, app_assoc.
    + rewrite Hv2, list_to_set_app_L. set_solver.
    + intros x Hx. apply elem_of_app in Hx as [Hx|Hx].
      * destruct (Hn2 x Hx) as [Hlt (c & Hc & Hr)]. split; [lia|].
        eapply rtc_l; [|done]. by apply elem_of_iter in Hc.
      * apply list_elem_of_singleton in Hx. subst x.
        split; [lia | apply rtc_refl].
    + intros x Hr. apply elem_of_app. inversion Hr as [|? c ? Hvc Hcx]; subst.
      * right. by apply list_elem_of_singleton.
      * left. apply (Hr2 c x); [by apply elem_of_iter | done].
    + intros _. by exists new.
Qed.

End BuildTopo.

(** ** Running the closures *)

Section RunClosures.
Import Value Graph Chain.

Lemma same_graph_edges h h' v : same_graph h h' → edges h' v = edges h v.
Proof.
  intros [_ Hs]. unfold edges. destruct (Hs v) as (_ & _ & ->).
  destruct (backward_of h v); try done;
    repeat match goal with |- context [data_of h' ?x] =>
      rewrite (proj1 (Hs x)) end; done.
Qed.

Lemma same_graph_mult h h' v n : same_graph h h' → mult h' v n = mult h v n.
Proof. intros Hs. unfold mult. by rewrite (same_graph_edges _ _ _ Hs). Qed.

Lemma same_graph_closure_defined h h' v :
  same_graph h h' → closure_defined h v → closure_defined h' v.
Proof.
  intros [_ Hs]. unfold closure_defined. destruct (Hs v) as (_ & _ & ->).
  destruct (backward_of h v); try done. by rewrite (proj1 (Hs self)).
Qed.

Lemma same_graph_sym h h' : same_graph h h' → same_graph h' h.
Proof.
  intros [L Hs]. split; [done|]. intros v. destruct (Hs v) as (?&?&?). done.
Qed.

Lemma same_graph_propagate h h' l g :
  same_graph h h' → propagate h' l g = propagate h l g.
Proof.
  intros Hs. revert g. induction l as [|v l IH]; intros g; simpl; [done|].
  rewrite IH. f_equal.
  apply FunctionalExtensionality.functional_extensionality. intros n.
  by rewrite (same_graph_mult _ _ _ _ Hs).
Qed.

(** Python's [t ** 2] is [t * t]. *)
Lemma pow_two t : PyNum.pow t 2 = PyNum.PowVal (t * t).
Proof.
  unfold PyNum.pow.
  destruct (Req_dec_T 2 0) as [?|_]; [lra|].
  destruct (Req_dec_T t 0) as [->|Ht].
  - destruct (Rlt_dec 2 0); [lra|]. f_equal. lra.
  - destruct (Rlt_dec 0 t) as [Hp|Hn].
    + f_equal. replace 2 with (INR 2) by (simpl; lra).
      rewrite Rpower_pow by done. simpl. lra.
    + assert (Int_part 2 = 2%Z) as E.
      { symmetry. apply Int_part_spec. lra. }
      unfold PyNum.is_integral_dec, PyNum.is_integral. rewrite E.
      destruct (Req_dec_T 2 2) as [_|?]; [|lra].
      f_equal. simpl. lra.
Qed.

Lemma add_grad_eq v d h :
  add_grad v d h = Ok () (alter (set_grad (grad_of h v + d)) v h).
Proof. reflexivity. Qed.

Ltac run_m :=
  simpl; unfold mbind, M_bind, bind, get, ret, raise; simpl;
  rewrite ?add_grad_eq; simpl.

Ltac grads :=
  rewrite ?grad_of_set_grad, ?data_of_set_grad, ?length_alter;
  repeat case_decide; destruct_and?; subst; try lia; try lra.

(** The closure of [v] either raises at once, leaving the heap as it is, or
    adds [v.grad], scaled, to the operands and changes nothing else. *)
Lemma run_closure_cases h v :
  wf h →
  (closure_defined h v ∧
   ∃ h', run_closure (backward_of h v) h = Ok () h' ∧ same_graph h h' ∧
         ∀ n, grad_of h' n = grad_of h n + mult h v n * grad_of h v) ∨
  (¬ closure_defined h v ∧
   ∃ e, run_closure (backward_of h v) h = Raise e h).
Proof.
  intros Hwf. pose proof (Hwf v) as Hv.
  unfold closure_ok, closure_defined, mult, edges, Rsum in *.
  destruct (backward_of h v) as [|s o out|s o out|s k out|s t0 out|s out] eqn:E.
  - left. split; [done|]. exists h. split_and!; [done|apply same_graph_refl|].
    intros n. simpl. lra.
  - destruct Hv as (-> & _ & Hs & Ho).
    assert (v < length h)%nat by (apply wf_bound; [done|by rewrite E]).
    left. split; [done|]. eexists. split_and!; [by run_m| |].
    + eapply same_graph_trans; apply same_graph_set_grad.
    + intros n. simpl. grads.
  - destruct Hv as (-> & _ & Hs & Ho).
    assert (v < length h)%nat by (apply wf_bound; [done|by rewrite E]).
    left. split; [done|]. eexists. split_and!; [by run_m| |].
    + eapply same_graph_trans; apply same_graph_set_grad.
    + intros n. simpl. grads.
  - destruct Hv as (-> & _ & Hs).
    assert (v < length h)%nat by (apply wf_bound; [done|by rewrite E]).
    unfold PyNum.pow_total.
    destruct (PyNum.pow (data_of h s) (k - 1)) as [p| |] eqn:Ep.
    + left. split; [by eexists|]. eexists. split_and!.
      * run_m. rewrite Ep. by run_m.
      * apply same_graph_set_grad.
      * intros n. simpl. grads.
    + right. split; [by intros [? ?]|]. eexists. run_m. by rewrite Ep.
    + right. split; [by intros [? ?]|]. eexists. run_m. by rewrite Ep.
  - destruct Hv as (-> & _ & Hs).
    assert (v < length h)%nat by (apply wf_bound; [done|by rewrite E]).
    left. split; [done|]. unfold PyNum.pow_total. rewrite pow_two.
    eexists. split_and!; [run_m; rewrite pow_two; by run_m
                         | apply same_graph_set_grad |].
    intros n. simpl. grads.
  - destruct Hv as (-> & _ & Hs).
    assert (v < length h)%nat by (apply wf_bound; [done|by rewrite E]).
    left. split; [done|].
    eexists. split_and!; [by run_m | apply same_graph_set_grad |].
    intros n. simpl. grads.
Qed.

End RunClosures.

Section BuildTopoFuel.
Import Value Graph.

Variable iter : gset nat → list nat.

Lemma foldl_build_none fuel h cs :
  foldl (λ acc child, acc ≫= build_topo iter fuel h child) None cs = None.
Proof. induction cs as [|c cs IH]; [done|]. simpl. apply IH. Qed.

(** A traversal that succeeds succeeds with any larger bound, with the same
    result. *)
Lemma build_topo_mono h fuel :
  ∀ fuel' v s s', (fuel ≤ fuel')%nat →
    build_topo iter fuel h v s = Some s' →
    build_topo iter fuel' h v s = Some s'.
Proof.
  induction fuel as [|fuel IH]; intros fuel' v s s' Hle E; [done|].
  destruct fuel' as [|fuel']; [lia|]. simpl in *.
  case_decide; [done|].
  assert (∀ cs acc s2,
    foldl (λ acc child, acc ≫= build_topo iter fuel h child) acc cs = Some s2 →
    foldl (λ acc child, acc ≫= build_topo iter fuel' h child) acc cs = Some s2)
    as Hfold.
  { induction cs as [|c cs IHcs]; intros acc s2 E2; [done|]. simpl in *.
    destruct acc as [a|]; simpl in *.
    - destruct (build_topo iter fuel h c a) as [x|] eqn:Ex.
      + rewrite (IH fuel' c a x) by (lia || done). by apply IHcs.
      + by rewrite foldl_build_none in E2.
    - by rewrite foldl_build_none in E2. }
  destruct (foldl _ _ _) as [s2|] eqn:E2 in E; [|done].
  by rewrite (Hfold _ _ _ E2).
Qed.

Hypothesis iter_perm : iter_ok iter.

(** With a bound above the root's index the traversal succeeds. *)
Lemma build_topo_enough h root fuel :
  wf h → (root < fuel)%nat →
  ∃ s, build_topo iter fuel h root topo_empty = Some s.
Proof.
  intros Hwf Hlt.
  destruct (build_topo_spec iter iter_perm h Hwf fuel root topo_empty)
    as (s & new & E & _); [done | | | by exists s].
  - split_and!; simpl; [apply NoDup_nil_2 | set_solver |].
    intros j v p Hj. done.
  - simpl. set_solver.
Qed.

(** What the traversal from [root] returns, whenever it returns. *)
Lemma build_topo_root h root fuel s :
  wf h → build_topo iter fuel h root topo_empty = Some s →
  NoDup (topo s) ∧ (∀ n, n ∈ topo s ↔ reachable h root n) ∧
  preds_first h (topo s) ∧ (∃ l, topo s = l ++ [root]) ∧
  visited s = list_to_set (topo s).
Proof.
  intros Hwf E.
  destruct (build_topo_spec iter iter_perm h Hwf (S (max fuel root)) root
              topo_empty)
    as (s' & new & E' & (Hnd & Hsub & Hpf) & Ht & Hv & Hn & Hr & Hlast).
  { lia. }
  { split_and!; simpl; [apply NoDup_nil_2 | set_solver |].
    intros j v p Hj. done. }
  { simpl. set_solver. }
  rewrite (build_topo_mono h fuel (S (max fuel root)) _ _ _ ltac:(lia) E) in E'.
  injection E' as <-. simpl in *. subst new.
  split_and!; try done.
  - intros n. split; [|by apply Hr]. intros Hn'. by apply Hn.
  - apply Hlast. set_solver.
  - rewrite Hv. set_solver.
Qed.

End BuildTopoFuel.

(** ** Finite sums of reals *)

Arguments Chain.Rsum : simpl never.

Section Sums.
Import Chain.

Lemma Rsum_nil : Rsum [] = 0.
Proof. reflexivity. Qed.

Lemma Rsum_cons x l : Rsum (x :: l) = x + Rsum l.
Proof. reflexivity. Qed.

Lemma Rsum_app l k : Rsum (l ++ k) = Rsum l + Rsum k.
Proof.
  induction l as [|x l IH]; csimpl; rewrite ?Rsum_cons, ?Rsum_nil; [lra|].
  rewrite IH. lra.
Qed.

Lemma Rsum_zero {A} (f : A → R) l :
  (∀ x, x ∈ l → f x = 0) → Rsum (f <$> l) = 0.
Proof.
  induction l as [|x l IH]; intros Hf; csimpl; rewrite ?Rsum_cons, ?Rsum_nil; [done|].
  rewrite Hf by left. rewrite IH; [lra|]. intros. apply Hf. by right.
Qed.

Lemma Rsum_ext {A} (f g : A → R) l :
  (∀ x, x ∈ l → f x = g x) → Rsum (f <$> l) = Rsum (g <$> l).
Proof.
  induction l as [|x l IH]; intros Hf; csimpl; rewrite ?Rsum_cons, ?Rsum_nil; [done|].
  rewrite Hf by left. rewrite IH; [done|]. intros. apply Hf. by right.
Qed.

Lemma Rsum_plus {A} (f g : A → R) l :
  Rsum ((λ x, f x + g x) <$> l) = Rsum (f <$> l) + Rsum (g <$> l).
Proof.
  induction l as [|x l IH]; csimpl; rewrite ?Rsum_cons, ?Rsum_nil; [lra|].
  rewrite IH. lra.
Qed.

Lemma Rsum_scal {A} (c : R) (f : A → R) l :
  Rsum ((λ x, c * f x) <$> l) = c * Rsum (f <$> l).
Proof.
  induction l as [|x l IH]; csimpl; rewrite ?Rsum_cons, ?Rsum_nil; [lra|].
  rewrite IH. lra.
Qed.

Lemma Rsum_scal_r {A} (c : R) (f : A → R) l :
  Rsum ((λ x, f x * c) <$> l) = Rsum (f <$> l) * c.
Proof.
  induction l as [|x l IH]; csimpl; rewrite ?Rsum_cons, ?Rsum_nil; [lra|].
  rewrite IH. lra.
Qed.

Lemma Rsum_swap {A B} (f : A → B → R) l k :
  Rsum ((λ x, Rsum ((λ y, f x y) <$> k)) <$> l) =
  Rsum ((λ y, Rsum ((λ x, f x y) <$> l)) <$> k).
Proof.
  induction l as [|x l IH]; csimpl; rewrite ?Rsum_cons, ?Rsum_nil.
  - symmetry. by apply Rsum_zero.
  - rewrite IH. by rewrite <- Rsum_plus.
Qed.

Lemma Rsum_concat {A} (g : A → R) (ls : list (list A)) :
  Rsum (g <$> concat ls) = Rsum ((λ l, Rsum (g <$> l)) <$> ls).
Proof.
  induction ls as [|l ls IH]; csimpl; rewrite ?Rsum_cons, ?Rsum_nil; [done|].
  by rewrite fmap_app, Rsum_app, IH.
Qed.

Lemma Rsum_perm l k : l ≡ₚ k → Rsum l = Rsum k.
Proof. induction 1; csimpl; rewrite ?Rsum_cons, ?Rsum_nil; lra. Qed.

(** A sum over a duplicate-free list of a function that vanishes off one
    point. *)
Lemma Rsum_single (a : nat → R) (m : nat) l :
  NoDup l → m ∈ l →
  Rsum ((λ s, if decide (m = s) then a s else 0) <$> l) = a m.
Proof.
  induction 1 as [|x l Hx Hnd IH]; intros Hm; [by apply elem_of_nil in Hm|].
  csimpl; rewrite ?Rsum_cons, ?Rsum_nil. case_decide as E.
  - subst x. rewrite Rsum_zero; [lra|].
    intros y Hy. case_decide; [by subst|done].
  - apply elem_of_cons in Hm as [?|Hm]; [done|]. rewrite IH by done. lra.
Qed.

(** Two duplicate-free lists give the same sum when the function vanishes
    on what the larger one has in addition. *)
Lemma Rsum_support (f : nat → R) l k :
  NoDup l → NoDup k → (∀ x, x ∈ l → x ∈ k) →
  (∀ x, x ∈ k → x ∉ l → f x = 0) →
  Rsum (f <$> l) = Rsum (f <$> k).
Proof.
  intros Hl Hk Hsub Hz.
  assert (l ⊆+ k) as Hs by (by apply NoDup_submseteq).
  apply submseteq_Permutation in Hs as [r Hr].
  rewrite (Rsum_perm (f <$> k) (f <$> (l ++ r))) by (by rewrite Hr).
  rewrite fmap_app, Rsum_app, (Rsum_zero f r); [lra|].
  intros x Hx. apply Hz.
  - rewrite Hr. apply elem_of_app. by right.
  - rewrite Hr in Hk. apply NoDup_app in Hk as (_ & Hd & _).
    intros Hxl. by apply (Hd x).
Qed.

End Sums.

(** ** The gradients that the closures accumulate *)

Section Propagate.
Import Value Graph Chain.

Lemma edges_edge h v e : wf h → e ∈ edges h v → edge h v e.1 ∧ (e.1 < v)%nat.
Proof.
  intros Hwf He. specialize (Hwf v). unfold edges, edge, closure_ok in *.
  destruct (backward_of h v); simpl in *;
    [by apply elem_of_nil in He|..];
    repeat (apply elem_of_cons in He as [->|He]); simpl;
    try (by apply elem_of_nil in He); naive_solver.
Qed.

Lemma mult_zero h v n : wf h → ¬ edge h v n → mult h v n = 0.
Proof.
  intros Hwf Hn. unfold mult. apply Rsum_zero. intros e He.
  case_decide; [|done]. subst n. by apply (edges_edge _ _ _ Hwf) in He as [? _].
Qed.

Lemma preds_first_app_l h l k : preds_first h (l ++ k) → preds_first h l.
Proof.
  intros Hpf j v p Hj He.
  pose proof (lookup_lt_Some _ _ _ Hj).
  destruct (Hpf j v p) as (i & Hi & Hp); [by rewrite lookup_app_l | done |].
  exists i. split; [done|]. rewrite lookup_app_l in Hp; [done|lia].
Qed.

(** Reversing the list that [build_topo] returns puts every node before
    its predecessors. *)
Lemma users_first_reverse h l :
  NoDup l → preds_first h l → users_first h (reverse l).
Proof.
  induction l as [|v l IH] using rev_ind; intros Hnd Hpf; [done|].
  rewrite reverse_snoc. simpl. split.
  - intros u Hu He.
    assert (u ∈ l ++ [v]) as Hu'.
    { apply elem_of_cons in Hu as [->|Hu]; apply elem_of_app.
      - right. by left.
      - left. by apply elem_of_reverse. }
    apply list_elem_of_lookup in Hu' as [j Hj].
    destruct (Hpf j u v Hj He) as (i & Hi & Hv).
    assert ((l ++ [v]) !! length l = Some v) as Hlast.
    { rewrite lookup_app_r by lia.
      by replace (length l - length l)%nat with 0%nat by lia. }
    pose proof (NoDup_lookup _ _ _ _ Hnd Hv Hlast).
    pose proof (lookup_lt_Some _ _ _ Hj) as Hlen.
    rewrite length_app in Hlen. simpl in Hlen. lia.
  - apply IH; [by apply NoDup_app in Hnd as (? & _) |].
    by eapply preds_first_app_l.
Qed.

Lemma users_first_no_edge h v l u :
  users_first h (v :: l) → u ∈ v :: l → ¬ edge h u v.
Proof. intros [H _]. apply H. Qed.

(** The accumulated gradients solve the recurrence of reverse-mode
    differentiation. *)
Lemma propagate_fix h l :
  wf h → users_first h l →
  ∀ g n, propagate h l g n =
         g n + Rsum ((λ s, mult h s n * propagate h l g s) <$> l).
Proof.
  intros Hwf. induction l as [|v l IH]; intros Hu g n;
    csimpl; rewrite ?Rsum_cons, ?Rsum_nil; [lra|].
  destruct Hu as [Hv Hu].
  set (g' := λ n, g n + mult h v n * g v).
  assert (propagate h l g' v = g v) as Ev.
  { rewrite (IH Hu). rewrite Rsum_zero.
    - unfold g'. rewrite (mult_zero h v v) by (done || (apply Hv; left)). lra.
    - intros s Hs. rewrite (mult_zero h s v); [lra | done |].
      apply Hv. by right. }
  rewrite Ev. rewrite (IH Hu g' n). unfold g'. lra.
Qed.

(** The recurrence has one solution on the list. *)
Lemma propagate_unique h l :
  wf h → users_first h l →
  ∀ g (F F' : nat → R),
    (∀ n, n ∈ l → F n = g n + Rsum ((λ s, mult h s n * F s) <$> l)) →
    (∀ n, n ∈ l → F' n = g n + Rsum ((λ s, mult h s n * F' s) <$> l)) →
    ∀ n, n ∈ l → F n = F' n.
Proof.
  intros Hwf. induction l as [|v l IH]; intros Hu g F F' HF HF' n Hn.
  { by apply elem_of_nil in Hn. }
  destruct Hu as [Hv Hu].
  assert (∀ G : nat → R,
    (∀ n, n ∈ v :: l → G n = g n + Rsum ((λ s, mult h s n * G s) <$> v :: l)) →
    G v = g v ∧
    ∀ n, n ∈ l →
      G n = (g n + mult h v n * g v) + Rsum ((λ s, mult h s n * G s) <$> l))
    as Hstep.
  { intros G HG. assert (G v = g v) as Ev.
    { rewrite HG by left. rewrite Rsum_zero; [lra|].
      intros s Hs. rewrite (mult_zero h s v); [lra | done | by apply Hv]. }
    split; [done|]. intros m Hm. rewrite HG by (by right).
    csimpl. rewrite Rsum_cons, Ev. lra. }
  destruct (Hstep F HF) as [EF HFl], (Hstep F' HF') as [EF' HFl'].
  apply elem_of_cons in Hn as [->|Hn]; [congruence|].
  by apply (IH Hu (λ n, g n + mult h v n * g v) F F').
Qed.

(** When every closure is defined the loop returns, having added to each
    [grad] what [propagate] says. *)
Lemma run_all_ok h l :
  wf h → (∀ v, v ∈ l → closure_defined h v) →
  ∃ h', run_all l h = Ok () h' ∧ same_graph h h' ∧
        ∀ n, grad_of h' n = propagate h l (grad_of h) n.
Proof.
  intros Hwf. revert h Hwf. induction l as [|v l IH]; intros h Hwf Hdef.
  { exists h. split_and!; [done | apply same_graph_refl | done]. }
  destruct (run_closure_cases h v Hwf) as [(_ & h1 & E1 & Hs1 & Hg1)|(Hn & _)];
    [|exfalso; apply Hn, Hdef; left].
  destruct (IH h1) as (h2 & E2 & Hs2 & Hg2).
  { by eapply wf_same_graph. }
  { intros u Hu. eapply same_graph_closure_defined; [done|].
    apply Hdef. by right. }
  exists h2. split_and!.
  - simpl. unfold mbind, M_bind, bind, get. by rewrite E1.
  - by eapply same_graph_trans.
  - intros n. rewrite Hg2. simpl. rewrite (same_graph_propagate _ _ _ _ Hs1).
    f_equal. apply FunctionalExtensionality.functional_extensionality.
    intros m. apply Hg1.
Qed.

(** When the loop returns, every closure it ran was defined. *)
Lemma run_all_returned h l u h' :
  wf h → run_all l h = Ok u h' → ∀ v, v ∈ l → closure_defined h v.
Proof.
  intros Hwf. revert h Hwf. induction l as [|v l IH]; intros h Hwf E x Hx.
  { by apply elem_of_nil in Hx. }
  simpl in E. unfold mbind, M_bind, bind, get in E.
  destruct (run_closure_cases h v Hwf) as [(Hd & h1 & E1 & Hs1 & _)|(_ & e & E1)];
    rewrite E1 in E; [|done].
  apply elem_of_cons in Hx as [->|Hx]; [done|].
  eapply same_graph_closure_defined; [by apply same_graph_sym|].
  eapply IH; [|done..]. by eapply wf_same_graph.
Qed.

(** Whether the loop returns or raises, it leaves the graph as it is and
    writes only the [grad] of predecessors of the nodes it ran. *)
Lemma run_all_frame h l :
  wf h →
  same_graph h (final_heap (run_all l h)) ∧
  ∀ n, (∀ v, v ∈ l → ¬ edge h v n) →
       grad_of (final_heap (run_all l h)) n = grad_of h n.
Proof.
  intros Hwf. revert h Hwf. induction l as [|v l IH]; intros h Hwf.
  { split; [apply same_graph_refl | done]. }
  simpl. unfold mbind, M_bind, bind, get.
  destruct (run_closure_cases h v Hwf) as [(_ & h1 & E1 & Hs1 & Hg1)|(_ & e & E1)];
    rewrite E1; simpl; [|split; [apply same_graph_refl | done]].
  destruct (IH h1) as [Hs2 Hg2]; [by eapply wf_same_graph|].
  split; [by eapply same_graph_trans|].
  intros n Hn. rewrite Hg2.
  - rewrite Hg1, mult_zero; [lra | done | apply Hn; left].
  - intros u Hu He. apply (Hn u); [by right|].
    unfold edge in *. destruct Hs1 as [_ Hs1].
    by destruct (Hs1 u) as (_ & <- & _).
Qed.

End Propagate.

(** ** Sums over paths *)

Section PathSums.
Import Value Graph Chain.

Variable h : heap.
Hypothesis Hwf : wf h.

Lemma paths_fuel n fuel :
  ∀ fuel' m, (m < fuel)%nat → (m < fuel')%nat →
    paths fuel h m n = paths fuel' h m n.
Proof.
  induction fuel as [|fuel IH]; intros fuel' m ??; [lia|].
  destruct fuel' as [|fuel']; [lia|]. simpl. case_decide; [done|].
  f_equal. apply list_fmap_ext. intros i e He.
  apply list_elem_of_lookup_2, (edges_edge _ _ _ Hwf) in He as [_ Hlt].
  rewrite (IH fuel' e.1) by lia. done.
Qed.

Lemma concat_all_nil {A B} (l : list A) :
  concat ((λ _, @nil B) <$> l) = [].
Proof. induction l; [done|]. csimpl. done. Qed.

Lemma paths_unreachable n fuel :
  ∀ m, ¬ reachable h m n → paths fuel h m n = [].
Proof.
  induction fuel as [|fuel IH]; intros m Hn; [done|]. simpl.
  case_decide as E; [subst; destruct Hn; apply rtc_refl|].
  rewrite <- (concat_all_nil (B:=list (nat * R)) (edges h m)). f_equal.
  apply list_fmap_ext. intros i e He.
  apply list_elem_of_lookup_2, (edges_edge _ _ _ Hwf) in He as [He _].
  rewrite IH; [done|]. intros Hr. apply Hn. by eapply rtc_l.
Qed.

Lemma path_sum_unreachable f m n :
  ¬ reachable h m n → path_sum f h m n = 0.
Proof. intros Hn. unfold path_sum. by rewrite paths_unreachable. Qed.

Lemma path_sum_above f m n : (m < n)%nat → path_sum f h m n = 0.
Proof.
  intros Hlt. apply path_sum_unreachable. intros Hr.
  apply (reachable_le _ _ _ Hwf) in Hr. lia.
Qed.

Lemma path_sum_ext f g m n :
  (∀ L, f L = g L) → path_sum f h m n = path_sum g h m n.
Proof. intros E. unfold path_sum. apply Rsum_ext. intros p _. by rewrite E. Qed.

Lemma path_sum_plus f g m n :
  path_sum (λ L, f L + g L) h m n = path_sum f h m n + path_sum g h m n.
Proof.
  unfold path_sum. rewrite <- Rsum_plus. apply Rsum_ext. intros p _. lra.
Qed.

(** A path is empty or starts with an edge out of [m]. *)
Lemma path_sum_first f m n :
  path_sum f h m n =
  if decide (m = n) then f 0%nat
  else Rsum ((λ e, e.2 * path_sum (f ∘ S) h e.1 n) <$> edges h m).
Proof.
  unfold path_sum at 1. simpl. case_decide as E.
  - csimpl. rewrite Rsum_cons, Rsum_nil. simpl. lra.
  - rewrite Rsum_concat, <- list_fmap_compose. apply Rsum_ext.
    intros e He. apply (edges_edge _ _ _ Hwf) in He as [_ Hlt]. simpl.
    rewrite <- list_fmap_compose. unfold path_sum.
    rewrite (paths_fuel n m (S e.1) e.1) by lia.
    rewrite <- Rsum_scal. apply Rsum_ext. intros p _. simpl. lra.
Qed.

Lemma mult_scal m n c :
  Rsum ((λ e, e.2 * (if decide (e.1 = n) then c else 0)) <$> edges h m) =
  mult h m n * c.
Proof.
  unfold mult. rewrite <- Rsum_scal_r. apply Rsum_ext. intros e _.
  case_decide; lra.
Qed.

(** A path is empty or ends with an edge into [n]. *)
Lemma path_sum_last N m :
  ∀ f n, (m < N)%nat →
    path_sum f h m n =
    (if decide (m = n) then f 0%nat else 0) +
    Rsum ((λ s, mult h s n * path_sum (f ∘ S) h m s) <$> seq 0 N).
Proof.
  induction m as [m IH] using lt_wf_ind. intros f n Hm.
  rewrite path_sum_first. case_decide as E.
  - subst n. rewrite Rsum_zero; [lra|]. intros s _.
    destruct (decide (m < s)%nat).
    + rewrite path_sum_above by done. lra.
    + rewrite mult_zero; [lra | done |]. intros He.
      apply (edge_lt _ _ _ Hwf) in He. lia.
  - set (T := λ s, Rsum ((λ e, e.2 * path_sum ((f ∘ S) ∘ S) h e.1 s)
                           <$> edges h m)).
    assert (∀ s, path_sum (f ∘ S) h m s =
                 (if decide (m = s) then f 1%nat else 0) + T s) as HT.
    { intros s. rewrite path_sum_first. case_decide as Es; [|unfold T; lra].
      subst s. unfold T. rewrite Rsum_zero; [simpl; lra|].
      intros e He. apply (edges_edge _ _ _ Hwf) in He as [_ Hlt].
      rewrite path_sum_above by done. lra. }
    rewrite (Rsum_ext _ (λ s, (if decide (m = s)
                               then (λ s, mult h s n * f 1%nat) s else 0)
                              + mult h s n * T s) (seq 0 N)).
    2:{ intros s _. rewrite HT. case_decide; lra. }
    rewrite Rsum_plus, Rsum_single; [|apply NoDup_seq|apply elem_of_seq; lia].
    rewrite (Rsum_ext _ (λ e, e.2 * (if decide (e.1 = n) then f 1%nat else 0)
       + Rsum ((λ s, mult h s n * (e.2 * path_sum ((f ∘ S) ∘ S) h e.1 s))
                 <$> seq 0 N)) (edges h m)).
    2:{ intros e He. apply (edges_edge _ _ _ Hwf) in He as [_ Hlt].
        rewrite (IH e.1 Hlt (f ∘ S) n) by lia.
        rewrite Rmult_plus_distr_l. f_equal.
        rewrite <- Rsum_scal. apply Rsum_ext. intros s _. lra. }
    rewrite Rsum_plus, mult_scal, Rsum_swap. rewrite Rplus_0_l. f_equal.
    apply Rsum_ext. intros s _. unfold T. rewrite <- Rsum_scal.
    done.
Qed.

End PathSums.

(** ** The backward pass *)

Section BackwardPass.
Import Value Graph Chain.

Variable iter : gset nat → list nat.
Hypothesis iter_perm : iter_ok iter.

Lemma backward_eq fuel root h :
  backward iter fuel root h =
  match build_topo iter fuel h root topo_empty with
  | None => Raise RecursionError h
  | Some s => run_all (reverse (topo s)) (alter (set_grad 1) root h)
  end.
Proof. unfold backward. by destruct (build_topo _ _ _ _ _). Qed.

(** The order in which the closures run. *)
Lemma schedule_facts h root fuel s :
  wf h → build_topo iter fuel h root topo_empty = Some s →
  NoDup (reverse (topo s)) ∧
  (∀ n, n ∈ reverse (topo s) ↔ reachable h root n) ∧
  users_first h (reverse (topo s)) ∧
  ∃ rest, reverse (topo s) = root :: rest.
Proof.
  intros Hwf E.
  destruct (build_topo_root iter iter_perm h root fuel s Hwf E)
    as (Hnd & Hmem & Hpf & (l & Hl) & _).
  split_and!.
  - by rewrite reverse_Permutation.
  - intros n. rewrite elem_of_reverse. apply Hmem.
  - by apply users_first_reverse.
  - exists (reverse l). by rewrite Hl, reverse_snoc.
Qed.

Lemma users_first_same_graph h h' l :
  same_graph h h' → users_first h l → users_first h' l.
Proof.
  intros [_ Hs]. induction l as [|v l IH]; [done|]. simpl.
  intros [Hv Hu]. split; [|by apply IH].
  intros u Hu' He. apply (Hv u Hu'). unfold edge in *.
  by destruct (Hs u) as (_ & <- & _).
Qed.

(** The sum over all nodes up to the root is a sum over the reachable ones. *)
Lemma sum_reachable h root l (a : nat → R) f (n : nat) :
  wf h → NoDup l → (∀ x, x ∈ l ↔ reachable h root x) →
  Rsum ((λ s, a s * path_sum f h root s) <$> seq 0 (S root)) =
  Rsum ((λ s, a s * path_sum f h root s) <$> l).
Proof.
  intros Hwf Hnd Hmem. symmetry. apply Rsum_support.
  - done.
  - apply NoDup_seq.
  - intros x Hx. apply Hmem, (reachable_le _ _ _ Hwf) in Hx.
    apply elem_of_seq. lia.
  - intros x _ Hx. rewrite path_sum_unreachable; [lra | done |].
    intros Hr. by apply Hx, Hmem.
Qed.

(** Started from a gradient that is 1 at the root and 0 at the other
    reachable nodes, the closures accumulate the chain rule. *)
Lemma propagate_chain h root l g :
  wf h → NoDup l → (∀ x, x ∈ l ↔ reachable h root x) → users_first h l →
  (∀ n, n ∈ l → g n = if decide (root = n) then 1 else 0) →
  ∀ n, n ∈ l → propagate h l g n = chain_grad h root n.
Proof.
  intros Hwf Hnd Hmem Hu Hg.
  apply (propagate_unique h l Hwf Hu g).
  - intros n _. by apply propagate_fix.
  - intros n Hn. unfold chain_grad.
    rewrite (path_sum_last h Hwf (S root) root _ n) by lia.
    rewrite (Hg n Hn). f_equal.
    rewrite (sum_reachable h root l (λ s, mult h s n) _ n Hwf Hnd Hmem).
    done.
Qed.

(** Started from the chain-rule gradients, the closures add each path's
    contribution once more for every edge of the path. *)
Lemma propagate_again h root l g :
  wf h → NoDup l → (∀ x, x ∈ l ↔ reachable h root x) → users_first h l →
  (∀ n, n ∈ l → g n = chain_grad h root n) →
  ∀ n, n ∈ l →
    propagate h l g n = path_sum (λ L, 1 + INR L) h root n.
Proof.
  intros Hwf Hnd Hmem Hu Hg.
  apply (propagate_unique h l Hwf Hu g).
  - intros n _. by apply propagate_fix.
  - intros n Hn.
    rewrite (path_sum_last h Hwf (S root) root _ n) by lia.
    rewrite (Hg n Hn). unfold chain_grad.
    rewrite (path_sum_last h Hwf (S root) root (λ _, 1) n) by lia.
    rewrite !(sum_reachable h root l (λ s, mult h s n) _ n Hwf Hnd Hmem).
    rewrite Rplus_assoc, <- Rsum_plus. simpl INR. rewrite Rplus_0_r.
    f_equal. apply Rsum_ext. intros s _.
    rewrite <- Rmult_plus_distr_l. f_equal.
    rewrite <- path_sum_plus. apply path_sum_ext. intros L.
    unfold compose. rewrite S_INR. lra.
Qed.

(** What [backward] leaves when it returns. *)
Lemma backward_returns h root fuel h' :
  wf h → backward iter fuel root h = Ok () h' →
  ∃ s, build_topo iter fuel h root topo_empty = Some s ∧
       same_graph h h' ∧
       (∀ v, reachable h root v → closure_defined h v) ∧
       ∀ n, grad_of h' n =
            propagate h (reverse (topo s))
              (grad_of (alter (set_grad 1) root h)) n.
Proof.
  intros Hwf E. rewrite backward_eq in E.
  destruct (build_topo iter fuel h root topo_empty) as [s|] eqn:Es; [|done].
  exists s. split; [done|].
  pose proof (same_graph_set_grad h 1 root) as Hs0.
  assert (wf (alter (set_grad 1) root h)) as Hwf0 by (by eapply wf_same_graph).
  destruct (schedule_facts h root fuel s Hwf Es) as (_ & Hmem & _ & _).
  pose proof (run_all_returned _ _ _ _ Hwf0 E) as Hdef.
  destruct (run_all_ok _ (reverse (topo s)) Hwf0 Hdef) as (h2 & E2 & Hs2 & Hg2).
  rewrite E in E2. injection E2 as <-. split_and!.
  - by eapply same_graph_trans.
  - intros v Hv. eapply same_graph_closure_defined;
      [by apply same_graph_sym | by apply Hdef, Hmem].
  - intros n. rewrite Hg2. by rewrite (same_graph_propagate _ _ _ _ Hs0).
Qed.

(** [backward] returns when the traversal is allowed deep enough and no
    closure divides by zero. *)
Lemma backward_total h root fuel :
  wf h → (root < fuel)%nat →
  (∀ v, reachable h root v → closure_defined h v) →
  ∃ h', backward iter fuel root h = Ok () h'.
Proof.
  intros Hwf Hfuel Hdef. rewrite backward_eq.
  destruct (build_topo_enough iter iter_perm h root fuel Hwf Hfuel) as [s Es].
  rewrite Es.
  pose proof (same_graph_set_grad h 1 root) as Hs0.
  assert (wf (alter (set_grad 1) root h)) as Hwf0 by (by eapply wf_same_graph).
  destruct (schedule_facts h root fuel s Hwf Es) as (_ & Hmem & _ & _).
  destruct (run_all_ok _ (reverse (topo s)) Hwf0) as (h2 & E2 & _).
  - intros v Hv. eapply same_graph_closure_defined; [done|].
    by apply Hdef, Hmem.
  - by exists h2.
Qed.

(** After [backward] returns on a graph whose reachable gradients were
    zero, every reachable gradient is the chain-rule sum. *)
Lemma backward_chain h root fuel h' :
  wf h → (root < length h)%nat →
  (∀ n, reachable h root n → grad_of h n = 0) →
  backward iter fuel root h = Ok () h' →
  ∀ n, reachable h root n → grad_of h' n = chain_grad h root n.
Proof.
  intros Hwf Hroot Hzero E n Hn.
  destruct (backward_returns h root fuel h' Hwf E) as (s & Es & _ & _ & Hg).
  destruct (schedule_facts h root fuel s Hwf Es) as (Hnd & Hmem & Hu & _).
  rewrite Hg. apply propagate_chain; try done; [|by apply Hmem].
  intros m Hm. rewrite grad_of_set_grad.
  case_decide as E1; case_decide as E2; destruct_and?; subst; try done.
  - exfalso. apply E1. by split.
  - by apply Hzero, Hmem.
Qed.

End BackwardPass.

(** ** Python's power as a real function *)

Section PowerFacts.
Import PyNum.

Lemma Int_part_IZR z : Int_part (IZR z) = z.
Proof. symmetry. apply Int_part_spec. lra. Qed.

Lemma is_integral_IZR z : is_integral (IZR z).
Proof. unfold is_integral. by rewrite Int_part_IZR. Qed.

Lemma pow_total_val x k v : pow x k = PowVal v → pow_total x k = v.
Proof. unfold pow_total. by intros ->. Qed.

Lemma pow_total_zero_exp x : pow_total x 0 = 1.
Proof.
  unfold pow_total, pow. destruct (Req_dec_T 0 0); [done|lra].
Qed.

Lemma pow_total_pos x k : 0 < x → pow_total x k = Rpower x k.
Proof.
  intros Hx. unfold pow_total, pow.
  destruct (Req_dec_T k 0) as [->|_]; [by rewrite Rpower_O|].
  destruct (Req_dec_T x 0); [lra|]. destruct (Rlt_dec 0 x); [done|lra].
Qed.

Lemma pow_total_integral x z : x ≠ 0 → pow_total x (IZR z) = powerRZ x z.
Proof.
  intros Hx. unfold pow_total, pow.
  destruct (Req_dec_T (IZR z) 0) as [E|_].
  { apply eq_IZR_R0 in E. by subst. }
  destruct (Req_dec_T x 0); [done|].
  destruct (Rlt_dec 0 x); [by rewrite powerRZ_Rpower|].
  destruct (is_integral_dec (IZR z)) as [_|Hn].
  - by rewrite Int_part_IZR.
  - destruct Hn. apply is_integral_IZR.
Qed.

Lemma pow_total_nat x n : (0 < n)%nat → pow_total x (INR n) = x ^ n.
Proof.
  intros Hn. destruct (Req_dec_T x 0) as [->|Hx].
  - unfold pow_total, pow.
    destruct (Req_dec_T (INR n) 0) as [E|_].
    { apply (INR_eq n 0) in E. lia. }
    destruct (Req_dec_T 0 0); [|lra].
    destruct (Rlt_dec (INR n) 0) as [Hlt|_].
    { pose proof (pos_INR n). lra. }
    rewrite pow_i; [done|lia].
  - rewrite INR_IZR_INZ, pow_total_integral by done.
    by rewrite <- pow_powerRZ.
Qed.

Lemma derivable_pt_lim_powerRZ b z :
  b ≠ 0 →
  derivable_pt_lim (λ y, powerRZ y z) b (IZR z * powerRZ b (z - 1)).
Proof.
  intros Hb. destruct z as [|p|p].
  - simpl. rewrite Rmult_0_l. apply (derivable_pt_lim_const 1).
  - simpl powerRZ at 1.
    replace (IZR (Z.pos p) * powerRZ b (Z.pos p - 1))
      with (INR (Pos.to_nat p) * b ^ pred (Pos.to_nat p)).
    { apply derivable_pt_lim_pow. }
    rewrite INR_IZR_INZ, positive_nat_Z. f_equal.
    rewrite pow_powerRZ. f_equal. lia.
  - simpl powerRZ at 1.
    set (n := Pos.to_nat p).
    assert (0 < n)%nat as Hn by apply Pos2Nat.is_pos.
    assert (b ^ n ≠ 0) as Hbn by (by apply pow_nonzero).
    apply (derivable_pt_lim_ext (fct_cte 1 / (λ y, y ^ n))%F).
    { intros y. unfold div_fct, fct_cte. lra. }
    replace (IZR (Z.neg p) * powerRZ b (Z.neg p - 1))
      with ((0 * b ^ n - (INR n * b ^ pred n) * fct_cte 1 b) / (b ^ n)²).
    { apply derivable_pt_lim_div;
        [apply derivable_pt_lim_const | apply derivable_pt_lim_pow | done]. }
    replace (Z.neg p - 1)%Z with (- Z.of_nat (S n))%Z by lia.
    rewrite powerRZ_neg', <- pow_powerRZ by done.
    replace (IZR (Z.neg p)) with (- INR n).
    2:{ rewrite INR_IZR_INZ. unfold n. rewrite positive_nat_Z.
        by rewrite <- opp_IZR. }
    unfold fct_cte, Rsqr.
    destruct n as [|m]; [lia|]. simpl pred.
    assert (b ^ m ≠ 0) by (by apply pow_nonzero).
    change (b ^ S (S m)) with (b * (b * b ^ m)).
    change (b ^ S m) with (b * b ^ m).
    generalize (INR (S m)). intros a.
    set (c := b ^ m) in *. clearbody c. field. done.
Qed.

Lemma pow_total_neg_fractional x k :
  x < 0 → ¬ is_integral k → pow_total x k = 0.
Proof.
  intros Hx Hk. unfold pow_total, pow.
  destruct (Req_dec_T k 0) as [->|_].
  { destruct Hk. apply (is_integral_IZR 0). }
  destruct (Req_dec_T x 0); [lra|]. destruct (Rlt_dec 0 x); [lra|].
  by destruct (is_integral_dec k).
Qed.

Lemma pow_total_zero_base k : 0 < k → pow_total 0 k = 0.
Proof.
  intros Hk. unfold pow_total, pow.
  destruct (Req_dec_T k 0); [lra|]. destruct (Req_dec_T 0 0); [|lra].
  destruct (Rlt_dec k 0); [lra|done].
Qed.

(** The derivative of a fractional power at 0, the exponent above 1. *)
Lemma pow_total_deriv_zero k :
  1 < k → ¬ is_integral k → derivable_pt_lim (λ y, pow_total y k) 0 0.
Proof.
  intros Hk Hfrac eps Heps.
  assert (0 < Rpower eps (/ (k - 1))) as Hd by apply exp_pos.
  exists (mkposreal _ Hd). simpl. intros y Hy Hlt.
  rewrite Rplus_0_l, (pow_total_zero_base k) by lra.
  rewrite !Rminus_0_r.
  destruct (Rlt_dec 0 y) as [Hpos|Hneg].
  - rewrite pow_total_pos by done.
    replace k with ((k - 1) + 1) at 1 by lra.
    rewrite Rpower_plus, Rpower_1 by done.
    replace (Rpower y (k - 1) * y / y) with (Rpower y (k - 1)) by (by field).
    rewrite Rabs_pos_eq by (left; apply exp_pos).
    rewrite Rabs_pos_eq in Hlt by lra.
    replace eps with (Rpower (Rpower eps (/ (k - 1))) (k - 1)).
    + apply Rlt_Rpower_l; lra.
    + rewrite Rpower_mult. replace (/ (k - 1) * (k - 1)) with 1 by (field; lra).
      by apply Rpower_1.
  - rewrite pow_total_neg_fractional by (done || lra).
    unfold Rdiv. rewrite Rmult_0_l, Rabs_R0. done.
Qed.

(** The derivative of [fun y => y ** k] at [b], wherever Python computes
    both [b ** k] and [b ** (k - 1)]. *)
Lemma pow_total_deriv b k v p :
  pow b k = PowVal v → pow b (k - 1) = PowVal p →
  derivable_pt_lim (λ y, pow_total y k) b (k * p).
Proof.
  intros Hv Hp. pose proof (pow_total_val _ _ _ Hp) as Hp'. subst p.
  destruct (is_integral_dec k) as [Hint|Hfrac].
  - unfold is_integral in Hint. set (z := Int_part k) in *. rewrite <- Hint.
    rewrite <- Hint in Hv. clear Hint. rewrite <- minus_IZR.
    destruct (Z_lt_le_dec z 1) as [Hz|Hz]; [destruct (Z.eq_dec z 0%Z) as [->|Hz0]|].
    + rewrite Rmult_0_l. apply (derivable_pt_lim_ext (fct_cte 1)).
      * intros y. by rewrite pow_total_zero_exp.
      * apply derivable_pt_lim_const.
    + assert (b ≠ 0) as Hb.
      { intros ->. unfold pow in Hv.
        destruct (Req_dec_T (IZR z) 0) as [E|_].
        { apply eq_IZR_R0 in E. lia. }
        destruct (Req_dec_T 0 0); [|lra].
        destruct (Rlt_dec (IZR z) 0) as [|Hn]; [done|].
        apply Hn. apply IZR_lt. lia. }
      rewrite pow_total_integral by done.
      destruct (Rlt_dec 0 b).
      * apply (derivable_pt_lim_locally_ext (λ y, powerRZ y z) _ b (b / 2) (b + 1));
          [lra | | by apply derivable_pt_lim_powerRZ].
        intros y Hy. rewrite pow_total_integral; [done|lra].
      * apply (derivable_pt_lim_locally_ext (λ y, powerRZ y z) _ b (b - 1) (b / 2));
          [lra | | by apply derivable_pt_lim_powerRZ].
        intros y Hy. rewrite pow_total_integral; [done|lra].
    + assert (∃ n, z = Z.of_nat n ∧ (0 < n)%nat) as (n & -> & Hn).
      { exists (Z.to_nat z). lia. }
      replace (Z.of_nat n - 1)%Z with (Z.of_nat (pred n)) by lia.
      rewrite <- !INR_IZR_INZ.
      apply (derivable_pt_lim_ext (λ y, y ^ n)).
      { intros y. by rewrite pow_total_nat. }
      replace (pow_total b (INR (pred n))) with (b ^ pred n).
      { apply derivable_pt_lim_pow. }
      destruct (pred n) as [|m] eqn:E.
      * simpl. by rewrite pow_total_zero_exp.
      * rewrite pow_total_nat; [done|lia].
  - destruct (total_order_T b 0) as [[Hneg| ->]|Hpos].
    + exfalso. unfold pow in Hv.
      destruct (Req_dec_T k 0) as [->|_].
      { destruct Hfrac. apply (is_integral_IZR 0). }
      destruct (Req_dec_T b 0); [lra|]. destruct (Rlt_dec 0 b); [lra|].
      by destruct (is_integral_dec k).
    + assert (k ≠ 0) as Hk0.
      { intros ->. destruct Hfrac. apply (is_integral_IZR 0). }
      assert (k - 1 ≠ 0) as Hk1.
      { intros E. destruct Hfrac. replace k with 1 by lra.
        apply (is_integral_IZR 1). }
      assert (1 < k) as Hk.
      { unfold pow in Hp. destruct (Req_dec_T (k - 1) 0); [done|].
        destruct (Req_dec_T 0 0); [|lra].
        destruct (Rlt_dec (k - 1) 0); [done|lra]. }
      rewrite pow_total_zero_base, Rmult_0_r by lra.
      by apply pow_total_deriv_zero.
    + rewrite pow_total_pos by done.
      apply (derivable_pt_lim_locally_ext (λ y, Rpower y k) _ b (b / 2) (b + 1));
        [lra | | by apply derivable_pt_lim_power].
      intros y Hy. rewrite pow_total_pos; [done|lra].
Qed.

End PowerFacts.

(** ** The chain-rule sum is a derivative *)

Section Derivative.
Import Value Graph Chain.

Lemma derivable_pt_lim_eq f x l l' :
  l = l' → derivable_pt_lim f x l → derivable_pt_lim f x l'.
Proof. by intros ->. Qed.

Lemma tanh_formula_deriv y :
  derivable_pt_lim PyNum.tanh_formula y
    (1 - PyNum.tanh_formula y * PyNum.tanh_formula y).
Proof.
  unfold PyNum.tanh_formula.
  set (u := Rtrigo_def.exp (2 * y)).
  assert (0 < u) as Hu by apply exp_pos.
  assert (derivable_pt_lim (λ x, Rtrigo_def.exp (2 * x)) y (u * 2)) as Hexp.
  { apply (derivable_pt_lim_comp (λ x, 2 * x) Rtrigo_def.exp).
    - eapply derivable_pt_lim_eq;
        [|apply (derivable_pt_lim_mult (fct_cte 2) id);
          [apply derivable_pt_lim_const | apply derivable_pt_lim_id]].
      unfold id, fct_cte. lra.
    - apply derivable_pt_lim_exp. }
  assert (derivable_pt_lim (λ x, Rtrigo_def.exp (2 * x) - 1) y (u * 2)) as Hn.
  { eapply derivable_pt_lim_eq;
      [|apply (derivable_pt_lim_minus _ (fct_cte 1) _ _ 0 Hexp);
        apply derivable_pt_lim_const].
    lra. }
  assert (derivable_pt_lim (λ x, Rtrigo_def.exp (2 * x) + 1) y (u * 2)) as Hd.
  { eapply derivable_pt_lim_eq;
      [|apply (derivable_pt_lim_plus _ (fct_cte 1) _ _ 0 Hexp);
        apply derivable_pt_lim_const].
    lra. }
  eapply derivable_pt_lim_eq; [|apply (derivable_pt_lim_div _ _ y _ _ Hn Hd)].
  - fold u. unfold Rsqr. field. lra.
  - fold u. lra.
Qed.

Lemma reeval_fuel h n x :
  wf h → ∀ fuel fuel' m, (m < fuel)%nat → (m < fuel')%nat →
    reeval fuel h n x m = reeval fuel' h n x m.
Proof.
  intros Hwf. induction fuel as [|fuel IH]; intros fuel' m ??; [lia|].
  destruct fuel' as [|fuel']; [lia|]. simpl. case_decide; [done|].
  pose proof (Hwf m) as Hm. unfold closure_ok in Hm.
  destruct (backward_of h m); destruct_and?; try done;
    rewrite ?(IH fuel' self), ?(IH fuel' other) by lia; done.
Qed.

(** At [n]'s own value the re-evaluation returns the stored values. *)
Lemma reeval_data h n :
  wf h → consistent h →
  ∀ fuel m, (m < fuel)%nat → reeval fuel h n (data_of h n) m = data_of h m.
Proof.
  intros Hwf Hc. induction fuel as [|fuel IH]; intros m ?; [lia|].
  simpl. case_decide; [by subst|].
  pose proof (Hwf m) as Hm. pose proof (Hc m) as Hv.
  unfold closure_ok in Hm. unfold value_ok in Hv.
  destruct (backward_of h m); destruct_and?; try done;
    rewrite ?(IH self), ?(IH other) by lia; try done.
  - by rewrite (pow_total_val _ _ _ Hv).
  - congruence.
Qed.

Lemma chain_grad_first h m n :
  wf h →
  chain_grad h m n =
  if decide (m = n) then 1
  else Rsum ((λ e, e.2 * chain_grad h e.1 n) <$> edges h m).
Proof. intros Hwf. unfold chain_grad. by rewrite path_sum_first. Qed.

(** The chain-rule sum is the derivative of [m]'s value with respect to
    [n]'s value. *)
Lemma reeval_deriv h n :
  wf h → consistent h →
  ∀ fuel m, (m < fuel)%nat →
    (∀ v, reachable h m v → closure_defined h v) →
    derivable_pt_lim (λ x, reeval fuel h n x m) (data_of h n)
      (chain_grad h m n).
Proof.
  intros Hwf Hc. induction fuel as [|fuel IH]; intros m Hm Hdef; [lia|].
  rewrite chain_grad_first by done. simpl. case_decide as E.
  { apply derivable_pt_lim_id. }
  pose proof (Hwf m) as Hok. pose proof (Hc m) as Hv.
  pose proof (Hdef m (rtc_refl _ _)) as Hd.
  unfold closure_ok in Hok. unfold value_ok in Hv.
  unfold closure_defined in Hd. unfold edges.
  assert (∀ s, s ∈ prev_of h m → (s < fuel)%nat →
    derivable_pt_lim (λ x, reeval fuel h n x s) (data_of h n)
      (chain_grad h s n)) as IHs.
  { intros s Hs Hlt. apply IH; [done|]. intros v Hr. apply Hdef.
    by eapply rtc_l. }
  destruct (backward_of h m) as [|s o out|s o out|s k out|s t0 out|s out];
    csimpl; rewrite ?Rsum_cons, ?Rsum_nil.
  - apply derivable_pt_lim_const.
  - destruct Hok as (_ & Hp & ? & ?).
    eapply derivable_pt_lim_eq;
      [|apply derivable_pt_lim_plus; apply IHs; (by apply Hp; eauto) || lia].
    lra.
  - destruct Hok as (_ & Hp & ? & ?).
    eapply derivable_pt_lim_eq;
      [|apply derivable_pt_lim_mult; apply IHs; (by apply Hp; eauto) || lia].
    cbv beta. rewrite !reeval_data by (done || lia). lra.
  - destruct Hok as (_ & Hp & ?). destruct Hd as [p Hp'].
    eapply derivable_pt_lim_eq;
      [|apply (derivable_pt_lim_comp _ (λ y, PyNum.pow_total y k));
        [apply IHs; (by apply Hp) || lia|]].
    2:{ cbv beta. rewrite reeval_data by (done || lia).
        eapply pow_total_deriv; eauto. }
    rewrite (pow_total_val _ _ _ Hp'). lra.
  - destruct Hok as (_ & Hp & ?). destruct Hv as [-> _].
    eapply derivable_pt_lim_eq;
      [|apply (derivable_pt_lim_comp _ PyNum.tanh_formula);
        [apply IHs; (by apply Hp) || lia|]].
    2:{ cbv beta. rewrite reeval_data by (done || lia). apply tanh_formula_deriv. }
    unfold PyNum.pow_total. rewrite pow_two. lra.
  - destruct Hok as (-> & Hp & ?).
    eapply derivable_pt_lim_eq;
      [|apply (derivable_pt_lim_comp _ Rtrigo_def.exp);
        [apply IHs; (by apply Hp) || lia|]].
    2:{ cbv beta. rewrite reeval_data by (done || lia). apply derivable_pt_lim_exp. }
    rewrite Hv. lra.
Qed.

End Derivative.

(** * The statements of the specification *)

Section Claims.
Import Value Graph Chain Alloc NeuronSpec.

Lemma iter_ok_elements : iter_ok elements.
Proof. intros s. reflexivity. Qed.

Lemma built_one_leaf : built Examples.one_leaf.
Proof. apply built_call; [apply built_empty | done]. Qed.

Lemma built_chain : built Examples.chain.
Proof.
  apply built_call; [apply built_call; [apply built_one_leaf|] |];
    vm_compute; split; lia.
Qed.

Lemma built_product : built Examples.product.
Proof.
  apply built_call; [apply built_call; [apply built_one_leaf|] |];
    vm_compute; try split; lia.
Qed.

Lemma reverse_runs_before (l : list nat) v p :
  (∃ i j, (i < j)%nat ∧ l !! i = Some p ∧ l !! j = Some v) →
  runs_before (reverse l) v p.
Proof.
  intros (i & j & Hij & Hi & Hj).
  pose proof (lookup_lt_Some _ _ _ Hi). pose proof (lookup_lt_Some _ _ _ Hj).
  exists (length l - S j)%nat, (length l - S i)%nat. split_and!.
  - lia.
  - rewrite reverse_lookup by lia.
    by replace (length l - S (length l - S j))%nat with j by lia.
  - rewrite reverse_lookup by lia.
    by replace (length l - S (length l - S i))%nat with i by lia.
Qed.



(** C9. A node with no path to the root is not visited by the traversal
    and its [grad] is the same after [backward root] as before, whether the
    call returns or raises. *)
Theorem backward_frame (iter : gset nat → list nat) (h : heap)
    (root fuel n : nat) :
  iter_ok iter → built h → ¬ reachable h root n →
  (∀ s, build_topo iter fuel h root topo_empty = Some s →
        (n ∉ visited s) ∧ (n ∉ topo s)) ∧
  grad_of (final_heap (backward iter fuel root h)) n = grad_of h n.
Proof.
  intros Hiter Hb Hn. apply built_good in Hb as [Hwf _].
  assert (∀ s, build_topo iter fuel h root topo_empty = Some s →
               (n ∉ visited s) ∧ (n ∉ topo s)) as Hvis.
  { intros s Es.
    destruct (build_topo_root iter Hiter h root fuel s Hwf Es)
      as (_ & Hmem & _ & _ & Hv).
    assert (n ∉ topo s) by (intros Hx; by apply Hn, Hmem).
    split; [|done]. rewrite Hv. by rewrite elem_of_list_to_set. }
  split; [done|]. rewrite backward_eq.
  destruct (build_topo iter fuel h root topo_empty) as [s|] eqn:Es; [|done].
  destruct (build_topo_root iter Hiter h root fuel s Hwf Es)
    as (_ & Hmem & _ & _ & _).
  pose proof (same_graph_set_grad h 1 root) as Hs0.
  assert (wf (alter (set_grad 1) root h)) as Hwf0 by (by eapply wf_same_graph).
  destruct (run_all_frame _ (reverse (topo s)) Hwf0) as [_ Hframe].
  rewrite Hframe.
  - rewrite grad_of_set_grad. case_decide as E; [|done].
    destruct E as [-> _]. destruct Hn. apply rtc_refl.
  - intros v Hv He. apply Hn. apply elem_of_reverse, Hmem in Hv.
    eapply rtc_r; [done|]. unfold edge in *.
    destruct Hs0 as [_ Hs0]. by destruct (Hs0 v) as (_ & <- & _).
Qed.

Lemma backward_frame_witness :
  grad_of (final_heap (backward elements 3 0 Examples.product)) 1 =
  grad_of Examples.product 1.
Proof.
  apply (backward_frame elements Examples.product 0 3 1
           iter_ok_elements built_product).
  intros Hr. inversion Hr as [|? y ? He _]; subst.
  vm_compute in He. discriminate.
Defined.

Lemma iter_singleton (iter : gset nat → list nat) (a : nat) (s : gset nat) :
  iter_ok iter → (∀ x, x ∈ s ↔ x = a) → iter s = [a].
Proof.
  intros Hiter Hs. assert (s = {[a]}) as -> by set_solver.
  apply Permutation_singleton_r. by rewrite (Hiter {[a]}), elements_singleton.
Qed.

Lemma edges_operands h v x :
  wf h → x ∈ prev_of h v ↔ x ∈ (fst <$> edges h v).
Proof.
  intros Hwf. specialize (Hwf v). unfold closure_ok, edges in *.
  destruct (backward_of h v); csimpl.
  - rewrite Hwf. set_solver.
  - destruct Hwf as (_ & -> & _). set_solver.
  - destruct Hwf as (_ & -> & _). set_solver.
  - destruct Hwf as (_ & -> & _). set_solver.
  - destruct Hwf as (_ & -> & _). set_solver.
  - destruct Hwf as (_ & -> & _). set_solver.
Qed.

(** C4. The predecessor set of a node holds every operand of the operation
    that produced it once, however often the operation uses it: iterating
    over the set meets no node twice, and meets exactly the operands.  For
    [a + b] and [a * b] on nodes the set is [{a, b}], and for [a * a]
    (and [a + a]) iterating over it yields [a] alone. *)
Theorem no_duplicate_predecessors (iter : gset nat → list nat) (h : heap) :
  iter_ok iter → built h →
  (∀ v, NoDup (iter (prev_of h v)) ∧
        ∀ x, x ∈ iter (prev_of h v) ↔ x ∈ (fst <$> edges h v)) ∧
  ∀ a b,
    (∃ out h', __mul__ a (PyValue b) h = Ok out h' ∧
       (∀ x, x ∈ prev_of h' out ↔ x = a ∨ x = b) ∧
       (a = b → iter (prev_of h' out) = [a])) ∧
    (∃ out h', __add__ a (PyValue b) h = Ok out h' ∧
       (∀ x, x ∈ prev_of h' out ↔ x = a ∨ x = b) ∧
       (a = b → iter (prev_of h' out) = [a])).
Proof.
  intros Hiter Hb. apply built_good in Hb as [Hwf _]. split.
  - intros v. split.
    + rewrite (Hiter _). apply NoDup_elements.
    + intros x. rewrite (Hiter _), elem_of_elements. by apply edges_operands.
  - intros a b.
    assert (∀ n : t, _prev n = list_to_set [a; b] →
      (∀ x, x ∈ prev_of (h ++ [n]) (length h) ↔ x = a ∨ x = b) ∧
      (a = b → iter (prev_of (h ++ [n]) (length h)) = [a])) as Hn.
    { intros n Hp. rewrite prev_of_alloc, decide_True by done. rewrite Hp.
      split; [set_solver|]. intros <-.
      apply iter_singleton; [done | set_solver]. }
    split.
    + exists (length h), (h ++ [mul_node h a b]).
      split; [apply mul_value | by apply Hn].
    + exists (length h), (h ++ [add_node h a b]).
      split; [apply add_value | by apply Hn].
Qed.

Lemma no_duplicate_predecessors_witness :
  ∃ out h', __mul__ 0 (PyValue 0) Examples.one_leaf = Ok out h' ∧
            elements (prev_of h' out) = [0%nat].
Proof.
  destruct (no_duplicate_predecessors elements Examples.one_leaf
              iter_ok_elements built_one_leaf) as [_ H].
  destruct (H 0%nat 0%nat) as [(out & h' & E & _ & Hone) _].
  exists out, h'. split; [done | by apply Hone].
Defined.

(** C3. For a node [a] whose [grad] is zero, [backward] on [a * a] leaves
    [a.grad] equal to [2 * a.value]: both uses of [a] contribute, although
    the predecessor set of the product holds [a] once. *)
Theorem square_gradient (iter : gset nat → list nat) (h : heap)
    (a fuel : nat) :
  iter_ok iter → built h → (a < length h)%nat → grad_of h a = 0 →
  ∃ out h1,
    __mul__ a (PyValue a) h = Ok out h1 ∧
    ((out < fuel)%nat →
     grad_of (final_heap (backward iter fuel out h1)) a = 2 * data_of h1 a).
Proof.
  intros Hiter Hb Ha Hzero. apply built_good in Hb as Hg.
  exists (length h), (h ++ [mul_node h a a]). split; [apply mul_value|].
  intros Hfuel. set (out := length h). set (h1 := h ++ [mul_node h a a]).
  assert (good h1) as [Hwf1 _] by (by apply good_mul_node).
  assert (backward_of h1 out = BMul a a out) as Hclo.
  { unfold h1. by rewrite backward_of_alloc, decide_True. }
  destruct (build_topo_enough iter Hiter h1 out fuel Hwf1 Hfuel) as [s Es].
  destruct (schedule_facts iter Hiter h1 out fuel s Hwf1 Es)
    as (Hnd & Hmem & _ & rest & Hrest).
  rewrite backward_eq, Es, Hrest.
  set (h0 := alter (set_grad 1) out h1).
  pose proof (same_graph_set_grad h1 1 out) as Hs0. fold h0 in Hs0.
  assert (wf h0) as Hwf0 by (by eapply wf_same_graph).
  assert (backward_of h0 out = BMul a a out) as Hclo0.
  { destruct Hs0 as [_ Hs0]. destruct (Hs0 out) as (_ & _ & ->). done. }
  simpl. unfold mbind, M_bind, bind, get.
  destruct (run_closure_cases h0 out Hwf0)
    as [(_ & h2 & E2 & Hs2 & Hg2)|(Hnd' & _)].
  2:{ destruct Hnd'. unfold closure_defined. by rewrite Hclo0. }
  rewrite E2.
  assert (wf h2) as Hwf2 by (by eapply wf_same_graph).
  destruct (run_all_frame h2 rest Hwf2) as [_ Hframe].
  rewrite Hframe.
  - rewrite Hg2. unfold mult, edges. rewrite Hclo0. csimpl.
    rewrite !Rsum_cons, Rsum_nil, !decide_True by done.
    unfold h0. rewrite !grad_of_set_grad, !data_of_set_grad.
    rewrite decide_False by lia.
    rewrite decide_True by (unfold h1; rewrite length_app; simpl; lia).
    unfold h1. rewrite grad_of_alloc, data_of_alloc, decide_False by lia.
    rewrite Hzero. lra.
  - intros v Hv He.
    assert (v ∈ out :: rest) as Hv' by (by right).
    rewrite <- Hrest in Hv'. apply Hmem in Hv'.
    assert (v ≠ out) as Hne.
    { intros ->. rewrite Hrest in Hnd. by apply NoDup_cons in Hnd as [? _]. }
    assert (edge h1 v a) as He1.
    { unfold edge in *. destruct Hs0 as [_ Hs0], Hs2 as [_ Hs2].
      destruct (Hs0 v) as (_ & <- & _). by destruct (Hs2 v) as (_ & <- & _). }
    apply (edge_lt _ _ _ Hwf1) in He1.
    inversion Hv' as [|? c ? Hc Hr]; subst; [done|].
    assert (c = a) as ->.
    { pose proof (Hwf1 out) as Hok. unfold closure_ok in Hok.
      rewrite Hclo in Hok. destruct Hok as (_ & Hp & _).
      apply Hp in Hc. by destruct Hc. }
    apply (reachable_le _ _ _ Hwf1) in Hr. lia.
Qed.

Lemma square_gradient_witness :
  ∃ out h1,
    __mul__ 0 (PyValue 0) Examples.one_leaf = Ok out h1 ∧
    grad_of (final_heap (backward elements 2 out h1)) 0 = 2 * 3.
Proof.
  destruct (square_gradient elements Examples.one_leaf 0 2
              iter_ok_elements built_one_leaf)
    as (out & h1 & E & Hg); [vm_compute; lia | reflexivity |].
  exists out, h1. split; [done|].
  vm_compute in E. injection E as <- <-. by apply Hg; lia.
Defined.



Lemma build_topo_same_graph iter h h' fuel :
  same_graph h h' →
  ∀ v s, build_topo iter fuel h' v s = build_topo iter fuel h v s.
Proof.
  intros [_ Hs]. induction fuel as [|fuel IH]; intros v s; [done|]. simpl.
  case_decide; [done|]. destruct (Hs v) as (_ & -> & _).
  assert (∀ cs acc,
    foldl (λ acc child, acc ≫= build_topo iter fuel h' child) acc cs =
    foldl (λ acc child, acc ≫= build_topo iter fuel h child) acc cs) as ->.
  { induction cs as [|c cs IHcs]; intros acc; [done|]. simpl.
    rewrite IHcs. f_equal. destruct acc; simpl; [apply IH|done]. }
  done.
Qed.

Lemma reachable_same_graph h h' root n :
  same_graph h h' → reachable h root n → reachable h' root n.
Proof.
  intros [_ Hs]. induction 1 as [|a b c Hab _ IH]; [apply rtc_refl|].
  eapply rtc_l; [|done]. unfold edge in *.
  by destruct (Hs a) as (_ & -> & _).
Qed.

Lemma chain_grad_root h root : wf h → chain_grad h root root = 1.
Proof.
  intros Hwf. unfold chain_grad. rewrite path_sum_first by done.
  by rewrite decide_True.
Qed.

(** A node whose only reachable consumer is the root. *)
Lemma path_sum_direct h root n f :
  wf h → n ≠ root →
  (∀ s, reachable h root s → edge h s n → s = root) →
  path_sum f h root n = mult h root n * f 1%nat.
Proof.
  intros Hwf Hne Honly.
  rewrite (path_sum_last h Hwf (S root) root f n) by lia.
  rewrite decide_False by done. rewrite Rplus_0_l.
  rewrite (Rsum_ext _ (λ s, if decide (root = s)
                            then (λ s, mult h s n * f 1%nat) s else 0)).
  - rewrite Rsum_single; [done | apply NoDup_seq | apply elem_of_seq; lia].
  - intros s _. case_decide as E.
    + subst s. rewrite path_sum_first by done. by rewrite decide_True.
    + destruct (decide (n ∈ prev_of h s)) as [He|He].
      * rewrite path_sum_unreachable; [lra | done |].
        intros Hr. apply E. symmetry. by apply Honly.
      * rewrite mult_zero by done. lra.
Qed.




Lemma pow_zero_neg k : k < 0 → PyNum.pow 0 k = PyNum.PowZeroDivision.
Proof.
  intros Hk. unfold PyNum.pow.
  destruct (Req_dec_T k 0); [lra|]. destruct (Req_dec_T 0 0); [|lra].
  destruct (Rlt_dec k 0); [done|lra].
Qed.

Lemma pow_minus_one r : r ≠ 0 → PyNum.pow r (-1) = PyNum.PowVal (/ r).
Proof.
  intros Hr. unfold PyNum.pow.
  destruct (Req_dec_T (-1) 0); [lra|]. destruct (Req_dec_T r 0); [done|].
  destruct (Rlt_dec 0 r).
  - f_equal. replace (-1) with (- (1)) by lra.
    by rewrite Rpower_Ropp, Rpower_1.
  - destruct (PyNum.is_integral_dec (-1)) as [_|Hn].
    + rewrite (Int_part_IZR (-1)). f_equal. simpl. f_equal. lra.
    + destruct Hn. apply (is_integral_IZR (-1)).
Qed.

Lemma data_zero_leaf : data_of Examples.zero_leaf 0 = 0.
Proof. reflexivity. Qed.




Lemma bind_ok {A B} (m : M A) (k : A → M B) h a h' :
  m h = Ok a h' → (m ≫= k) h = k a h'.
Proof. intros E. unfold mbind, M_bind, bind. by rewrite E. Qed.

Lemma bind_raise {A B} (m : M A) (k : A → M B) h e h' :
  m h = Raise e h' → (m ≫= k) h = Raise e h'.
Proof. intros E. unfold mbind, M_bind, bind. by rewrite E. Qed.

Lemma bind_ok_ret {A B} (m : M A) (f : A → B) h a h' :
  m h = Ok a h' → (v ← m; ret (f v)) h = Ok (f a) h'.
Proof. intros E. unfold mbind, M_bind, bind. by rewrite E. Qed.

Lemma py_add_number_left c a r :
  num_val c = Some r →
  py_add c (PyValue a) = (v ← __add__ a c; ret (PyValue v)).
Proof. by destruct c. Qed.

Lemma py_mul_number_left c a r :
  num_val c = Some r →
  py_mul c (PyValue a) = (v ← __mul__ a c; ret (PyValue v)).
Proof. by destruct c. Qed.

Lemma add_promoted a c r h :
  num_val c = Some r →
  __add__ a c h = Ok (S (length h)) (promoted h r add_node a).
Proof.
  intros Hc. rewrite (add_number _ _ _ _ Hc), add_value.
  unfold promoted. rewrite length_app, <- app_assoc. simpl.
  by replace (length h + 1)%nat with (S (length h)) by lia.
Qed.

Lemma mul_promoted a c r h :
  num_val c = Some r →
  __mul__ a c h = Ok (S (length h)) (promoted h r mul_node a).
Proof.
  intros Hc. rewrite (mul_number _ _ _ _ Hc), mul_value.
  unfold promoted. rewrite length_app, <- app_assoc. simpl.
  by replace (length h + 1)%nat with (S (length h)) by lia.
Qed.




Lemma data_of_app_l h l v : (v < length h)%nat → data_of (h ++ l) v = data_of h v.
Proof. intros Hv. unfold data_of. by rewrite lookup_app_l. Qed.

Lemma obj_val_app h l o : operand_ok h o → obj_val (h ++ l) o = obj_val h o.
Proof. destruct o; simpl; try done. apply data_of_app_l. Qed.

Lemma input_ok_app h l o : input_ok h o → input_ok (h ++ l) o.
Proof.
  intros [Hn Ho]. split; [done|]. destruct o; simpl in *; try done.
  rewrite length_app. lia.
Qed.

Lemma weighted_sum_app h l wx :
  Forall (λ p, (p.1 < length h)%nat ∧ input_ok h p.2) wx →
  weighted_sum (h ++ l) wx = weighted_sum h wx.
Proof.
  intros Hwx. unfold weighted_sum. apply Rsum_ext. intros p Hp.
  rewrite Forall_forall in Hwx. destruct (Hwx p Hp) as [H1 [_ H2]].
  by rewrite data_of_app_l, obj_val_app.
Qed.

(** What [a op x] allocates and computes, for [op] one of [+] and [*]. *)
Lemma mul_spec h a x :
  good h → (a < length h)%nat → input_ok h x →
  ∃ l p, __mul__ a x h = Ok p (h ++ l) ∧ good (h ++ l) ∧
         (p < length (h ++ l))%nat ∧
         data_of (h ++ l) p = data_of h a * obj_val h x.
Proof.
  intros Hg Ha [Hn Hx]. destruct (num_val x) as [r|] eqn:E.
  - exists [leaf r ""; mul_node (h ++ [leaf r ""]) a (length h)], (S (length h)).
    assert (good (h ++ [leaf r ""])) as Hg1 by (by apply good_leaf).
    split_and!.
    + rewrite (mul_number _ _ _ _ E), mul_value, length_app, <- app_assoc.
      simpl. by replace (length h + 1)%nat with (S (length h)) by lia.
    + replace (h ++ [leaf r ""; mul_node (h ++ [leaf r ""]) a (length h)])
        with ((h ++ [leaf r ""]) ++ [mul_node (h ++ [leaf r ""]) a (length h)])
        by (by rewrite <- app_assoc).
      apply good_mul_node; [done | | ]; rewrite length_app; simpl; lia.
    + rewrite length_app. simpl. lia.
    + replace (h ++ [leaf r ""; mul_node (h ++ [leaf r ""]) a (length h)])
        with ((h ++ [leaf r ""]) ++ [mul_node (h ++ [leaf r ""]) a (length h)])
        by (by rewrite <- app_assoc).
      rewrite data_of_alloc, decide_True by (rewrite length_app; simpl; lia).
      simpl. rewrite !data_of_alloc, decide_False, decide_True by lia.
      simpl. by destruct x; simpl in *; simplify_eq.
  - destruct x as [| |v|]; try done. simpl in Hx.
    exists [mul_node h a v], (length h). split_and!.
    + apply mul_value.
    + by apply good_mul_node.
    + rewrite length_app. simpl. lia.
    + by rewrite data_of_alloc, decide_True.
Qed.

Lemma add_spec h a x :
  good h → (a < length h)%nat → input_ok h x →
  ∃ l p, __add__ a x h = Ok p (h ++ l) ∧ good (h ++ l) ∧
         (p < length (h ++ l))%nat ∧
         data_of (h ++ l) p = data_of h a + obj_val h x.
Proof.
  intros Hg Ha [Hn Hx]. destruct (num_val x) as [r|] eqn:E.
  - exists [leaf r ""; add_node (h ++ [leaf r ""]) a (length h)], (S (length h)).
    assert (good (h ++ [leaf r ""])) as Hg1 by (by apply good_leaf).
    split_and!.
    + rewrite (add_number _ _ _ _ E), add_value, length_app, <- app_assoc.
      simpl. by replace (length h + 1)%nat with (S (length h)) by lia.
    + replace (h ++ [leaf r ""; add_node (h ++ [leaf r ""]) a (length h)])
        with ((h ++ [leaf r ""]) ++ [add_node (h ++ [leaf r ""]) a (length h)])
        by (by rewrite <- app_assoc).
      apply good_add_node; [done | | ]; rewrite length_app; simpl; lia.
    + rewrite length_app. simpl. lia.
    + replace (h ++ [leaf r ""; add_node (h ++ [leaf r ""]) a (length h)])
        with ((h ++ [leaf r ""]) ++ [add_node (h ++ [leaf r ""]) a (length h)])
        by (by rewrite <- app_assoc).
      rewrite data_of_alloc, decide_True by (rewrite length_app; simpl; lia).
      simpl. rewrite !data_of_alloc, decide_False, decide_True by lia.
      simpl. by destruct x; simpl in *; simplify_eq.
  - destruct x as [| |v|]; try done. simpl in Hx.
    exists [add_node h a v], (length h). split_and!.
    + apply add_value.
    + by apply good_add_node.
    + rewrite length_app. simpl. lia.
    + by rewrite data_of_alloc, decide_True.
Qed.

Lemma py_add_acc h acc p :
  good h → acc_ok h acc → (p < length h)%nat →
  ∃ l a, py_add acc (PyValue p) h = Ok (PyValue a) (h ++ l) ∧
         good (h ++ l) ∧ (a < length (h ++ l))%nat ∧
         data_of (h ++ l) a = obj_val h acc + data_of h p.
Proof.
  intros Hg [->|(a & -> & Ha)] Hp.
  - destruct (add_spec h p (PyInt 0) Hg Hp) as (l & q & E & Hg' & Hq & Hd);
      [done|].
    exists l, q. split_and!; try done.
    + unfold py_add, __radd__. by rewrite (bind_ok _ _ _ _ _ E).
    + rewrite Hd. simpl. lra.
  - destruct (add_spec h a (PyValue p) Hg Ha) as (l & q & E & Hg' & Hq & Hd);
      [done|].
    exists l, q. split_and!; try done.
    unfold py_add. by rewrite (bind_ok _ _ _ _ _ E).
Qed.

Lemma sum_products_spec wx :
  ∀ h acc,
    good h → Forall (λ p, (p.1 < length h)%nat ∧ input_ok h p.2) wx →
    acc_ok h acc →
    ∃ l acc', Neuron.sum_products acc wx h = Ok acc' (h ++ l) ∧
              good (h ++ l) ∧ acc_ok (h ++ l) acc' ∧
              obj_val (h ++ l) acc' = obj_val h acc + weighted_sum h wx.
Proof.
  induction wx as [|[w1 x1] wx IH]; intros h acc Hg Hwx Hacc.
  - exists [], acc. rewrite app_nil_r. split_and!; try done.
    unfold weighted_sum. csimpl. rewrite Rsum_nil. lra.
  - apply Forall_cons in Hwx as [[Hw1 Hx1] Hwx]. simpl in Hw1, Hx1.
    destruct (mul_spec h w1 x1 Hg Hw1 Hx1) as (l1 & p & E1 & Hg1 & Hp & Hd1).
    assert (acc_ok (h ++ l1) acc) as Hacc1.
    { destruct Hacc as [->|(a & -> & Ha)]; [by left|right].
      exists a. split; [done|]. rewrite length_app. lia. }
    destruct (py_add_acc (h ++ l1) acc p Hg1 Hacc1 Hp)
      as (l2 & a & E2 & Hg2 & Ha & Hd2).
    destruct (IH ((h ++ l1) ++ l2) (PyValue a) Hg2)
      as (l3 & acc' & E3 & Hg3 & Hacc3 & Hd3).
    { eapply Forall_impl; [exact Hwx|]. intros q [Hq1 Hq2]. split.
      - rewrite !length_app. lia.
      - by do 2 apply input_ok_app. }
    { right. by exists a. }
    exists (l1 ++ l2 ++ l3), acc'. rewrite !app_assoc. split_and!; try done.
    + simpl. rewrite (bind_ok _ _ _ _ _ E1), (bind_ok _ _ _ _ _ E2). done.
    + rewrite Hd3. simpl. rewrite Hd2, Hd1.
      rewrite <- app_assoc, (weighted_sum_app h (l1 ++ l2)) by done.
      unfold weighted_sum. csimpl. rewrite Rsum_cons.
      assert (obj_val (h ++ l1) acc = obj_val h acc) as ->.
      { destruct Hacc as [->|(a0 & -> & Ha0)]; [done|].
        simpl. by apply data_of_app_l. }
      lra.
Qed.

Lemma zip_ok h (ws : list nat) (x : list pyobj) :
  Forall (λ v, (v < length h)%nat) ws → Forall (input_ok h) x →
  Forall (λ p, (p.1 < length h)%nat ∧ input_ok h p.2) (zip ws x).
Proof.
  intros Hw. revert x. induction Hw as [|v ws Hv Hws IH]; intros x Hx.
  - by apply Forall_nil.
  - destruct Hx as [|o x Ho Hx]; [by apply Forall_nil|].
    simpl. apply Forall_cons. split; [done|]. by apply IH.
Qed.

(** Applying a neuron returns, whatever the length of the input. *)
Lemma neuron_call_spec h n x :
  good h → neuron_ok h n → Forall (input_ok h) x →
  ∃ l out, Neuron.__call__ n x h = Ok out (h ++ l) ∧ good (h ++ l) ∧
           (out < length (h ++ l))%nat ∧
           data_of (h ++ l) out =
           PyNum.tanh_formula
             (weighted_sum h (zip (Neuron.w n) x) + data_of h (Neuron.b n)).
Proof.
  intros Hg [Hw Hb] Hx.
  destruct (sum_products_spec (zip (Neuron.w n) x) h (PyInt 0) Hg)
    as (l1 & acc & E1 & Hg1 & Hacc & Hd1);
    [by apply zip_ok | by left |].
  destruct (py_add_acc (h ++ l1) acc (Neuron.b n) Hg1 Hacc)
    as (l2 & a & E2 & Hg2 & Ha & Hd2).
  { rewrite length_app. lia. }
  exists (l1 ++ l2 ++ [tanh_node ((h ++ l1) ++ l2) a]),
         (length ((h ++ l1) ++ l2)).
  rewrite !app_assoc. split_and!.
  - unfold Neuron.__call__.
    rewrite (bind_ok _ _ _ _ _ E1), (bind_ok _ _ _ _ _ E2). apply tanh_eq.
  - by apply good_tanh_node.
  - rewrite (length_app _ [_]). simpl. lia.
  - rewrite data_of_alloc, decide_True by done. simpl.
    rewrite Hd2, Hd1, data_of_app_l by done. simpl. f_equal. lra.
Qed.

Lemma neuron_ok_app h l n : neuron_ok h n → neuron_ok (h ++ l) n.
Proof.
  intros [Hw Hb]. split.
  - eapply Forall_impl; [exact Hw|]. intros v Hv. simpl in *.
    rewrite length_app. lia.
  - rewrite length_app. lia.
Qed.

Lemma apply_all_spec ns x :
  ∀ h, good h → Forall (neuron_ok h) ns → Forall (input_ok h) x →
       ∃ l outs, Layer.apply_all ns x h = Ok outs (h ++ l) ∧ good (h ++ l) ∧
                 length outs = length ns.
Proof.
  induction ns as [|n ns IH]; intros h Hg Hns Hx.
  - exists [], []. rewrite app_nil_r. by split_and!.
  - apply Forall_cons in Hns as [Hn Hns].
    destruct (neuron_call_spec h n x Hg Hn Hx) as (l1 & o & E1 & Hg1 & _ & _).
    destruct (IH (h ++ l1) Hg1) as (l2 & os & E2 & Hg2 & Hlen).
    { eapply Forall_impl; [exact Hns|]. intros. by apply neuron_ok_app. }
    { eapply Forall_impl; [exact Hx|]. intros. by apply input_ok_app. }
    exists (l1 ++ l2), (o :: os). rewrite app_assoc. split_and!; try done.
    + simpl. rewrite (bind_ok _ _ _ _ _ E1), (bind_ok _ _ _ _ _ E2). done.
    + simpl. by rewrite Hlen.
Qed.

Lemma built_three_leaves : built three_leaves.
Proof. repeat (apply built_call; [|done]). apply built_empty. Qed.




(** C8, as the code has it.  In exact real arithmetic the value of the node
    that [tanh] returns lies strictly between -1 and 1.  On binary64 the
    bounds are reached: at -400.0 the exponential underflows to 0.0 and the
    formula gives exactly -1.0, and at 400.0 [math.exp] raises
    [OverflowError]. *)
Theorem tanh_range_exact (h : heap) (self : nat) :
  (∃ out h', tanh self h = Ok out h' ∧ -1 < data_of h' out < 1) ∧
  Binary64.tanh_value (-400)%float = Binary64.TanhVal (-1)%float ∧
  Binary64.tanh_value 400%float = Binary64.TanhOverflowError.
Proof.
  split; [|split; reflexivity].
  exists (length h), (h ++ [tanh_node h self]). split; [apply tanh_eq|].
  rewrite data_of_alloc, decide_True by done. simpl.
  unfold PyNum.tanh_formula.
  pose proof (exp_pos (2 * data_of h self)) as Hpos.
  set (u := Rtrigo_def.exp (2 * data_of h self)) in *.
  split.
  - apply (Rmult_lt_reg_r (u + 1)); [lra|]. unfold Rdiv.
    rewrite Rmult_assoc, Rinv_l by lra. lra.
  - apply (Rmult_lt_reg_r (u + 1)); [lra|]. unfold Rdiv.
    rewrite Rmult_assoc, Rinv_l by lra. lra.
Qed.

(** The claim as stated fails on binary64 at [a.value = -400.0]: the value
    of the tanh node is -1.0, which is not greater than -1. *)
Lemma tanh_saturation_counterexample :
  Binary64.tanh_value (-400)%float = Binary64.TanhVal (-1)%float ∧
  ((-1) <? (-1))%float = false.
Proof. split; reflexivity. Qed.

End Claims.

(** * Further properties of the code

    What the operators, [backward], the constructors, the forward pass and
    the trainer do beyond the statements above, each read off the source. *)

(** ** Facts about the small graphs and models *)

Section Instances.
Import Value Graph Chain Alloc NeuronSpec.

Lemma wf_three_leaves : wf three_leaves.
Proof. apply built_good, built_three_leaves. Qed.

Lemma params_three_leaves :
  MLPSpec.params_ok three_leaves [0; 1; 2]%nat.
Proof.
  unfold MLPSpec.params_ok.
  repeat (apply Forall_cons_2; [split; [vm_compute; lia | reflexivity]|]).
  apply Forall_nil_2.
Qed.

Lemma refs_three_leaves :
  Forall (λ p, (p < length three_leaves)%nat) [0; 1; 2]%nat.
Proof.
  repeat (apply Forall_cons_2; [vm_compute; lia|]). apply Forall_nil_2.
Qed.

Lemma NoDup_012 : NoDup [0; 1; 2]%nat.
Proof.
  repeat (apply NoDup_cons_2; [set_solver|]). apply NoDup_nil_2.
Qed.

Lemma numbers_inputs : Forall (Forall MLPSpec.is_number) Samples.inputs.
Proof.
  apply Forall_cons_2; [|apply Forall_nil_2].
  repeat (apply Forall_cons_2; [by eexists|]). apply Forall_nil_2.
Qed.

Lemma numbers_targets : Forall MLPSpec.is_number Samples.targets.
Proof. apply Forall_cons_2; [by eexists | apply Forall_nil_2]. Qed.

Lemma inputs_three_leaves :
  Forall (input_ok three_leaves) [PyFloat 1; PyFloat 2].
Proof. repeat (apply Forall_cons_2; [by split|]). apply Forall_nil_2. Qed.

Lemma scalar_one_neuron :
  MLPSpec.scalar_output (MLP.layers Samples.one_neuron).
Proof. eexists. split; reflexivity. Qed.

Lemma built_graded_product : built Samples.graded_product.
Proof. apply built_grad, built_product. Qed.

End Instances.

(** Reading a heap that ends with freshly allocated nodes. *)
Ltac heap_acc :=
  rewrite ?prev_of_alloc, ?backward_of_alloc, ?data_of_alloc, ?grad_of_alloc,
    ?length_app; simpl length; simpl Value._prev; simpl Value._backward;
  simpl Value.data; simpl Value.grad; repeat case_decide; try lia.

(** ** The operators only append *)

Section OperatorsAppend.
Import Value Graph Chain Alloc NeuronSpec.
Import Fresh.

Lemma appended_intro h c out h' l :
  run_call c h = Ok out h' → h' = h ++ l → Forall (λ n, grad n = 0) l →
  S out = length h' → l ≠ [] → appended h c.
Proof.
  intros E -> Hl Ho Hne. exists l. rewrite E. split_and!; try done.
  intros out' h' [= <- <-]. split; [done|].
  rewrite length_app. destruct l; [done|simpl; lia].
Qed.

Lemma appended_raise h c e :
  run_call c h = Raise e h → appended h c.
Proof.
  intros E. exists []. rewrite E, app_nil_r. split_and!; try done.
Qed.

Lemma pow_node_cases self k h :
  (∃ d, PyNum.pow (data_of h self) k = PyNum.PowVal d ∧
        pow_node self k h = Ok (length h) (h ++ [pow_node_of h self k d])) ∨
  (∃ e, pow_node self k h = Raise e h).
Proof.
  destruct (PyNum.pow (data_of h self) k) as [d| |] eqn:E.
  - left. exists d. split; [done|]. by apply pow_node_val.
  - right. eexists. by apply pow_node_zero_division.
  - right. eexists. by apply pow_node_complex.
Qed.

Lemma neg_eq a h :
  __neg__ a h = Ok (S (length h)) (promoted h (-1) mul_node a).
Proof. by apply (mul_promoted a (PyInt (-1))). Qed.

Lemma length_promoted h r node a :
  length (promoted h r node a) = S (S (length h)).
Proof. unfold promoted. rewrite length_app. simpl. lia. Qed.

(** [a - b] on two nodes allocates [-1], [b * -1] and the sum. *)
Lemma sub_value a b h :
  __sub__ a (PyValue b) h =
  Ok (S (S (length h)))
     (promoted h (-1) mul_node b
      ++ [add_node (promoted h (-1) mul_node b) a (S (length h))]).
Proof.
  unfold __sub__, py_neg.
  rewrite (bind_ok _ _ h (PyValue (S (length h)))
             (promoted h (-1) mul_node b)).
  - by rewrite add_value, length_promoted.
  - apply bind_ok_ret, neg_eq.
Qed.

(** [a / b] on two nodes allocates [b ** -1] and the product. *)
Lemma div_value a b h d :
  PyNum.pow (data_of h b) (-1) = PyNum.PowVal d →
  __truediv__ a (PyValue b) h =
  Ok (S (length h))
     ((h ++ [pow_node_of h b (-1) d])
      ++ [mul_node (h ++ [pow_node_of h b (-1) d]) a (length h)]).
Proof.
  intros E. unfold __truediv__, py_pow_m1.
  rewrite (bind_ok _ _ h (PyValue (length h)) (h ++ [pow_node_of h b (-1) d])).
  - rewrite mul_value, length_app. simpl.
    by replace (length h + 1)%nat with (S (length h)) by lia.
  - apply bind_ok_ret. simpl. by apply pow_node_val.
Qed.

Lemma div_value_raise a b h e :
  pow_node b (-1) h = Raise e h →
  __truediv__ a (PyValue b) h = Raise e h.
Proof.
  intros E. unfold __truediv__, py_pow_m1.
  apply bind_raise, bind_raise. exact E.
Qed.

Lemma div_number a x r h :
  num_val x = Some r →
  __truediv__ a x h =
  match PyNum.pow r (-1) with
  | PyNum.PowVal d => Ok (S (length h)) (promoted h d mul_node a)
  | PyNum.PowZeroDivision => Raise ZeroDivisionError h
  | PyNum.PowComplex => Raise ComplexValue h
  end.
Proof.
  intros E. unfold __truediv__.
  assert (py_pow_m1 x = (r0 ← lift_pow (PyNum.pow r (-1)); ret (PyFloat r0)))
    as ->.
  { destruct x; simpl in *; by simplify_eq. }
  destruct (PyNum.pow r (-1)) as [d| |] eqn:Ep; simpl.
  - rewrite (bind_ok _ _ h (PyFloat d) h) by done.
    by apply (mul_promoted a (PyFloat d)).
  - by apply bind_raise.
  - by apply bind_raise.
Qed.

(** X1.  No operator changes an object that exists: whatever the call and
    its operands, the heap it leaves is the heap before followed by the
    new nodes, also when the call raises; every new node has a zero
    [grad]; and the node returned is the newest object. *)
Theorem operators_only_append (h : heap) (c : call) :
  ∃ l, final_heap (run_call c h) = h ++ l ∧
       Forall (λ n, grad n = 0) l ∧
       ∀ out h', run_call c h = Ok out h' →
                 S out = length h' ∧ (length h < length h')%nat.
Proof.
  change (appended h c).
  assert (∀ self x, appended h (CAdd self x)) as Hadd.
  { intros self x. destruct (num_val x) as [r|] eqn:E.
    - eapply appended_intro;
        [apply (add_promoted self x r h E) | done | | | done].
      + repeat constructor.
      + by rewrite length_promoted.
    - destruct x; try done.
      + eapply appended_intro;
          [apply add_value | done | repeat constructor | | done].
        rewrite length_app. simpl. lia.
      + eapply appended_raise. apply add_none. }
  assert (∀ self x, appended h (CMul self x)) as Hmul.
  { intros self x. destruct (num_val x) as [r|] eqn:E.
    - eapply appended_intro;
        [apply (mul_promoted self x r h E) | done | | | done].
      + repeat constructor.
      + by rewrite length_promoted.
    - destruct x; try done.
      + eapply appended_intro;
          [apply mul_value | done | repeat constructor | | done].
        rewrite length_app. simpl. lia.
      + eapply appended_raise. apply mul_none. }
  assert (∀ self k, appended h (CPow self (PyFloat k))) as Hpow.
  { intros self k. destruct (pow_node_cases self k h) as [(d & _ & E)|[e E]].
    - eapply appended_intro; [apply E | done | repeat constructor | | done].
      rewrite length_app. simpl. lia.
    - eapply appended_raise. apply E. }
  destruct c as [d lbl|self x|self x|self x|self|self x|self x|self|self].
  - eapply appended_intro;
      [apply init_leaf | done | repeat constructor | | done].
    rewrite length_app. simpl. lia.
  - apply Hadd.
  - apply Hmul.
  - destruct x as [z|k|v|].
    + apply (Hpow self (IZR z)).
    + apply Hpow.
    + by eapply appended_raise.
    + by eapply appended_raise.
  - apply (Hmul self (PyInt (-1))).
  - destruct x as [z|k|v|].
    + apply (Hadd self (PyInt (- z))).
    + apply (Hadd self (PyFloat (- k))).
    + eapply appended_intro; [apply sub_value | | | | ].
      * unfold promoted. rewrite <- app_assoc. reflexivity.
      * repeat constructor.
      * rewrite length_app, length_promoted. simpl. lia.
      * done.
    + by eapply appended_raise.
  - destruct x as [z|k|v|].
    + pose proof (div_number self (PyInt z) (IZR z) h eq_refl) as E.
      destruct (PyNum.pow (IZR z) (-1)).
      * eapply appended_intro; [apply E | done | repeat constructor | | done].
        by rewrite length_promoted.
      * by eapply appended_raise.
      * by eapply appended_raise.
    + pose proof (div_number self (PyFloat k) k h eq_refl) as E.
      destruct (PyNum.pow k (-1)).
      * eapply appended_intro; [apply E | done | repeat constructor | | done].
        by rewrite length_promoted.
      * by eapply appended_raise.
      * by eapply appended_raise.
    + destruct (pow_node_cases v (-1) h) as [(d & Ed & _)|[e E]].
      * eapply appended_intro; [by apply div_value | | | | ].
        -- rewrite <- app_assoc. reflexivity.
        -- repeat constructor.
        -- rewrite !length_app. simpl. lia.
        -- done.
      * eapply appended_raise. by apply div_value_raise.
    + by eapply appended_raise.
  - eapply appended_intro;
      [apply tanh_eq | done | repeat constructor | | done].
    rewrite length_app. simpl. lia.
  - eapply appended_intro;
      [apply exp_eq | done | repeat constructor | | done].
    rewrite length_app. simpl. lia.
Qed.

End OperatorsAppend.

(** ** What [backward] writes *)

Section BackwardWrites.
Import Value Graph Chain Alloc NeuronSpec.

(** X2.  [backward] writes nothing but [grad]s: in the heap it leaves,
    returned or raised, there are the same objects with the same values,
    predecessor sets and closures. *)
Theorem backward_keeps_graph (iter : gset nat → list nat) (h : heap)
    (root fuel : nat) :
  built h → same_graph h (final_heap (backward iter fuel root h)).
Proof.
  intros Hb. apply built_good in Hb as [Hwf _].
  rewrite backward_eq.
  destruct (build_topo iter fuel h root topo_empty) as [s|];
    [|apply same_graph_refl].
  pose proof (same_graph_set_grad h 1 root) as Hs0.
  eapply same_graph_trans; [exact Hs0|].
  apply run_all_frame. by eapply wf_same_graph.
Qed.

Lemma backward_keeps_graph_witness :
  same_graph Examples.product
    (final_heap (backward elements 3 2 Examples.product)).
Proof.
  apply (backward_keeps_graph elements _ 2%nat 3%nat built_product).
Defined.

(** X3.  [backward] assigns 1 to the root's [grad], whatever it was, and
    no closure adds to it afterwards: when the traversal is allowed deep
    enough the root's [grad] is 1 in the heap the call leaves, returned or
    raised. *)
Theorem backward_root_grad (iter : gset nat → list nat) (h : heap)
    (root fuel : nat) :
  iter_ok iter → built h → (root < length h)%nat → (root < fuel)%nat →
  grad_of (final_heap (backward iter fuel root h)) root = 1.
Proof.
  intros Hiter Hb Hroot Hfuel. apply built_good in Hb as [Hwf _].
  destruct (build_topo_enough iter Hiter h root fuel Hwf Hfuel) as [s Es].
  destruct (schedule_facts iter Hiter h root fuel s Hwf Es)
    as (_ & Hmem & _ & _).
  rewrite backward_eq, Es.
  pose proof (same_graph_set_grad h 1 root) as Hs0.
  assert (wf (alter (set_grad 1) root h)) as Hwf0 by (by eapply wf_same_graph).
  destruct (run_all_frame _ (reverse (topo s)) Hwf0) as [_ Hframe].
  rewrite Hframe.
  - rewrite grad_of_set_grad, decide_True; done.
  - intros v Hv He. apply Hmem, (reachable_le _ _ _ Hwf) in Hv.
    apply (edge_lt _ _ _ Hwf0) in He. lia.
Qed.

Lemma backward_root_grad_witness :
  grad_of (final_heap (backward elements 3 2 Examples.chain)) 2 = 1.
Proof.
  apply (backward_root_grad elements Examples.chain 2 3 iter_ok_elements
           built_chain); [vm_compute; lia | lia].
Defined.

End BackwardWrites.

(** ** Gradients accumulate *)

Section Accumulation.
Import Value Graph Chain Alloc NeuronSpec.

(** Gradients that sit on leaves are not propagated. *)
Lemma propagate_accumulates h root l g :
  wf h → NoDup l → (∀ x, x ∈ l ↔ reachable h root x) → users_first h l →
  g root = 1 →
  (∀ m, m ∈ l → m ≠ root → prev_of h m ≠ ∅ → g m = 0) →
  ∀ n, n ∈ l → n ≠ root →
    propagate h l g n = g n + chain_grad h root n.
Proof.
  intros Hwf Hnd Hmem Hu Hroot Hg n Hn Hne.
  set (F := λ n, if decide (root = n) then 1 else g n + chain_grad h root n).
  assert (∀ n, n ∈ l → propagate h l g n = F n) as HF.
  { apply (propagate_unique h l Hwf Hu g).
    - intros m _. by apply propagate_fix.
    - intros m Hm.
      assert (Rsum ((λ s, mult h s m * F s) <$> l) =
              Rsum ((λ s, mult h s m * path_sum ((λ _, 1) ∘ S) h root s) <$> l))
        as ->.
      { apply Rsum_ext. intros s Hs. unfold F. case_decide as Hrs.
        - subst s. fold (chain_grad h root root).
          change (path_sum ((λ _ : nat, 1) ∘ S) h root root)
            with (chain_grad h root root).
          by rewrite chain_grad_root.
        - change (path_sum ((λ _ : nat, 1) ∘ S) h root s)
            with (chain_grad h root s).
          destruct (decide (prev_of h s = ∅)) as [Hleaf|Hin].
          + rewrite mult_zero; [lra|done|].
            unfold edge. rewrite Hleaf. set_solver.
          + rewrite (Hg s Hs) by done. lra. }
      rewrite <- (sum_reachable h root l (λ s, mult h s m) _ m Hwf Hnd Hmem).
      unfold F. unfold chain_grad.
      rewrite (path_sum_last h Hwf (S root) root (λ _, 1) m) by lia.
      case_decide as Hrm.
      + subst m. rewrite Hroot.
        assert (Rsum ((λ s, mult h s root
                            * path_sum ((λ _ : nat, 1) ∘ S) h root s)
                        <$> seq 0 (S root)) = 0) as ->; [|lra].
        apply Rsum_zero. intros s Hs.
        rewrite mult_zero; [lra|done|].
        intros He. apply (edge_lt _ _ _ Hwf) in He.
        apply elem_of_seq in Hs. lia.
      + lra. }
  rewrite (HF n Hn). unfold F. by rewrite decide_False.
Qed.

(** X4.  [backward] adds to the [grad]s it finds.  When the only nodes
    below the root that hold a non-zero [grad] beforehand are leaves, as
    parameters are after an earlier call on another root, a returned call
    leaves every node below the root with its earlier [grad] plus the
    chain-rule sum from this root. *)
Theorem backward_accumulates (iter : gset nat → list nat) (h : heap)
    (root fuel : nat) (h' : heap) :
  iter_ok iter → built h → (root < length h)%nat →
  (∀ m, reachable h root m → m ≠ root → prev_of h m ≠ ∅ → grad_of h m = 0) →
  backward iter fuel root h = Ok () h' →
  ∀ n, reachable h root n → n ≠ root →
    grad_of h' n = grad_of h n + chain_grad h root n.
Proof.
  intros Hiter Hb Hroot Hzero E n Hn Hne.
  apply built_good in Hb as [Hwf _].
  destruct (backward_returns iter Hiter h root fuel h' Hwf E)
    as (s & Es & _ & _ & Hg).
  destruct (schedule_facts iter Hiter h root fuel s Hwf Es)
    as (Hnd & Hmem & Hu & _).
  rewrite Hg.
  rewrite (propagate_accumulates h root _ _ Hwf Hnd Hmem Hu); try done.
  - rewrite grad_of_set_grad, decide_False; [done|]. intros [? _]. done.
  - rewrite grad_of_set_grad, decide_True; done.
  - intros m Hm Hmr Hp. rewrite grad_of_set_grad, decide_False.
    + apply Hzero; try done. by apply Hmem.
    + intros [? _]. done.
  - by apply Hmem.
Qed.

Lemma backward_accumulates_witness :
  ∃ h', backward elements 3 2 Samples.graded_product = Ok () h' ∧
        grad_of h' 0 =
        grad_of Samples.graded_product 0 +
        chain_grad Samples.graded_product 2 0.
Proof.
  destruct (backward_total elements iter_ok_elements
              Samples.graded_product 2 3) as [h' E].
  { apply built_good, built_graded_product. }
  { lia. }
  { intros v _. by destruct v as [|[|[|v]]]. }
  exists h'. split; [done|].
  apply (backward_accumulates elements Samples.graded_product 2 3 h'
           iter_ok_elements built_graded_product).
  - vm_compute. lia.
  - intros m _ Hm Hp. destruct m as [|[|[|m]]]; try done;
      exfalso; apply Hp; reflexivity.
  - done.
  - eapply rtc_l; [|apply rtc_refl]. vm_compute. reflexivity.
  - lia.
Defined.

End Accumulation.

(** ** Subtraction *)

Section Subtraction.
Import Value Graph Chain Alloc NeuronSpec.

Lemma grad_of_app_l h l v :
  (v < length h)%nat → grad_of (h ++ l) v = grad_of h v.
Proof. intros Hv. unfold grad_of. by rewrite lookup_app_l. Qed.

Lemma prev_of_app_l h l v :
  (v < length h)%nat → prev_of (h ++ l) v = prev_of h v.
Proof. intros Hv. unfold prev_of. by rewrite lookup_app_l. Qed.

Lemma backward_of_app_l h l v :
  (v < length h)%nat → backward_of (h ++ l) v = backward_of h v.
Proof. intros Hv. unfold backward_of. by rewrite lookup_app_l. Qed.

Lemma reachable_inv h v x :
  reachable h v x → x = v ∨ ∃ p, p ∈ prev_of h v ∧ reachable h p x.
Proof.
  intros Hr. inversion Hr as [|? p ? He Hr']; subst; [by left|right].
  by exists p.
Qed.

Lemma leaf_no_prev h v : wf h → backward_of h v = BNone → prev_of h v = ∅.
Proof.
  intros Hwf E. specialize (Hwf v). unfold closure_ok in Hwf.
  by rewrite E in Hwf.
Qed.

Lemma reachable_leaf h v x :
  wf h → backward_of h v = BNone → reachable h v x → x = v.
Proof.
  intros Hwf E Hr. apply reachable_inv in Hr as [->|(p & Hp & _)]; [done|].
  rewrite (leaf_no_prev h v Hwf E) in Hp. set_solver.
Qed.

Lemma chain_grad_leaf h m n :
  wf h → backward_of h m = BNone →
  chain_grad h m n = if decide (m = n) then 1 else 0.
Proof.
  intros Hwf E. rewrite chain_grad_first by done. case_decide; [done|].
  unfold edges. rewrite E. csimpl. by rewrite Rsum_nil.
Qed.

(** [backward] returns the chain-rule sums when nothing stands in its way. *)
Lemma backward_grads iter h root fuel :
  iter_ok iter → wf h → (root < length h)%nat → (root < fuel)%nat →
  (∀ n, reachable h root n → grad_of h n = 0 ∧ closure_defined h n) →
  ∃ h', backward iter fuel root h = Ok () h' ∧
        ∀ n, reachable h root n → grad_of h' n = chain_grad h root n.
Proof.
  intros Hiter Hwf Hroot Hfuel Hall.
  destruct (backward_total iter Hiter h root fuel Hwf Hfuel) as [h' E].
  { intros v Hv. by apply Hall. }
  exists h'. split; [done|].
  apply (backward_chain iter Hiter h root fuel h' Hwf Hroot); [|done].
  intros n Hn. by apply Hall.
Qed.

(** X5.  Subtraction composed with [backward].  For two leaves [a] and [b]
    with zero [grad]s, [a - b] returns a node of value
    [a.data - b.data], and [backward] on it returns and leaves
    [a.grad = 1] and [b.grad = -1]; when [a] and [b] are the same leaf its
    [grad] is 0. *)
Theorem sub_gradient (iter : gset nat → list nat) (h : heap)
    (a b fuel : nat) :
  iter_ok iter → built h → (a < length h)%nat → (b < length h)%nat →
  backward_of h a = BNone → backward_of h b = BNone →
  grad_of h a = 0 → grad_of h b = 0 →
  ∃ out h1,
    __sub__ a (PyValue b) h = Ok out h1 ∧
    data_of h1 out = data_of h a - data_of h b ∧
    ((out < fuel)%nat →
     ∃ h', backward iter fuel out h1 = Ok () h' ∧
           grad_of h' a = (if decide (a = b) then 0 else 1) ∧
           grad_of h' b = (if decide (a = b) then 0 else -1)).
Proof.
  intros Hiter Hb Ha Hbb Hla Hlb Hga Hgb. apply built_good in Hb as Hg.
  set (c := length h). set (hc := h ++ [leaf (-1) ""]).
  set (m := S (length h)). set (hm := hc ++ [mul_node hc b c]).
  set (out := S (S (length h))). set (h1 := hm ++ [add_node hm a m]).
  assert (length hc = m) as Lc by (unfold hc; rewrite length_app; simpl; lia).
  assert (length hm = out) as Lm by (unfold hm; rewrite length_app; simpl; lia).
  assert (promoted h (-1) mul_node b = hm) as Hprom.
  { unfold promoted, hm, hc. by rewrite <- app_assoc. }
  assert (good hc) as Hgc by (by apply good_leaf).
  assert (good hm) as Hgm by (apply good_mul_node; [done|lia|lia]).
  assert (good h1) as [Hwf1 Hc1] by (apply good_add_node; [done|lia|lia]).
  exists out, h1. split; [by rewrite sub_value, Hprom|].
  assert (∀ v, (v < length h)%nat → backward_of h1 v = backward_of h v) as Hold.
  { intros v Hv. unfold h1, hm, hc. heap_acc. done. }
  assert (backward_of h1 out = BAdd a m out) as Hbo.
  { unfold h1. heap_acc. by rewrite Lm. }
  assert (backward_of h1 m = BMul b c m) as Hbm.
  { unfold h1, hm. heap_acc. by rewrite Lc. }
  assert (backward_of h1 c = BNone) as Hbc.
  { unfold h1, hm, hc. heap_acc. done. }
  assert (data_of h1 c = -1) as Hdc.
  { unfold h1, hm, hc. heap_acc. done. }
  split.
  { unfold h1. heap_acc. unfold hm. heap_acc. unfold hc. heap_acc. lra. }
  intros Hfuel.
  assert (∀ n, reachable h1 out n → n = out ∨ n = m ∨ n = c ∨ n = a ∨ n = b)
    as Hreach.
  { intros n Hn. apply reachable_inv in Hn as [->|(p & Hp & Hn)]; [by left|].
    apply (edges_operands _ _ _ Hwf1) in Hp. unfold edges in Hp.
    rewrite Hbo in Hp. csimpl in Hp.
    apply elem_of_cons in Hp as [->|Hp].
    { apply reachable_leaf in Hn; [tauto|done|]. by rewrite Hold. }
    apply elem_of_cons in Hp as [->|Hp]; [|by apply elem_of_nil in Hp].
    apply reachable_inv in Hn as [->|(p & Hp & Hn)]; [tauto|].
    apply (edges_operands _ _ _ Hwf1) in Hp. unfold edges in Hp.
    rewrite Hbm in Hp. csimpl in Hp.
    apply elem_of_cons in Hp as [->|Hp].
    { apply reachable_leaf in Hn; [tauto|done|]. by rewrite Hold. }
    apply elem_of_cons in Hp as [->|Hp]; [|by apply elem_of_nil in Hp].
    apply reachable_leaf in Hn; [tauto|done|done]. }
  destruct (backward_grads iter h1 out fuel Hiter Hwf1) as (h' & E & Hgr).
  { unfold h1. rewrite length_app. simpl. lia. }
  { done. }
  { intros n Hn. split.
    - destruct (Hreach n Hn) as [->|[->|[->|[->| ->]]]].
      + unfold h1. heap_acc. done.
      + unfold h1, hm. heap_acc. done.
      + unfold h1, hm, hc. heap_acc. done.
      + unfold h1, hm, hc. heap_acc. done.
      + unfold h1, hm, hc. heap_acc. done.
    - unfold closure_defined.
      destruct (Hreach n Hn) as [->|[->|[->|[->| ->]]]];
        rewrite ?Hbo, ?Hbm, ?Hbc, ?Hold, ?Hla, ?Hlb by done; done. }
  exists h'. split; [done|].
  assert (∀ x, chain_grad h1 c x = if decide (c = x) then 1 else 0) as Cc.
  { intros x. by apply chain_grad_leaf. }
  assert (∀ x, chain_grad h1 a x = if decide (a = x) then 1 else 0) as Ca.
  { intros x. apply chain_grad_leaf; [done|]. by rewrite Hold. }
  assert (∀ x, chain_grad h1 b x = if decide (b = x) then 1 else 0) as Cb.
  { intros x. apply chain_grad_leaf; [done|]. by rewrite Hold. }
  assert (∀ x, x ≠ out → x ≠ m →
            chain_grad h1 out x =
            1 * chain_grad h1 a x +
            (1 * (data_of h1 c * chain_grad h1 b x
                  + (data_of h1 b * chain_grad h1 c x + 0)) + 0)) as Co.
  { intros x Hx1 Hx2. rewrite chain_grad_first by done.
    rewrite decide_False by done. unfold edges. rewrite Hbo. csimpl.
    rewrite !Rsum_cons, Rsum_nil.
    rewrite (chain_grad_first h1 m x) by done.
    rewrite decide_False by done. unfold edges. rewrite Hbm. csimpl.
    by rewrite !Rsum_cons, Rsum_nil. }
  split.
  - rewrite Hgr.
    2:{ eapply rtc_l; [|apply rtc_refl]. unfold edge.
        apply (edges_operands _ _ _ Hwf1). unfold edges. rewrite Hbo.
        csimpl. set_solver. }
    rewrite Co by (unfold out, m; lia). rewrite Ca, Cb, Cc, Hdc.
    rewrite (decide_True (P := a = a)) by done.
    rewrite (decide_False (P := c = a)) by (unfold c; lia).
    repeat case_decide; subst; try done; lra.
  - rewrite Hgr.
    2:{ eapply rtc_l with m.
        - unfold edge. apply (edges_operands _ _ _ Hwf1). unfold edges.
          rewrite Hbo. csimpl. set_solver.
        - eapply rtc_l; [|apply rtc_refl]. unfold edge.
          apply (edges_operands _ _ _ Hwf1). unfold edges. rewrite Hbm.
          csimpl. set_solver. }
    rewrite Co by (unfold out, m; lia). rewrite Ca, Cb, Cc, Hdc.
    rewrite (decide_True (P := b = b)) by done.
    rewrite (decide_False (P := c = b)) by (unfold c; lia).
    repeat case_decide; subst; try done; lra.
Qed.

Lemma sub_gradient_witness :
  ∃ out h1,
    __sub__ 0 (PyValue 1) Examples.product = Ok out h1 ∧
    data_of h1 out = data_of Examples.product 0 - data_of Examples.product 1 ∧
    ((out < 6)%nat →
     ∃ h', backward elements 6 out h1 = Ok () h' ∧
           grad_of h' 0 = 1 ∧ grad_of h' 1 = -1).
Proof.
  apply (sub_gradient elements Examples.product 0 1 6 iter_ok_elements
           built_product); try reflexivity; vm_compute; lia.
Defined.

End Subtraction.

(** ** The one-operand operators *)

Section UnaryOperators.
Import Value Graph Chain Alloc NeuronSpec.

Lemma pow_integral x z :
  x ≠ 0 → PyNum.pow x (IZR z) = PyNum.PowVal (powerRZ x z).
Proof.
  intros Hx. unfold PyNum.pow.
  destruct (Req_dec_T (IZR z) 0) as [E|_].
  { apply eq_IZR_R0 in E. by subst. }
  destruct (Req_dec_T x 0); [done|].
  destruct (Rlt_dec 0 x); [by rewrite powerRZ_Rpower|].
  destruct (PyNum.is_integral_dec (IZR z)) as [_|Hn].
  - by rewrite Int_part_IZR.
  - destruct Hn. apply is_integral_IZR.
Qed.

Lemma pow_minus_two r :
  r ≠ 0 → PyNum.pow r (-1 - 1) = PyNum.PowVal (/ (r * r)).
Proof.
  intros Hr. replace (-1 - 1) with (IZR (-2)) by lra.
  rewrite pow_integral by done. f_equal. simpl. f_equal. lra.
Qed.

(** The operand of the root's closure, when nothing else below the root
    uses it, ends with the closure's factor added to its [grad]. *)
Lemma root_closure_grad iter h1 out fuel a :
  iter_ok iter → wf h1 → (out < length h1)%nat → (out < fuel)%nat →
  closure_defined h1 out → a ≠ out →
  (∀ v, reachable h1 out v → v ≠ out → ¬ edge h1 v a) →
  grad_of (final_heap (backward iter fuel out h1)) a =
  grad_of h1 a + mult h1 out a.
Proof.
  intros Hiter Hwf1 Hout Hfuel Hdef Hne Huse.
  destruct (build_topo_enough iter Hiter h1 out fuel Hwf1 Hfuel) as [s Es].
  destruct (schedule_facts iter Hiter h1 out fuel s Hwf1 Es)
    as (Hnd & Hmem & _ & rest & Hrest).
  rewrite backward_eq, Es, Hrest.
  set (h0 := alter (set_grad 1) out h1).
  pose proof (same_graph_set_grad h1 1 out) as Hs0. fold h0 in Hs0.
  assert (wf h0) as Hwf0 by (by eapply wf_same_graph).
  simpl. unfold mbind, M_bind, bind, get.
  destruct (run_closure_cases h0 out Hwf0)
    as [(_ & h2 & E2 & Hs2 & Hg2)|(Hnd' & _)].
  2:{ destruct Hnd'. by eapply same_graph_closure_defined. }
  rewrite E2.
  assert (wf h2) as Hwf2 by (by eapply wf_same_graph).
  destruct (run_all_frame h2 rest Hwf2) as [_ Hframe].
  rewrite Hframe.
  - rewrite Hg2, (same_graph_mult _ _ _ _ Hs0). unfold h0.
    rewrite !grad_of_set_grad.
    rewrite decide_False by (intros [? _]; done).
    rewrite decide_True by done. lra.
  - intros v Hv He.
    assert (v ∈ out :: rest) as Hv' by (by right).
    rewrite <- Hrest in Hv'. apply Hmem in Hv'.
    assert (v ≠ out) as Hvo.
    { intros ->. rewrite Hrest in Hnd. by apply NoDup_cons in Hnd as [? _]. }
    apply (Huse v Hv' Hvo).
    unfold edge in *. destruct Hs0 as [_ Hs0], Hs2 as [_ Hs2].
    destruct (Hs0 v) as (_ & <- & _). by destruct (Hs2 v) as (_ & <- & _).
Qed.

(** The node that a one-operand operator appends is the only new user of
    its operand. *)
Lemma unary_users h n a v :
  wf (h ++ [n]) → (a < length h)%nat →
  (∀ x, x ∈ _prev n → x = a) →
  reachable (h ++ [n]) (length h) v → v ≠ length h → ¬ edge (h ++ [n]) v a.
Proof.
  intros Hwf Ha Hp Hv Hne He.
  apply reachable_inv in Hv as [->|(p & Hpp & Hv)]; [done|].
  rewrite prev_of_alloc, decide_True in Hpp by done.
  apply Hp in Hpp as ->.
  apply (reachable_le _ _ _ Hwf) in Hv.
  apply (edge_lt _ _ _ Hwf) in He. lia.
Qed.



End UnaryOperators.

(** ** Division *)

Section Division.
Import Value Graph Chain Alloc NeuronSpec.



End Division.

(** ** The constructors and [parameters] *)

Section Construct.
Import Value Graph Chain Alloc NeuronSpec.

Lemma leaves_spec ds :
  ∀ h, Neuron.leaves ds h =
       Ok (seq (length h) (length ds)) (h ++ ((λ d, leaf d "") <$> ds)).
Proof.
  induction ds as [|d ds IH]; intros h.
  - simpl. by rewrite app_nil_r.
  - simpl. rewrite (bind_ok _ _ _ _ _ (init_leaf d "" h)).
    rewrite (bind_ok _ _ _ _ _ (IH _)).
    rewrite length_app, <- app_assoc. simpl.
    by replace (length h + 1)%nat with (S (length h)) by lia.
Qed.

Lemma neuron_init_spec nin rnd h :
  Neuron.__init__ nin rnd h =
  Ok (Neuron.mk (seq (length h) nin) (length h + nin))
     (h ++ ((λ i, leaf (rnd i) "") <$> seq 0 (S nin))).
Proof.
  unfold Neuron.__init__.
  rewrite (bind_ok _ _ _ _ _ (leaves_spec _ h)).
  rewrite length_fmap, length_seq.
  rewrite (bind_ok _ _ _ _ _ (init_leaf _ _ _)).
  rewrite length_app, !length_fmap, length_seq.
  rewrite seq_S, fmap_app, <- list_fmap_compose, app_assoc. done.
Qed.

Lemma make_neurons_spec nin nout :
  ∀ rnd h, ∃ ns,
    Layer.make_neurons nin nout rnd h =
    Ok ns (h ++ ((λ i, leaf (rnd i) "") <$> seq 0 (nout * S nin))) ∧
    concat (Neuron.parameters <$> ns) = seq (length h) (nout * S nin) ∧
    (λ n, length (Neuron.w n)) <$> ns = replicate nout nin.
Proof.
  induction nout as [|k IH]; intros rnd h.
  - exists []. simpl. by rewrite app_nil_r.
  - destruct (IH (λ i, rnd (S nin + i)%nat)
                (h ++ ((λ i, leaf (rnd i) "") <$> seq 0 (S nin))))
      as (ns & E & Hp & Hw).
    exists (Neuron.mk (seq (length h) nin) (length h + nin) :: ns).
    split_and!.
    + change (Layer.make_neurons nin (S k) rnd)
        with (n ← Neuron.__init__ nin rnd;
              ns ← Layer.make_neurons nin k (λ i, rnd (S nin + i)%nat);
              ret (n :: ns)).
      rewrite (bind_ok _ _ _ _ _ (neuron_init_spec nin rnd h)).
      rewrite (bind_ok _ _ _ _ _ E).
      rewrite <- app_assoc. unfold ret. do 2 f_equal.
      replace (S k * S nin)%nat with (S nin + k * S nin)%nat by lia.
      rewrite seq_app, fmap_app. f_equal.
      replace (0 + S nin)%nat with (S nin + 0)%nat by lia.
      rewrite <- (fmap_add_seq (S nin)), <- list_fmap_compose. done.
    + rewrite length_app, length_fmap, length_seq in Hp.
      rewrite fmap_cons. simpl concat. rewrite Hp.
      unfold Neuron.parameters. simpl Neuron.w. simpl Neuron.b.
      replace (S k * S nin)%nat with (S nin + k * S nin)%nat by lia.
      rewrite seq_app. f_equal. by rewrite seq_S.
    + csimpl. rewrite Hw. by rewrite length_seq.
Qed.

Lemma make_layers_shift x sz idx :
  ∀ rnd h, MLP.make_layers (x :: sz) (S <$> idx) rnd h =
           MLP.make_layers sz idx rnd h.
Proof.
  induction idx as [|i idx IH]; intros rnd h; [done|].
  csimpl. unfold mbind, M_bind, bind.
  destruct (Layer.__init__ _ _ rnd h) as [l h1|e h1]; [|done].
  by rewrite IH.
Qed.

Lemma make_layers_spec nouts :
  ∀ nin rnd h, ∃ ls,
    MLP.make_layers (nin :: nouts) (seq 0 (length nouts)) rnd h =
    Ok ls (h ++ ((λ i, leaf (rnd i) "")
                   <$> seq 0 (MLPSpec.param_count nin nouts))) ∧
    concat (Layer.parameters <$> ls) =
    seq (length h) (MLPSpec.param_count nin nouts) ∧
    MLPSpec.widths ls =
    (λ io, replicate io.2 io.1) <$> zip (nin :: nouts) nouts.
Proof.
  induction nouts as [|nout nouts IH]; intros nin rnd h.
  - exists []. simpl. by rewrite app_nil_r.
  - destruct (make_neurons_spec nin nout rnd h) as (ns & En & Hpn & Hwn).
    destruct (IH nout (λ j, rnd (nout * S nin + j)%nat)
                (h ++ ((λ i, leaf (rnd i) "") <$> seq 0 (nout * S nin))))
      as (ls & E & Hp & Hw).
    exists (Layer.mk ns :: ls). split_and!.
    + simpl length. rewrite <- cons_seq, <- fmap_S_seq.
      change (MLP.make_layers (nin :: nout :: nouts)
                (0%nat :: (S <$> seq 0 (length nouts))) rnd)
        with (l ← Layer.__init__ nin nout rnd;
              ls ← MLP.make_layers (nin :: nout :: nouts)
                     (S <$> seq 0 (length nouts))
                     (λ j, rnd (nout * S nin + j)%nat);
              ret (l :: ls)).
      assert (Layer.__init__ nin nout rnd h =
              Ok (Layer.mk ns)
                 (h ++ ((λ i, leaf (rnd i) "") <$> seq 0 (nout * S nin))))
        as El.
      { unfold Layer.__init__. by rewrite (bind_ok _ _ _ _ _ En). }
      rewrite (bind_ok _ _ _ _ _ El).
      unfold mbind at 1, M_bind at 1, bind at 1.
      rewrite make_layers_shift, E.
      rewrite <- app_assoc. unfold ret. do 2 f_equal.
      simpl MLPSpec.param_count. rewrite seq_app, fmap_app. f_equal.
      replace (0 + nout * S nin)%nat with (nout * S nin + 0)%nat by lia.
      rewrite <- (fmap_add_seq (nout * S nin)), <- list_fmap_compose. done.
    + rewrite length_app, length_fmap, length_seq in Hp.
      rewrite fmap_cons. simpl concat. unfold Layer.parameters at 1.
      simpl Layer.neurons. rewrite Hpn, Hp.
      simpl MLPSpec.param_count. by rewrite seq_app.
    + unfold MLPSpec.widths in *. csimpl. by rewrite Hwn, Hw.
Qed.

(** X8.  Construction.  [MLP(nin, nouts)] changes no object that exists
    and appends one leaf per parameter, with a zero [grad] and the value
    of the draw of its rank; [parameters()] lists exactly these objects in
    the order of their allocation, so no parameter is listed twice; there
    is one layer per entry of [nouts], layer [i] has [nouts[i]] neurons and
    each of them as many weights as the layer before has neurons ([nin]
    for the first). *)
Theorem mlp_init (nin : nat) (nouts : list nat) (rnd : nat → R) (h : heap) :
  ∃ model,
    MLP.__init__ nin nouts rnd h =
    Ok model (h ++ ((λ i, leaf (rnd i) "")
                      <$> seq 0 (MLPSpec.param_count nin nouts))) ∧
    MLP.parameters model =
    seq (length h) (MLPSpec.param_count nin nouts) ∧
    NoDup (MLP.parameters model) ∧
    MLPSpec.widths (MLP.layers model) =
    (λ io, replicate io.2 io.1) <$> zip (nin :: nouts) nouts.
Proof.
  destruct (make_layers_spec nouts nin rnd h) as (ls & E & Hp & Hw).
  exists (MLP.mk ls). unfold MLP.__init__, MLP.parameters. simpl.
  split_and!; try done.
  - by rewrite (bind_ok _ _ _ _ _ E).
  - rewrite Hp. apply NoDup_seq.
Qed.

End Construct.

(** ** The nodes that a forward pass adds *)

Section FreshFacts.
Import Value Graph Chain Alloc NeuronSpec Fresh.

Variable h0 : heap.
Variable P : nat → Prop.

Local Abbreviation inv := (Fresh.inv h0 P).
Local Abbreviation ok_ref := (Fresh.ok_ref h0 P).
Local Abbreviation ok_obj := (Fresh.ok_obj h0 P).
Local Abbreviation usable := (Fresh.usable h0 P).
Local Abbreviation node_ok := (Fresh.node_ok h0 P).
Local Abbreviation yields := (Fresh.yields h0 P).
Local Abbreviation ok_val := (Fresh.ok_val h0 P).
Local Abbreviation ok_acc := (Fresh.ok_acc h0 P).
Local Abbreviation value_in := (Fresh.value_in h0).
Local Abbreviation ev := (Fresh.ev h0).

Hypothesis P_old : ∀ q, P q → (q < length h0)%nat.

Lemma grad_of_ge h v : (length h ≤ v)%nat → grad_of h v = 0.
Proof. intros Hv. unfold grad_of. by rewrite lookup_ge_None_2. Qed.

Lemma inv_start : wf h0 → inv h0.
Proof.
  intros Hwf. split_and!; [exists []; by rewrite app_nil_r | done |].
  intros i Hi. unfold Fresh.node_ok, value_ok, closure_defined.
  rewrite backward_of_ge, prev_of_ge, grad_of_ge by done.
  split_and!; try done; set_solver.
Qed.

Lemma inv_length h : inv h → (length h0 ≤ length h)%nat.
Proof. intros [[l ->] _]. rewrite length_app. lia. Qed.

Lemma ok_ref_app h l v : ok_ref h v → ok_ref (h ++ l) v.
Proof. intros [Hv Hu]. split; [|done]. rewrite length_app. lia. Qed.

Lemma ok_obj_app h l o : ok_obj h o → ok_obj (h ++ l) o.
Proof. destruct o; simpl; try done. apply ok_ref_app. Qed.

(** Appending a node keeps the invariant when the node itself is as the
    invariant asks. *)
Lemma inv_alloc h n :
  inv h →
  match _backward n with
  | BNone => _prev n = ∅
  | BAdd s o out | BMul s o out =>
      out = length h ∧ (∀ x, x ∈ _prev n ↔ x = s ∨ x = o) ∧
      (s < length h)%nat ∧ (o < length h)%nat
  | BPow s _ out | BTanh s _ out | BExp s out =>
      out = length h ∧ (∀ x, x ∈ _prev n ↔ x = s) ∧ (s < length h)%nat
  end →
  node_ok (h ++ [n]) (length h) →
  inv (h ++ [n]).
Proof.
  intros ([l ->] & Hwf & Hnodes) Hclo Hn.
  assert (wf ((h0 ++ l) ++ [n])) as Hwf' by (by apply wf_alloc).
  split_and!; [exists (l ++ [n]); by rewrite app_assoc | done |].
  intros i Hi.
  destruct (decide (i = length (h0 ++ l))) as [->|Hne]; [done|].
  destruct (decide (i < length (h0 ++ l))%nat) as [Hlt|Hge].
  - destruct (Hnodes i Hi) as (Hv & Hg & Hd & Hp).
    pose proof (Hwf i) as Hc. unfold closure_ok in Hc.
    unfold Fresh.node_ok, value_ok, closure_defined in *.
    rewrite backward_of_alloc, prev_of_alloc, grad_of_alloc,
      !decide_False by done.
    split_and!; try done.
    + destruct (backward_of (h0 ++ l) i); try done;
        rewrite ?data_of_alloc; repeat case_decide; try lia; naive_solver.
    + destruct (backward_of (h0 ++ l) i); try done.
      rewrite data_of_alloc. case_decide; [|done]. naive_solver lia.
  - unfold Fresh.node_ok, value_ok, closure_defined.
    rewrite backward_of_ge, prev_of_ge, grad_of_ge
      by (rewrite length_app; simpl; lia).
    split_and!; try done; set_solver.
Qed.

Lemma inv_leaf h d lbl : inv h → inv (h ++ [leaf d lbl]).
Proof.
  intros Hi. apply inv_alloc; [done|done|].
  unfold Fresh.node_ok, value_ok, closure_defined.
  heap_acc. split_and!; try done; set_solver.
Qed.

Lemma inv_add_node h a o :
  inv h → ok_ref h a → ok_ref h o → inv (h ++ [add_node h a o]).
Proof.
  intros Hi [Ha Hua] [Ho Huo]. apply inv_alloc; [done| |].
  - simpl. split_and!; [done|set_solver|done|done].
  - unfold Fresh.node_ok, value_ok, closure_defined.
    heap_acc. split_and!; try done.
    + heap_acc. done.
    + intros p Hp. assert (p = a ∨ p = o) as [-> | ->] by set_solver; done.
Qed.

Lemma inv_mul_node h a o :
  inv h → ok_ref h a → ok_ref h o → inv (h ++ [mul_node h a o]).
Proof.
  intros Hi [Ha Hua] [Ho Huo]. apply inv_alloc; [done| |].
  - simpl. split_and!; [done|set_solver|done|done].
  - unfold Fresh.node_ok, value_ok, closure_defined.
    heap_acc. split_and!; try done.
    + heap_acc. done.
    + intros p Hp. assert (p = a ∨ p = o) as [-> | ->] by set_solver; done.
Qed.

Lemma inv_tanh_node h a :
  inv h → ok_ref h a → inv (h ++ [tanh_node h a]).
Proof.
  intros Hi [Ha Hua]. apply inv_alloc; [done| |].
  - simpl. split_and!; [done|set_solver|done].
  - unfold Fresh.node_ok, value_ok, closure_defined.
    heap_acc. split_and!; try done.
    + heap_acc. done.
    + intros p Hp. assert (p = a) as -> by set_solver. done.
Qed.

Lemma pow_one x : PyNum.pow x (2 - 1) = PyNum.PowVal x.
Proof.
  replace (2 - 1) with (IZR 1) by lra.
  destruct (Req_dec_T x 0) as [->|Hx].
  - unfold PyNum.pow. destruct (Req_dec_T 1 0); [lra|].
    destruct (Req_dec_T 0 0); [|lra]. destruct (Rlt_dec 1 0); [lra|done].
  - rewrite pow_integral by done. f_equal. simpl. lra.
Qed.

Lemma inv_square_node h a :
  inv h → ok_ref h a →
  inv (h ++ [pow_node_of h a 2 (data_of h a * data_of h a)]).
Proof.
  intros Hi [Ha Hua]. apply inv_alloc; [done| |].
  - simpl. split_and!; [done|set_solver|done].
  - unfold Fresh.node_ok, value_ok, closure_defined.
    heap_acc. split_and!; try done.
    + heap_acc. apply pow_two.
    + heap_acc. eexists. apply pow_one.
    + intros p Hp. assert (p = a) as -> by set_solver. done.
Qed.

Lemma ok_ref_new h n : inv h → ok_ref (h ++ [n]) (length h).
Proof.
  intros Hi. split; [rewrite length_app; simpl; lia|].
  left. by apply inv_length.
Qed.

Lemma ok_ref_param h q : inv h → P q → ok_ref h q.
Proof.
  intros Hi Hq. split; [|by right].
  apply P_old in Hq. apply inv_length in Hi. lia.
Qed.

(** *** The value of a node as a function of the older nodes' values *)

Lemma ev_fuel h ρ :
  wf h → ∀ fuel fuel' m, (m < fuel)%nat → (m < fuel')%nat →
    ev fuel h ρ m = ev fuel' h ρ m.
Proof.
  intros Hwf. induction fuel as [|fuel IH]; intros fuel' m ??; [lia|].
  destruct fuel' as [|fuel']; [lia|]. simpl. case_decide; [done|].
  pose proof (Hwf m) as Hm. unfold closure_ok in Hm.
  destruct (backward_of h m); destruct_and?; try done;
    rewrite ?(IH fuel' self), ?(IH fuel' other) by lia; done.
Qed.

Lemma value_in_old h ρ m : (m < length h0)%nat → value_in h ρ m = ρ m.
Proof. intros Hm. unfold Fresh.value_in. simpl. by rewrite decide_True. Qed.

Lemma ev_app h l ρ :
  wf h → ∀ fuel m, (m < length h)%nat →
    ev fuel (h ++ l) ρ m = ev fuel h ρ m.
Proof.
  intros Hwf. induction fuel as [|fuel IH]; intros m Hm; [done|].
  simpl. case_decide; [done|].
  rewrite backward_of_app_l, data_of_app_l by done.
  pose proof (Hwf m) as Hc. unfold closure_ok in Hc.
  destruct (backward_of h m); destruct_and?; try done;
    rewrite ?(IH self), ?(IH other) by lia; done.
Qed.

Lemma value_in_app h l ρ m :
  wf h → (m < length h)%nat → value_in (h ++ l) ρ m = value_in h ρ m.
Proof. intros Hwf Hm. by apply ev_app. Qed.

Lemma obj_at_app h l ρ o :
  inv h → ok_obj h o →
  MLPSpec.obj_at (value_in (h ++ l) ρ) o = MLPSpec.obj_at (value_in h ρ) o.
Proof.
  intros (_ & Hwf & _) Ho. destruct o; simpl in *; try done.
  apply value_in_app; [done|]. by destruct Ho.
Qed.

Lemma ev_operand h n ρ s :
  inv h → (s < length h)%nat →
  ev (length h) (h ++ [n]) ρ s = value_in h ρ s.
Proof.
  intros (_ & Hwf & _) Hs. rewrite ev_app by done.
  by apply ev_fuel; [|lia..].
Qed.

(** The value of the node just allocated. *)
Lemma value_in_alloc h n ρ :
  inv h → wf (h ++ [n]) →
  value_in (h ++ [n]) ρ (length h) =
  match _backward n with
  | BNone => data n
  | BAdd s o _ => value_in h ρ s + value_in h ρ o
  | BMul s o _ => value_in h ρ s * value_in h ρ o
  | BPow s k _ => PyNum.pow_total (value_in h ρ s) k
  | BTanh s _ _ => PyNum.tanh_formula (value_in h ρ s)
  | BExp s _ => Rtrigo_def.exp (value_in h ρ s)
  end.
Proof.
  intros Hi Hwf'. pose proof (inv_length h Hi) as Hlen.
  unfold Fresh.value_in at 1. simpl.
  rewrite decide_False by lia.
  pose proof (Hwf' (length h)) as Hc. unfold closure_ok in Hc.
  rewrite backward_of_alloc, decide_True in * by done.
  rewrite data_of_alloc, decide_True by done.
  destruct (_backward n); destruct_and?; try done;
    rewrite ?ev_operand by (done || lia); done.
Qed.

Lemma value_in_leaf h d lbl ρ :
  inv h → value_in (h ++ [leaf d lbl]) ρ (length h) = d.
Proof.
  intros Hi. rewrite value_in_alloc; [done|done|].
  by destruct (inv_leaf h d lbl Hi) as (_ & ? & _).
Qed.

Lemma value_in_add_node h a o ρ :
  inv h → ok_ref h a → ok_ref h o →
  value_in (h ++ [add_node h a o]) ρ (length h) =
  value_in h ρ a + value_in h ρ o.
Proof.
  intros Hi Ha Ho. rewrite value_in_alloc; [done|done|].
  by destruct (inv_add_node h a o Hi Ha Ho) as (_ & ? & _).
Qed.

Lemma value_in_mul_node h a o ρ :
  inv h → ok_ref h a → ok_ref h o →
  value_in (h ++ [mul_node h a o]) ρ (length h) =
  value_in h ρ a * value_in h ρ o.
Proof.
  intros Hi Ha Ho. rewrite value_in_alloc; [done|done|].
  by destruct (inv_mul_node h a o Hi Ha Ho) as (_ & ? & _).
Qed.

Lemma value_in_tanh_node h a ρ :
  inv h → ok_ref h a →
  value_in (h ++ [tanh_node h a]) ρ (length h) =
  PyNum.tanh_formula (value_in h ρ a).
Proof.
  intros Hi Ha. rewrite value_in_alloc; [done|done|].
  by destruct (inv_tanh_node h a Hi Ha) as (_ & ? & _).
Qed.

Lemma value_in_square_node h a ρ :
  inv h → ok_ref h a →
  value_in (h ++ [pow_node_of h a 2 (data_of h a * data_of h a)]) ρ
    (length h) = value_in h ρ a * value_in h ρ a.
Proof.
  intros Hi Ha. rewrite value_in_alloc; [|done|].
  - simpl. apply pow_total_val, pow_two.
  - by destruct (inv_square_node h a Hi Ha) as (_ & ? & _).
Qed.

(** With the values the older nodes hold, the value is the one stored. *)
Lemma value_in_data h :
  inv h → ∀ fuel m, (m < fuel)%nat → ev fuel h (data_of h0) m = data_of h m.
Proof.
  intros ([l ->] & Hwf & Hnodes).
  induction fuel as [|fuel IH]; intros m Hm; [lia|].
  simpl. case_decide as Hold; [by rewrite data_of_app_l|].
  destruct (Hnodes m) as (Hv & _); [lia|].
  pose proof (Hwf m) as Hc. unfold closure_ok in Hc. unfold value_ok in Hv.
  destruct (backward_of (h0 ++ l) m); destruct_and?; try done;
    rewrite ?(IH self), ?(IH other) by lia; try done.
  - by rewrite (pow_total_val _ _ _ Hv).
  - congruence.
Qed.

(** With one leaf's value varied, it is the re-evaluation of the graph. *)
Lemma value_in_reeval h p x :
  inv h → (∀ q, P q → backward_of h0 q = BNone) → P p →
  ∀ fuel m, (m < fuel)%nat → usable m →
    ev fuel h (MLPSpec.update (data_of h0) p x) m = reeval fuel h p x m.
Proof.
  intros ([l ->] & Hwf & Hnodes) Hleaf Hp.
  induction fuel as [|fuel IH]; intros m Hm Hu; [lia|].
  simpl. unfold MLPSpec.update at 1.
  destruct (decide (m = p)) as [->|Hne].
  { by rewrite decide_True by (by apply P_old). }
  case_decide as Hold.
  - destruct Hu as [?|Hq]; [lia|].
    rewrite backward_of_app_l, (Hleaf m Hq) by done.
    by rewrite data_of_app_l.
  - destruct (Hnodes m) as (_ & _ & _ & Hprev); [lia|].
    pose proof (Hwf m) as Hc. unfold closure_ok in Hc.
    destruct (backward_of (h0 ++ l) m); destruct_and?; try done;
      rewrite ?(IH self), ?(IH other) by (lia || apply Hprev; naive_solver);
      done.
Qed.

(** *** The computations *)

Lemma yields_ret {A} (a : A) h (Q : A → heap → Prop) :
  inv h → Q a h → yields (ret a) h Q.
Proof. intros Hi HQ. exists a, []. rewrite app_nil_r. by split_and!. Qed.

Lemma yields_bind {A B} (m : M A) (k : A → M B) h
    (Q : A → heap → Prop) (R : B → heap → Prop) :
  yields m h Q →
  (∀ a l, inv (h ++ l) → Q a (h ++ l) → yields (k a) (h ++ l) R) →
  yields (m ≫= k) h R.
Proof.
  intros (a & l & E & Hi & HQ) Hk.
  destruct (Hk a l Hi HQ) as (b & l' & E' & Hi' & HR).
  exists b, (l ++ l'). rewrite app_assoc. split_and!; try done.
  by rewrite (bind_ok _ _ _ _ _ E).
Qed.

Lemma yields_weaken {A} (m : M A) h (Q R : A → heap → Prop) :
  yields m h Q → (∀ a l, inv (h ++ l) → Q a (h ++ l) → R a (h ++ l)) →
  yields m h R.
Proof.
  intros (a & l & E & Hi & HQ) HR. exists a, l. split_and!; try done.
  by apply HR.
Qed.

(** What [a * x] and [a + x] allocate and compute. *)
Lemma mul_yields h a x :
  inv h → ok_ref h a → ok_obj h x →
  yields (__mul__ a x) h
    (λ p h', ok_ref h' p ∧
             ∀ ρ, value_in h' ρ p =
                  value_in h ρ a * MLPSpec.obj_at (value_in h ρ) x).
Proof.
  intros Hi Ha Hx. pose proof Hi as (_ & Hwf & _).
  destruct (num_val x) as [r|] eqn:E.
  - pose proof (inv_leaf h r "" Hi) as Hi1.
    pose proof Hi1 as (_ & Hwf1 & _).
    exists (S (length h)),
      [leaf r ""; mul_node (h ++ [leaf r ""]) a (length h)].
    replace (h ++ [leaf r ""; mul_node (h ++ [leaf r ""]) a (length h)])
      with ((h ++ [leaf r ""]) ++ [mul_node (h ++ [leaf r ""]) a (length h)])
      by (by rewrite <- app_assoc).
    assert (length (h ++ [leaf r ""]) = S (length h)) as L
      by (rewrite length_app; simpl; lia).
    split_and!.
    + rewrite (mul_number _ _ _ _ E), mul_value. by rewrite L.
    + apply inv_mul_node; [done | by apply ok_ref_app | by apply ok_ref_new].
    + rewrite <- L. by apply ok_ref_new.
    + intros ρ. rewrite <- L.
      rewrite value_in_mul_node;
        [|done | by apply ok_ref_app | by apply ok_ref_new].
      rewrite value_in_app by (done || by destruct Ha).
      rewrite value_in_leaf by done.
      destruct x; simpl in *; by simplify_eq.
  - destruct x as [| |v|]; try done. simpl in Hx.
    exists (length h), [mul_node h a v]. split_and!.
    + apply mul_value.
    + by apply inv_mul_node.
    + by apply ok_ref_new.
    + intros ρ. by rewrite value_in_mul_node.
Qed.

Lemma add_yields h a x :
  inv h → ok_ref h a → ok_obj h x →
  yields (__add__ a x) h
    (λ p h', ok_ref h' p ∧
             ∀ ρ, value_in h' ρ p =
                  value_in h ρ a + MLPSpec.obj_at (value_in h ρ) x).
Proof.
  intros Hi Ha Hx. pose proof Hi as (_ & Hwf & _).
  destruct (num_val x) as [r|] eqn:E.
  - pose proof (inv_leaf h r "" Hi) as Hi1.
    pose proof Hi1 as (_ & Hwf1 & _).
    exists (S (length h)),
      [leaf r ""; add_node (h ++ [leaf r ""]) a (length h)].
    replace (h ++ [leaf r ""; add_node (h ++ [leaf r ""]) a (length h)])
      with ((h ++ [leaf r ""]) ++ [add_node (h ++ [leaf r ""]) a (length h)])
      by (by rewrite <- app_assoc).
    assert (length (h ++ [leaf r ""]) = S (length h)) as L
      by (rewrite length_app; simpl; lia).
    split_and!.
    + rewrite (add_number _ _ _ _ E), add_value. by rewrite L.
    + apply inv_add_node; [done | by apply ok_ref_app | by apply ok_ref_new].
    + rewrite <- L. by apply ok_ref_new.
    + intros ρ. rewrite <- L.
      rewrite value_in_add_node;
        [|done | by apply ok_ref_app | by apply ok_ref_new].
      rewrite value_in_app by (done || by destruct Ha).
      rewrite value_in_leaf by done.
      destruct x; simpl in *; by simplify_eq.
  - destruct x as [| |v|]; try done. simpl in Hx.
    exists (length h), [add_node h a v]. split_and!.
    + apply add_value.
    + by apply inv_add_node.
    + by apply ok_ref_new.
    + intros ρ. by rewrite value_in_add_node.
Qed.

Lemma ok_acc_app h l acc : ok_acc h acc → ok_acc (h ++ l) acc.
Proof.
  intros [->|(a & -> & Ha)]; [by left|right]. exists a. split; [done|].
  by apply ok_ref_app.
Qed.

Lemma ok_acc_obj h acc : ok_acc h acc → ok_obj h acc.
Proof. by intros [->|(a & -> & Ha)]. Qed.

(** [acc + p] in [sum]: on the integer 0 the reflected method runs. *)
Lemma py_add_acc_yields h acc p :
  inv h → ok_acc h acc → ok_ref h p →
  yields (py_add acc (PyValue p)) h
    (λ r h', ok_acc h' r ∧ r ≠ PyInt 0 ∧
             ∀ ρ, MLPSpec.obj_at (value_in h' ρ) r =
                  MLPSpec.obj_at (value_in h ρ) acc + value_in h ρ p).
Proof.
  intros Hi [->|(a & -> & Ha)] Hp.
  - destruct (add_yields h p (PyInt 0) Hi Hp) as (q & l & E & Hi' & Hq & Hd);
      [done|].
    exists (PyValue q), l. split_and!; try done.
    + unfold py_add, __radd__. by rewrite (bind_ok _ _ _ _ _ E).
    + right. by exists q.
    + intros ρ. simpl. rewrite Hd. simpl. lra.
  - destruct (add_yields h a (PyValue p) Hi Ha) as (q & l & E & Hi' & Hq & Hd);
      [done|].
    exists (PyValue q), l. split_and!; try done.
    + unfold py_add. by rewrite (bind_ok _ _ _ _ _ E).
    + right. by exists q.
Qed.

Lemma sum_products_yields wx :
  ∀ h acc,
    inv h → Forall (λ p, ok_ref h p.1 ∧ ok_obj h p.2) wx → ok_acc h acc →
    yields (Neuron.sum_products acc wx) h
      (λ acc' h',
         ok_acc h' acc' ∧
         ∀ ρ, MLPSpec.obj_at (value_in h' ρ) acc' =
              MLPSpec.obj_at (value_in h ρ) acc +
              Rsum ((λ p, value_in h ρ p.1 * MLPSpec.obj_at (value_in h ρ) p.2)
                      <$> wx)).
Proof.
  induction wx as [|[w1 x1] wx IH]; intros h acc Hi Hwx Hacc.
  - apply yields_ret; [done|]. split; [done|]. intros ρ.
    csimpl. rewrite Rsum_nil. lra.
  - apply Forall_cons in Hwx as [[Hw1 Hx1] Hwx]. simpl in Hw1, Hx1.
    simpl. eapply yields_bind; [by apply mul_yields|].
    intros p l1 Hi1 [Hp Hd1]. simpl in Hd1.
    eapply yields_bind.
    { apply py_add_acc_yields; [done | by apply ok_acc_app | done]. }
    intros acc1 l2 Hi2 (Hacc1 & _ & Hd2). simpl in Hd2.
    eapply yields_weaken.
    { apply IH; [done | | done].
      eapply Forall_impl; [exact Hwx|]. intros q [Hq1 Hq2]. split.
      - by do 2 apply ok_ref_app.
      - by do 2 apply ok_obj_app. }
    intros acc' l3 Hi3 [Hacc' Hd3]. simpl in Hd3. split; [done|].
    intros ρ. rewrite Hd3, Hd2, Hd1.
    rewrite (obj_at_app h l1) by (done || by apply ok_acc_obj).
    csimpl. rewrite Rsum_cons.
    assert (Rsum ((λ p0, value_in ((h ++ l1) ++ l2) ρ p0.1 *
                         MLPSpec.obj_at (value_in ((h ++ l1) ++ l2) ρ) p0.2)
                    <$> wx) =
            Rsum ((λ p0, value_in h ρ p0.1 *
                         MLPSpec.obj_at (value_in h ρ) p0.2) <$> wx)) as ->.
    { apply Rsum_ext. intros q Hq. rewrite Forall_forall in Hwx.
      destruct (Hwx q Hq) as [Hq1 Hq2]. pose proof Hi as (_ & Hwf & _).
      rewrite <- app_assoc.
      rewrite value_in_app by (done || by destruct Hq1).
      by rewrite obj_at_app. }
    by rewrite Rplus_assoc.
Qed.

Lemma weighted_sum_zip (f : nat → R) (g : pyobj → R) (ws : list nat)
    (x : list pyobj) :
  Rsum ((λ p, f p.1 * g p.2) <$> zip ws x) =
  Rsum (zip_with Rmult (f <$> ws) (g <$> x)).
Proof.
  revert x. induction ws as [|w ws IH]; intros x.
  - done.
  - destruct x as [|o x]; [done|]. csimpl. rewrite !Rsum_cons. by rewrite IH.
Qed.

Lemma zip_refs h (ws : list nat) (x : list pyobj) :
  Forall (ok_ref h) ws → Forall (ok_obj h) x →
  Forall (λ p, ok_ref h p.1 ∧ ok_obj h p.2) (zip ws x).
Proof.
  intros Hw. revert x. induction Hw as [|v ws Hv Hws IH]; intros x Hx.
  - by apply Forall_nil.
  - destruct Hx as [|o x Ho Hx]; [by apply Forall_nil|].
    simpl. apply Forall_cons. split; [done|]. by apply IH.
Qed.

Lemma params_values h ρ (ps : list nat) :
  Forall P ps → value_in h ρ <$> ps = ρ <$> ps.
Proof.
  intros Hps. apply Forall_fmap_ext_1.
  eapply Forall_impl; [exact Hps|]. intros q Hq.
  apply value_in_old. by apply P_old.
Qed.

(** Applying a neuron to a list of numbers and usable nodes. *)
Lemma neuron_yields h n x :
  inv h → Forall P (Neuron.parameters n) → Forall (ok_obj h) x →
  yields (Neuron.__call__ n x) h
    (λ out h',
       ok_ref h' out ∧
       ∀ ρ, value_in h' ρ out =
            MLPSpec.neuron_eval ρ n (MLPSpec.obj_at (value_in h ρ) <$> x)).
Proof.
  intros Hi Hn Hx. unfold Neuron.parameters in Hn.
  apply Forall_app in Hn as [Hw Hb].
  apply Forall_cons in Hb as [Hb _].
  assert (Forall (ok_ref h) (Neuron.w n)) as Hw'.
  { eapply Forall_impl; [exact Hw|]. intros q Hq. by apply ok_ref_param. }
  unfold Neuron.__call__.
  eapply yields_bind.
  { apply sum_products_yields; [done | by apply zip_refs | by left]. }
  intros s l1 Hi1 [Hs Hd1]. simpl in Hd1.
  eapply yields_bind.
  { apply py_add_acc_yields; [done | done | by apply ok_ref_param]. }
  intros act l2 Hi2 (Hact & Hne & Hd2). simpl in Hd2.
  destruct Hact as [->|(a & -> & Ha)]; [done|].
  exists (length ((h ++ l1) ++ l2)), [tanh_node ((h ++ l1) ++ l2) a].
  split_and!.
  - apply tanh_eq.
  - by apply inv_tanh_node.
  - by apply ok_ref_new.
  - intros ρ. rewrite value_in_tanh_node by done.
    simpl in Hd2. rewrite Hd2, Hd1. simpl.
    unfold MLPSpec.neuron_eval. rewrite weighted_sum_zip.
    rewrite params_values by done.
    rewrite !value_in_old by (by apply P_old). f_equal. lra.
Qed.

Lemma obj_ats_app h l ρ (xs : list pyobj) :
  inv h → Forall (ok_obj h) xs →
  MLPSpec.obj_at (value_in (h ++ l) ρ) <$> xs =
  MLPSpec.obj_at (value_in h ρ) <$> xs.
Proof.
  intros Hi Hxs. apply Forall_fmap_ext_1.
  eapply Forall_impl; [exact Hxs|]. intros o Ho. by apply obj_at_app.
Qed.

(** [[n(x) for n in self.neurons]] on a list. *)
Lemma call_neurons_yields ns xs :
  ∀ h, inv h → Forall (λ n, Forall P (Neuron.parameters n)) ns →
    Forall (ok_obj h) xs →
    yields (MLP.call_neurons ns (MLP.VList xs)) h
      (λ outs h',
         Forall (ok_ref h') outs ∧
         ∀ ρ, value_in h' ρ <$> outs =
              (λ n, MLPSpec.neuron_eval ρ n
                      (MLPSpec.obj_at (value_in h ρ) <$> xs)) <$> ns).
Proof.
  induction ns as [|n ns IH]; intros h Hi Hns Hx.
  - apply yields_ret; [done|]. by split.
  - apply Forall_cons in Hns as [Hn Hns]. simpl.
    eapply yields_bind; [by apply neuron_yields|].
    intros o l1 Hi1 [Ho Hd1]. simpl in Hd1.
    eapply yields_bind.
    { apply IH; [done|done|].
      eapply Forall_impl; [exact Hx|]. intros. by apply ok_obj_app. }
    intros os l2 Hi2 [Hos Hd2]. simpl in Hd2.
    apply yields_ret; [done|]. split.
    + apply Forall_cons. split; [by apply ok_ref_app | done].
    + intros ρ. csimpl. rewrite Hd2.
      pose proof Hi1 as (_ & Hwf1 & _).
      rewrite value_in_app, Hd1 by (done || by destruct Ho).
      by rewrite obj_ats_app.
Qed.

Lemma ok_val_nodes h (vs : list nat) :
  Forall (ok_ref h) vs → Forall (ok_obj h) (PyValue <$> vs).
Proof. intros Hvs. by apply Forall_fmap. Qed.

(** [Layer.__call__] on a list. *)
Lemma call_layer_yields h layer xs :
  inv h → Forall (λ n, Forall P (Neuron.parameters n)) (Layer.neurons layer) →
  Forall (ok_obj h) xs →
  yields (MLP.call_layer layer (MLP.VList xs)) h
    (λ o h',
       ok_val h' (MLP.of_output o) ∧
       (∀ ρ, MLPSpec.vals (value_in h' ρ) (MLP.of_output o) =
             MLPSpec.layer_eval ρ layer
               (MLPSpec.obj_at (value_in h ρ) <$> xs)) ∧
       match o with
       | Layer.Single _ => length (Layer.neurons layer) = 1%nat
       | Layer.Many _ => length (Layer.neurons layer) ≠ 1%nat
       end).
Proof.
  intros Hi Hl Hx. unfold MLP.call_layer.
  eapply yields_bind; [by apply call_neurons_yields|].
  intros outs l1 Hi1 [Hos Hd]. simpl in Hd.
  apply yields_ret; [done|].
  assert (length outs = length (Layer.neurons layer)) as Hlen.
  { rewrite <- (length_fmap (value_in (h ++ l1) (λ _, 0))), Hd.
    by rewrite length_fmap. }
  unfold MLPSpec.layer_eval.
  destruct outs as [|o [|o' outs]]; simpl.
  - split_and!; [by apply Forall_nil | intros ρ; by rewrite <- Hd
                | rewrite <- Hlen; simpl; lia].
  - split_and!; [by apply Forall_cons in Hos as [? _]
                | intros ρ; by rewrite <- Hd | by rewrite <- Hlen].
  - split_and!.
    + by apply (ok_val_nodes _ (o :: o' :: outs)).
    + intros ρ. rewrite <- Hd. simpl. do 2 f_equal.
      by rewrite <- list_fmap_compose.
    + rewrite <- Hlen. simpl. lia.
Qed.

Lemma scalar_output_cons l l' ls :
  MLPSpec.scalar_output (l :: l' :: ls) ↔ MLPSpec.scalar_output (l' :: ls).
Proof. unfold MLPSpec.scalar_output. by rewrite last_cons_cons. Qed.

Lemma scalar_output_one l :
  MLPSpec.scalar_output [l] ↔ length (Layer.neurons l) = 1%nat.
Proof.
  unfold MLPSpec.scalar_output. simpl. split.
  - by intros (l0 & [= <-] & H).
  - intros H. by exists l.
Qed.

Lemma scalar_output_nil : ¬ MLPSpec.scalar_output [].
Proof. by intros (l & H & _). Qed.

(** [MLP.__call__] on a list, when every layer but the last returns a
    list. *)
Lemma call_layers_yields ls :
  ∀ h xs, inv h →
    Forall (λ n, Forall P (Neuron.parameters n))
      (ls ≫= Layer.neurons) →
    MLPSpec.chained ls → Forall (ok_obj h) xs →
    yields (MLP.call_layers ls (MLP.VList xs)) h
      (λ y h',
         ok_val h' y ∧
         (∀ ρ, MLPSpec.vals (value_in h' ρ) y =
               MLPSpec.layers_eval ρ ls
                 (MLPSpec.obj_at (value_in h ρ) <$> xs)) ∧
         match y with
         | MLP.VValue _ => MLPSpec.scalar_output ls
         | MLP.VList _ => ¬ MLPSpec.scalar_output ls
         end).
Proof.
  induction ls as [|layer ls IH]; intros h xs Hi Hls Hch Hx.
  - apply yields_ret; [done|]. split_and!; try done. apply scalar_output_nil.
  - rewrite bind_cons in Hls. apply Forall_app in Hls as [Hl Hls].
    change (MLP.call_layers (layer :: ls) (MLP.VList xs))
      with (o ← MLP.call_layer layer (MLP.VList xs);
            MLP.call_layers ls (MLP.of_output o)).
    eapply yields_bind; [by apply call_layer_yields|].
    intros o l1 Hi1 (Ho & Hd1 & Hshape). simpl in Hd1.
    destruct ls as [|layer' ls].
    + apply yields_ret; [done|]. split_and!; try done.
      destruct o; simpl; rewrite scalar_output_one; done.
    + destruct Hch as [Hne Hch].
      destruct o as [v|vs]; [done|]. simpl in Ho, Hd1.
      eapply yields_weaken.
      { apply IH; [done | done | done | done]. }
      intros y l2 Hi2 (Hy & Hd2 & Hs). split_and!; [done | |].
      * intros ρ. rewrite Hd2, Hd1. done.
      * destruct y; by rewrite scalar_output_cons.
Qed.

(** A layer of one neuron in the middle: the next layer is given a node
    where it iterates, and raises. *)
Lemma call_layers_type_error pre :
  ∀ h xs l1 l2 post,
    inv h →
    Forall (λ n, Forall P (Neuron.parameters n))
      ((pre ++ [l1]) ≫= Layer.neurons) →
    Forall (λ l, length (Layer.neurons l) ≠ 1%nat) pre →
    length (Layer.neurons l1) = 1%nat → Layer.neurons l2 ≠ [] →
    Forall (ok_obj h) xs →
    ∃ l, MLP.call_layers (pre ++ l1 :: l2 :: post) (MLP.VList xs) h =
         Raise TypeError (h ++ l).
Proof.
  induction pre as [|layer pre IH];
    intros h xs l1 l2 post Hi Hls Hpre H1 H2 Hx.
  - rewrite app_nil_l, bind_cons in Hls.
    apply Forall_app in Hls as [Hl _]. simpl.
    destruct (call_layer_yields h l1 xs Hi Hl Hx)
      as (o & l & E & Hi' & _ & _ & Hshape).
    exists l. rewrite (bind_ok _ _ _ _ _ E).
    destruct o as [v|vs]; [|done]. simpl.
    apply bind_raise. unfold MLP.call_layer. apply bind_raise.
    destruct (Layer.neurons l2) as [|n ns]; [done|]. simpl.
    by apply bind_raise.
  - rewrite <- app_comm_cons, bind_cons in Hls.
    apply Forall_app in Hls as [Hl Hls].
    apply Forall_cons in Hpre as [Hne Hpre]. simpl.
    destruct (call_layer_yields h layer xs Hi Hl Hx)
      as (o & l & E & Hi' & Ho & _ & Hshape).
    rewrite (bind_ok _ _ _ _ _ E).
    destruct o as [v|vs]; [done|]. simpl in *.
    destruct (IH (h ++ l) (PyValue <$> vs) l1 l2 post Hi') as [l' E'];
      try done.
    exists (l ++ l'). by rewrite app_assoc.
Qed.

(** *** The loss of [ValueTrainer.train] *)

Lemma num_obj_at ρ o :
  MLPSpec.is_number o → MLPSpec.obj_at ρ o = MLPSpec.num o.
Proof. destruct o; intros [? ?]; simpl in *; done. Qed.

Lemma number_ok h o : MLPSpec.is_number o → ok_obj h o.
Proof. destruct o; intros [? ?]; simpl in *; done. Qed.

Lemma nums_obj_at ρ (x : list pyobj) :
  Forall MLPSpec.is_number x →
  MLPSpec.obj_at ρ <$> x = MLPSpec.num <$> x.
Proof.
  intros Hx. apply Forall_fmap_ext_1.
  eapply Forall_impl; [exact Hx|]. intros o Ho. by apply num_obj_at.
Qed.

(** [yout - ygt] for a node and a number. *)
Lemma sub_number_yields h v y :
  inv h → ok_ref h v → MLPSpec.is_number y →
  yields (__sub__ v y) h
    (λ d h', ok_ref h' d ∧
             ∀ ρ, value_in h' ρ d = value_in h ρ v - MLPSpec.num y).
Proof.
  intros Hi Hv Hy. unfold __sub__.
  destruct y as [z|r|w|]; try (by destruct Hy).
  - eapply yields_weaken; [apply (add_yields h v (PyInt (- z))); done|].
    intros d l _ [Hd Hval]. split; [done|]. intros ρ.
    rewrite Hval. unfold MLPSpec.num. simpl. rewrite opp_IZR. lra.
  - eapply yields_weaken; [apply (add_yields h v (PyFloat (- r))); done|].
    intros d l _ [Hd Hval]. split; [done|]. intros ρ.
    rewrite Hval. unfold MLPSpec.num. simpl. lra.
Qed.

(** [d ** 2] *)
Lemma square_yields h d :
  inv h → ok_ref h d →
  yields (__pow__ d (PyInt 2)) h
    (λ e h', ok_ref h' e ∧
             ∀ ρ, value_in h' ρ e = value_in h ρ d * value_in h ρ d).
Proof.
  intros Hi Hd.
  exists (length h), [pow_node_of h d 2 (data_of h d * data_of h d)].
  split_and!.
  - simpl. apply pow_node_val, pow_two.
  - by apply inv_square_node.
  - by apply ok_ref_new.
  - intros ρ. by apply value_in_square_node.
Qed.

Lemma squared_error_yields h y v :
  inv h → MLPSpec.is_number y → ok_ref h v →
  yields (ValueTrainer.squared_error y (MLP.VValue v)) h
    (λ e h', ok_ref h' e ∧
             ∀ ρ, value_in h' ρ e =
                  (value_in h ρ v - MLPSpec.num y) *
                  (value_in h ρ v - MLPSpec.num y)).
Proof.
  intros Hi Hy Hv. unfold ValueTrainer.squared_error.
  eapply yields_bind; [by apply sub_number_yields|].
  intros d l1 Hi1 [Hd Hval1]. simpl in Hval1.
  eapply yields_weaken; [by apply square_yields|].
  intros e l2 Hi2 [He Hval2]. split; [done|]. intros ρ.
  by rewrite Hval2, Hval1.
Qed.

Lemma values_app h l ρ (vs : list nat) :
  inv h → Forall (ok_ref h) vs →
  value_in (h ++ l) ρ <$> vs = value_in h ρ <$> vs.
Proof.
  intros (_ & Hwf & _) Hvs. apply Forall_fmap_ext_1.
  eapply Forall_impl; [exact Hvs|]. intros v [Hv _]. by apply value_in_app.
Qed.

Lemma ok_refs_app h l (vs : list nat) :
  Forall (ok_ref h) vs → Forall (ok_ref (h ++ l)) vs.
Proof.
  intros Hvs. eapply Forall_impl; [exact Hvs|]. intros. by apply ok_ref_app.
Qed.

(** [[(yout - ygt) ** 2 for ygt, yout in zip(ys, ypred)]] on numbers and
    nodes. *)
Lemma squared_errors_yields ys :
  ∀ h vs, inv h → Forall MLPSpec.is_number ys → Forall (ok_ref h) vs →
    yields (ValueTrainer.squared_errors (zip ys (MLP.VValue <$> vs))) h
      (λ es h',
         Forall (ok_ref h') es ∧
         ∀ ρ, value_in h' ρ <$> es =
              zip_with (λ y x, (x - MLPSpec.num y) * (x - MLPSpec.num y))
                ys (value_in h ρ <$> vs)).
Proof.
  induction ys as [|y ys IH]; intros h vs Hi Hys Hvs.
  - apply yields_ret; [done|]. by split.
  - destruct vs as [|v vs].
    { apply yields_ret; [done|]. by split. }
    apply Forall_cons in Hys as [Hy Hys].
    apply Forall_cons in Hvs as [Hv Hvs].
    change (ValueTrainer.squared_errors
              (zip (y :: ys) (MLP.VValue <$> v :: vs)))
      with (e ← ValueTrainer.squared_error y (MLP.VValue v);
            es ← ValueTrainer.squared_errors (zip ys (MLP.VValue <$> vs));
            ret (e :: es)).
    eapply yields_bind; [by apply squared_error_yields|].
    intros e l1 Hi1 [He Hval1]. simpl in Hval1.
    eapply yields_bind; [apply IH; [done | done | by apply ok_refs_app]|].
    intros es l2 Hi2 [Hes Hval2]. simpl in Hval2.
    apply yields_ret; [done|]. split.
    + apply Forall_cons. split; [by apply ok_ref_app | done].
    + intros ρ. csimpl. rewrite Hval2.
      pose proof Hi1 as (_ & Hwf1 & _).
      rewrite value_in_app, Hval1 by (done || by destruct He).
      by rewrite values_app.
Qed.

(** [sum(items)] on nodes. *)
Lemma py_sum_yields es :
  ∀ h acc, inv h → ok_acc h acc → Forall (ok_ref h) es →
    yields (ValueTrainer.py_sum acc es) h
      (λ r h',
         ok_acc h' r ∧ (acc ≠ PyInt 0 ∨ es ≠ [] → r ≠ PyInt 0) ∧
         ∀ ρ, MLPSpec.obj_at (value_in h' ρ) r =
              MLPSpec.obj_at (value_in h ρ) acc + Rsum (value_in h ρ <$> es)).
Proof.
  induction es as [|e es IH]; intros h acc Hi Hacc Hes.
  - apply yields_ret; [done|]. split_and!; try done.
    + by intros [?|?].
    + intros ρ. csimpl. rewrite Rsum_nil. lra.
  - apply Forall_cons in Hes as [He Hes]. simpl.
    eapply yields_bind; [by apply py_add_acc_yields|].
    intros acc1 l1 Hi1 (Hacc1 & Hne & Hval1). simpl in Hval1.
    eapply yields_weaken; [apply IH; [done | done | by apply ok_refs_app]|].
    intros r l2 Hi2 (Hr & Hnz & Hval2). simpl in Hval2.
    split_and!; [done | |].
    + intros _. apply Hnz. by left.
    + intros ρ. rewrite Hval2, Hval1. csimpl. rewrite Rsum_cons.
      rewrite values_app by done. by rewrite Rplus_assoc.
Qed.

(** [ypred = [model(x) for x in xs]] on lists of numbers, for a model that
    returns a single node. *)
Lemma predict_yields (model : MLP.t) (xs : list (list pyobj)) :
  ∀ h, inv h →
    Forall (λ n, Forall P (Neuron.parameters n))
      (MLP.layers model ≫= Layer.neurons) →
    MLPSpec.chained (MLP.layers model) →
    MLPSpec.scalar_output (MLP.layers model) →
    Forall (Forall MLPSpec.is_number) xs →
    yields (ValueTrainer.predict model (MLP.VList <$> xs)) h
      (λ ypred h',
         ∃ vs, ypred = MLP.VValue <$> vs ∧ Forall (ok_ref h') vs ∧
               ∀ ρ, value_in h' ρ <$> vs =
                    (λ x, MLPSpec.output ρ (MLP.layers model)
                            (MLPSpec.num <$> x)) <$> xs).
Proof.
  induction xs as [|x xs IH]; intros h Hi Hps Hch Hsc Hxs.
  - apply yields_ret; [done|]. exists []. by split_and!.
  - apply Forall_cons in Hxs as [Hx Hxs].
    change (ValueTrainer.predict model (MLP.VList <$> x :: xs))
      with (y ← MLP.__call__ model (MLP.VList x);
            ys ← ValueTrainer.predict model (MLP.VList <$> xs);
            ret (y :: ys)).
    eapply yields_bind.
    { apply call_layers_yields; [done | done | done |].
      eapply Forall_impl; [exact Hx|]. intros o Ho. by apply number_ok. }
    intros y l1 Hi1 (Hy & Hval1 & Hshape). simpl in Hval1.
    destruct y as [vs0|v]; [done|]. simpl in Hy.
    eapply yields_bind; [by apply IH|].
    intros ys l2 Hi2 (vs & -> & Hvs & Hval2). simpl in Hval2.
    apply yields_ret; [done|]. exists (v :: vs). split_and!; [done | |].
    + apply Forall_cons. split; [by apply ok_ref_app | done].
    + intros ρ. csimpl. rewrite Hval2. f_equal.
      pose proof Hi1 as (_ & Hwf1 & _).
      rewrite value_in_app by (done || by destruct Hy).
      unfold MLPSpec.output. rewrite <- (nums_obj_at (value_in h ρ)) by done.
      rewrite <- Hval1. done.
Qed.

(** The three statements of [train] that compute the loss. *)
Lemma loss_yields (model : MLP.t) (xs : list (list pyobj))
    (ys : list pyobj) (h : heap) :
  inv h →
  Forall (λ n, Forall P (Neuron.parameters n))
    (MLP.layers model ≫= Layer.neurons) →
  MLPSpec.chained (MLP.layers model) →
  MLPSpec.scalar_output (MLP.layers model) →
  Forall (Forall MLPSpec.is_number) xs → Forall MLPSpec.is_number ys →
  yields ((ypred ← ValueTrainer.predict model (MLP.VList <$> xs);
           errs ← ValueTrainer.squared_errors (zip ys ypred);
           ValueTrainer.py_sum (PyInt 0) errs) : M pyobj) h
    (λ loss h',
       ok_acc h' loss ∧ (xs ≠ [] → ys ≠ [] → loss ≠ PyInt 0) ∧
       ∀ ρ, MLPSpec.obj_at (value_in h' ρ) loss =
            MLPSpec.l2_loss ρ (MLP.layers model)
              ((λ x : list pyobj, MLPSpec.num <$> x) <$> xs)
              (MLPSpec.num <$> ys)).
Proof.
  intros Hi Hps Hch Hsc Hxs Hys.
  eapply yields_bind; [by apply predict_yields|].
  intros ypred l1 Hi1 (vs & -> & Hvs & Hval1). simpl in Hval1.
  eapply yields_bind; [by apply squared_errors_yields|].
  intros es l2 Hi2 (Hes & Hval2). simpl in Hval2.
  eapply yields_weaken; [apply py_sum_yields; [done | by left | done]|].
  intros loss l3 Hi3 (Hloss & Hnz & Hval3). simpl in Hval3.
  assert (length vs = length xs) as Hlen.
  { rewrite <- (length_fmap (value_in (h ++ l1) (λ _, 0))), Hval1.
    by rewrite length_fmap. }
  assert (length es = length (zip ys vs)) as Hlen2.
  { rewrite <- (length_fmap (value_in ((h ++ l1) ++ l2) (λ _, 0))), Hval2.
    rewrite zip_with_zip, !length_fmap.
    rewrite !length_zip, length_fmap. done. }
  split_and!; [done | |].
  - intros Hx Hy. apply Hnz. right. intros ->.
    rewrite length_zip, Hlen in Hlen2.
    destruct xs; [done|]. destruct ys; [done|]. simpl in Hlen2. lia.
  - intros ρ. rewrite Hval3, Hval2, Hval1. simpl.
    unfold MLPSpec.l2_loss.
    rewrite zip_with_fmap_l, !zip_with_fmap_r. rewrite Rplus_0_l.
    done.
Qed.

(** Below a usable node there are usable nodes only, when the nodes of
    [P] are leaves. *)
Lemma reachable_usable h m n :
  inv h → (∀ q, P q → backward_of h0 q = BNone) →
  usable m → reachable h m n → usable n.
Proof.
  intros ([l ->] & Hwf & Hnodes) Hleaf Hm Hr.
  induction Hr as [|m p n He Hr IH]; [done|]. apply IH.
  destruct (decide (length h0 ≤ m)%nat) as [Hge|Hlt].
  - destruct (Hnodes m Hge) as (_ & _ & _ & Hprev). by apply Hprev.
  - destruct Hm as [?|Hq]; [lia|]. exfalso.
    unfold edge in He. rewrite (leaf_no_prev (h0 ++ l) m Hwf) in He.
    + set_solver.
    + rewrite backward_of_app_l by lia. by apply Hleaf.
Qed.

(** [ypred = [model(x) for x in xs]]: every prediction has the shape that
    the last layer decides. *)
Lemma predict_shape (model : MLP.t) (xs : list (list pyobj)) :
  ∀ h, inv h →
    Forall (λ n, Forall P (Neuron.parameters n))
      (MLP.layers model ≫= Layer.neurons) →
    MLPSpec.chained (MLP.layers model) →
    Forall (Forall MLPSpec.is_number) xs →
    yields (ValueTrainer.predict model (MLP.VList <$> xs)) h
      (λ ypred h',
         length ypred = length xs ∧
         Forall (λ y, match y with
                      | MLP.VValue _ => MLPSpec.scalar_output (MLP.layers model)
                      | MLP.VList _ =>
                          ¬ MLPSpec.scalar_output (MLP.layers model)
                      end) ypred).
Proof.
  induction xs as [|x xs IH]; intros h Hi Hps Hch Hxs.
  - apply yields_ret; [done|]. by split.
  - apply Forall_cons in Hxs as [Hx Hxs].
    change (ValueTrainer.predict model (MLP.VList <$> x :: xs))
      with (y ← MLP.__call__ model (MLP.VList x);
            ys ← ValueTrainer.predict model (MLP.VList <$> xs);
            ret (y :: ys)).
    eapply yields_bind.
    { apply call_layers_yields; [done | done | done |].
      eapply Forall_impl; [exact Hx|]. intros o Ho. by apply number_ok. }
    intros y l1 Hi1 (_ & _ & Hshape).
    eapply yields_bind; [by apply IH|].
    intros ys l2 Hi2 (Hlen & Hall).
    apply yields_ret; [done|]. split; [simpl; by rewrite Hlen|].
    by apply Forall_cons.
Qed.

End FreshFacts.

(** ** The steps of the trainer *)

Section TrainFacts.
Import Value Graph Chain Alloc NeuronSpec.

(** *** Assignments to [data] *)

Lemma data_of_set_data h d v n :
  data_of (alter (ValueTrainer.set_data d) v h) n =
  if decide (n = v ∧ (v < length h)%nat) then d else data_of h n.
Proof.
  unfold data_of. rewrite list_lookup_alter.
  destruct (decide (v = n)) as [->|Hne].
  - destruct (h !! n) eqn:E; simpl.
    + apply lookup_lt_Some in E. by rewrite decide_True.
    + apply lookup_ge_None in E. rewrite decide_False; [done | lia].
  - rewrite decide_False; [done | naive_solver].
Qed.

Lemma grad_of_set_data h d v n :
  grad_of (alter (ValueTrainer.set_data d) v h) n = grad_of h n.
Proof.
  unfold grad_of. rewrite list_lookup_alter. case_decide; [subst|done].
  by destruct (h !! n).
Qed.

Lemma prev_of_set_data h d v n :
  prev_of (alter (ValueTrainer.set_data d) v h) n = prev_of h n.
Proof.
  unfold prev_of. rewrite list_lookup_alter. case_decide; [subst|done].
  by destruct (h !! n).
Qed.

Lemma backward_of_set_data h d v n :
  backward_of (alter (ValueTrainer.set_data d) v h) n = backward_of h n.
Proof.
  unfold backward_of. rewrite list_lookup_alter. case_decide; [subst|done].
  by destruct (h !! n).
Qed.

(** [for p in model.parameters(): p.grad = 0.0] *)
Lemma zero_grad_spec ps :
  ∀ h, ∃ h',
    ValueTrainer.zero_grad ps h = Ok () h' ∧ same_graph h h' ∧
    ∀ n, grad_of h' n = if decide (n ∈ ps) then 0 else grad_of h n.
Proof.
  induction ps as [|p ps IH]; intros h.
  - exists h. split_and!; [done | apply same_graph_refl |].
    intros n. rewrite decide_False; [done|]. set_solver.
  - destruct (IH (alter (set_grad 0) p h)) as (h' & E & Hs & Hg).
    exists h'. split_and!.
    + done.
    + eapply same_graph_trans; [apply same_graph_set_grad | done].
    + intros n. rewrite Hg, grad_of_set_grad.
      destruct (decide (n ∈ ps)) as [Hin|Hnin].
      * rewrite decide_True; [done|]. set_solver.
      * destruct (decide (n = p)) as [->|Hne].
        -- rewrite (decide_True (P := p ∈ p :: ps)) by set_solver.
           case_decide as Hc; [done|].
           apply grad_of_ge. destruct (decide (p < length h)%nat); [|lia].
           destruct Hc. done.
        -- rewrite decide_False by (intros [? _]; done).
           rewrite decide_False; [done|]. set_solver.
Qed.

(** [for p in model.parameters(): p.data -= lr * p.grad] *)
Lemma descend_spec lr ps :
  NoDup ps →
  ∀ h, ∃ h',
    ValueTrainer.descend lr ps h = Ok () h' ∧ length h' = length h ∧
    (∀ n, grad_of h' n = grad_of h n ∧ prev_of h' n = prev_of h n ∧
          backward_of h' n = backward_of h n) ∧
    ∀ n, data_of h' n =
         if decide (n ∈ ps) then data_of h n - lr * grad_of h n
         else data_of h n.
Proof.
  induction 1 as [|p ps Hnin Hnd IH]; intros h.
  - exists h. split_and!; try done.
  - set (h1 := alter (ValueTrainer.set_data (data_of h p - lr * grad_of h p))
                 p h).
    destruct (IH h1) as (h' & E & Hlen & Hsame & Hd).
    exists h'. split_and!.
    + done.
    + rewrite Hlen. apply length_alter.
    + intros n. destruct (Hsame n) as (-> & -> & ->). unfold h1.
      by rewrite grad_of_set_data, prev_of_set_data, backward_of_set_data.
    + intros n. rewrite Hd. unfold h1.
      rewrite grad_of_set_data, data_of_set_data.
      destruct (decide (n = p)) as [->|Hne].
      * rewrite (decide_False (P := p ∈ ps)) by done.
        rewrite (decide_True (P := p ∈ p :: ps)) by set_solver.
        case_decide as Hc; [done|].
        assert (length h ≤ p)%nat as Hge.
        { destruct (decide (p < length h)%nat); [|lia]. destruct Hc. done. }
        rewrite data_of_ge, grad_of_ge by done. lra.
      * rewrite (decide_False (P := n = p ∧ _)) by (intros [? _]; done).
        destruct (decide (n ∈ ps)).
        -- rewrite decide_True; [done|]. set_solver.
        -- rewrite decide_False; [done|]. set_solver.
Qed.

Lemma wf_struct h h' :
  (∀ n, prev_of h' n = prev_of h n ∧ backward_of h' n = backward_of h n) →
  wf h → wf h'.
Proof.
  intros Hs Hwf i. specialize (Hwf i). unfold closure_ok in *.
  by destruct (Hs i) as (-> & ->).
Qed.

(** *** The derivative, on a graph whose values are right below the
    root *)

Lemma value_ok_same_graph h h' i :
  same_graph h h' → value_ok h i → value_ok h' i.
Proof.
  intros [_ Hs] Hv. unfold value_ok in *.
  destruct (Hs i) as (Hd & _ & ->).
  destruct (backward_of h i); rewrite ?Hd; try done;
    repeat match goal with |- context [data_of h' ?x] =>
      rewrite (proj1 (Hs x)) end; done.
Qed.

Lemma reeval_same_graph h h' n x :
  same_graph h h' → ∀ fuel m, reeval fuel h' n x m = reeval fuel h n x m.
Proof.
  intros [_ Hs]. induction fuel as [|fuel IH]; intros m; [done|].
  simpl. case_decide; [done|].
  destruct (Hs m) as (-> & _ & ->).
  destruct (backward_of h m); by rewrite ?IH.
Qed.

Lemma reeval_data_local h n :
  wf h →
  ∀ fuel m, (m < fuel)%nat → (∀ v, reachable h m v → value_ok h v) →
    reeval fuel h n (data_of h n) m = data_of h m.
Proof.
  intros Hwf. induction fuel as [|fuel IH]; intros m ? Hc; [lia|].
  simpl. case_decide; [by subst|].
  pose proof (Hwf m) as Hm. pose proof (Hc m (rtc_refl _ _)) as Hv.
  unfold closure_ok in Hm. unfold value_ok in Hv.
  assert (∀ s, s ∈ prev_of h m → (s < fuel)%nat →
            reeval fuel h n (data_of h n) s = data_of h s) as IHs.
  { intros s Hs Hlt. apply IH; [done|]. intros v Hr. apply Hc.
    by eapply rtc_l. }
  destruct (backward_of h m); destruct_and?; try done;
    rewrite ?(IHs self), ?(IHs other) by (lia || naive_solver); try done.
  - by rewrite (pow_total_val _ _ _ Hv).
  - congruence.
Qed.

Lemma reeval_deriv_local h n :
  wf h →
  ∀ fuel m, (m < fuel)%nat →
    (∀ v, reachable h m v → value_ok h v ∧ closure_defined h v) →
    derivable_pt_lim (λ x, reeval fuel h n x m) (data_of h n)
      (chain_grad h m n).
Proof.
  intros Hwf. induction fuel as [|fuel IH]; intros m Hm Hall; [lia|].
  rewrite chain_grad_first by done. simpl. case_decide as E.
  { apply derivable_pt_lim_id. }
  pose proof (Hwf m) as Hok.
  destruct (Hall m (rtc_refl _ _)) as [Hv Hd].
  unfold closure_ok in Hok. unfold value_ok in Hv.
  unfold closure_defined in Hd. unfold edges.
  assert (∀ s, s ∈ prev_of h m → (s < fuel)%nat →
    derivable_pt_lim (λ x, reeval fuel h n x s) (data_of h n)
      (chain_grad h s n)) as IHs.
  { intros s Hs Hlt. apply IH; [done|]. intros v Hr. apply Hall.
    by eapply rtc_l. }
  assert (∀ s, s ∈ prev_of h m → (s < fuel)%nat →
            reeval fuel h n (data_of h n) s = data_of h s) as Hdata.
  { intros s Hs Hlt. apply reeval_data_local; [done|done|].
    intros v Hr. apply Hall. by eapply rtc_l. }
  destruct (backward_of h m) as [|s o out|s o out|s k out|s t0 out|s out];
    csimpl; rewrite ?Rsum_cons, ?Rsum_nil.
  - apply derivable_pt_lim_const.
  - destruct Hok as (_ & Hp & ? & ?).
    eapply derivable_pt_lim_eq;
      [|apply derivable_pt_lim_plus; apply IHs; (by apply Hp; eauto) || lia].
    lra.
  - destruct Hok as (_ & Hp & ? & ?).
    eapply derivable_pt_lim_eq;
      [|apply derivable_pt_lim_mult; apply IHs; (by apply Hp; eauto) || lia].
    cbv beta. rewrite !Hdata by ((by apply Hp; eauto) || lia). lra.
  - destruct Hok as (_ & Hp & ?). destruct Hd as [p Hp'].
    eapply derivable_pt_lim_eq;
      [|apply (derivable_pt_lim_comp _ (λ y, PyNum.pow_total y k));
        [apply IHs; (by apply Hp) || lia|]].
    2:{ cbv beta. rewrite Hdata by ((by apply Hp) || lia).
        eapply pow_total_deriv; eauto. }
    rewrite (pow_total_val _ _ _ Hp'). lra.
  - destruct Hok as (_ & Hp & ?). destruct Hv as [-> _].
    eapply derivable_pt_lim_eq;
      [|apply (derivable_pt_lim_comp _ PyNum.tanh_formula);
        [apply IHs; (by apply Hp) || lia|]].
    2:{ cbv beta. rewrite Hdata by ((by apply Hp) || lia).
        apply tanh_formula_deriv. }
    unfold PyNum.pow_total. rewrite pow_two. lra.
  - destruct Hok as (-> & Hp & ?).
    eapply derivable_pt_lim_eq;
      [|apply (derivable_pt_lim_comp _ Rtrigo_def.exp);
        [apply IHs; (by apply Hp) || lia|]].
    2:{ cbv beta. rewrite Hdata by ((by apply Hp) || lia).
        apply derivable_pt_lim_exp. }
    rewrite Hv. lra.
Qed.

(** [backward] leaves the [grad] of a node that is not below the root. *)
Lemma backward_unreachable iter fuel root h n :
  wf h → iter_ok iter → ¬ reachable h root n →
  grad_of (final_heap (backward iter fuel root h)) n = grad_of h n.
Proof.
  intros Hwf Hiter Hn. rewrite backward_eq.
  destruct (build_topo iter fuel h root topo_empty) as [s|] eqn:Es; [|done].
  destruct (schedule_facts iter Hiter h root fuel s Hwf Es)
    as (_ & Hmem & _ & _).
  pose proof (same_graph_set_grad h 1 root) as Hs0.
  assert (wf (alter (set_grad 1) root h)) as Hwf0 by (by eapply wf_same_graph).
  destruct (run_all_frame _ (reverse (topo s)) Hwf0) as [_ Hframe].
  rewrite Hframe.
  - rewrite grad_of_set_grad, decide_False; [done|].
    intros [-> _]. apply Hn, rtc_refl.
  - intros v Hv He. apply Hmem in Hv. apply Hn.
    eapply rtc_r; [exact Hv|]. unfold edge in *.
    destruct Hs0 as [_ Hs0]. by destruct (Hs0 v) as (_ & <- & _).
Qed.

Lemma derivable_pt_lim_ext f g a l :
  (∀ x, f x = g x) → derivable_pt_lim f a l → derivable_pt_lim g a l.
Proof.
  intros Hfg Hf eps Heps. destruct (Hf eps Heps) as [delta Hd].
  exists delta. intros t Ht Hlt. rewrite <- !Hfg. by apply Hd.
Qed.

(** A call that returned returns the same with a deeper nesting allowed. *)
Lemma backward_fuel_mono iter fuel fuel' root h h' :
  (fuel ≤ fuel')%nat →
  backward iter fuel root h = Ok () h' →
  backward iter fuel' root h = Ok () h'.
Proof.
  intros Hle. rewrite !backward_eq.
  destruct (build_topo iter fuel h root topo_empty) as [s|] eqn:Es; [|done].
  by rewrite (build_topo_mono iter h fuel fuel' root _ s Hle Es).
Qed.

Lemma bind_assoc3 {A B C D} (m1 : M A) (m2 : A → M B) (m3 : B → M C)
    (k : C → M D) h :
  (m1 ≫= λ a, m2 a ≫= λ b, m3 b ≫= k) h =
  ((m1 ≫= λ a, m2 a ≫= λ b, m3 b) ≫= k) h.
Proof.
  unfold mbind, M_bind, bind. destruct (m1 h) as [a h'|]; [|done].
  by destruct (m2 a h').
Qed.

(** Every neuron's parameters are parameters of the model. *)
Lemma elem_of_concat {A} (x : A) (ls : list (list A)) :
  x ∈ concat ls ↔ ∃ l, x ∈ l ∧ l ∈ ls.
Proof.
  induction ls as [|l0 ls IH]; simpl.
  - split; [by intros ?%elem_of_nil|]. by intros (l & _ & ?%elem_of_nil).
  - rewrite elem_of_app, IH. split.
    + intros [?|(l & ? & ?)]; [exists l0|exists l]; split; try done;
        [by left | by right].
    + intros (l & Hx & [->|?]%elem_of_cons); [by left|right]. by exists l.
Qed.

Lemma neuron_params_in_model (model : MLP.t) :
  Forall (λ n, Forall (λ q, q ∈ MLP.parameters model) (Neuron.parameters n))
    (MLP.layers model ≫= Layer.neurons).
Proof.
  apply Forall_forall. intros n Hn. apply Forall_forall. intros q Hq.
  apply list_elem_of_bind in Hn as (layer & Hn & Hl).
  unfold MLP.parameters. apply elem_of_concat.
  exists (Layer.parameters layer).
  split; [|by apply list_elem_of_fmap_2].
  unfold Layer.parameters. apply elem_of_concat.
  exists (Neuron.parameters n). split; [done|]. by apply list_elem_of_fmap_2.
Qed.

Lemma params_ok_old h ps q :
  MLPSpec.params_ok h ps → q ∈ ps → (q < length h)%nat.
Proof.
  intros Hps Hq. unfold MLPSpec.params_ok in Hps.
  rewrite Forall_forall in Hps. by destruct (Hps q Hq).
Qed.

Lemma params_ok_leaf h ps q :
  MLPSpec.params_ok h ps → q ∈ ps → backward_of h q = BNone.
Proof.
  intros Hps Hq. unfold MLPSpec.params_ok in Hps.
  rewrite Forall_forall in Hps. by destruct (Hps q Hq).
Qed.

(** One turn of the loop of [train] on a model that returns a single
    node. *)
Lemma iteration_spec iter (model : MLP.t) (xs : list (list pyobj))
    (ys : list pyobj) (lr : R) (i : nat) (h : heap) :
  iter_ok iter → wf h →
  MLPSpec.params_ok h (MLP.parameters model) →
  NoDup (MLP.parameters model) →
  MLPSpec.chained (MLP.layers model) →
  MLPSpec.scalar_output (MLP.layers model) →
  Forall (Forall MLPSpec.is_number) xs → Forall MLPSpec.is_number ys →
  xs ≠ [] → ys ≠ [] →
  ∃ N h',
    (∀ fuel, (N ≤ fuel)%nat →
       ValueTrainer.iteration iter fuel model (MLP.VList <$> xs) ys lr i h =
       Ok (i, MLPSpec.l2_loss (data_of h) (MLP.layers model)
                ((λ x : list pyobj, MLPSpec.num <$> x) <$> xs)
                (MLPSpec.num <$> ys)) h') ∧
    (∀ p, p ∈ MLP.parameters model →
       derivable_pt_lim
         (λ x, MLPSpec.l2_loss (MLPSpec.update (data_of h) p x)
                 (MLP.layers model)
                 ((λ x : list pyobj, MLPSpec.num <$> x) <$> xs)
                 (MLPSpec.num <$> ys))
         (data_of h p) (grad_of h' p) ∧
       data_of h' p = data_of h p - lr * grad_of h' p) ∧
    wf h' ∧ MLPSpec.params_ok h' (MLP.parameters model) ∧
    (length h ≤ length h')%nat ∧
    ∀ v, (v < length h)%nat → v ∉ MLP.parameters model →
         data_of h' v = data_of h v ∧ grad_of h' v = grad_of h v ∧
         prev_of h' v = prev_of h v ∧ backward_of h' v = backward_of h v.
Proof.
  intros Hiter Hwf Hps Hnd Hch Hsc Hxs Hys Hxne Hyne.
  set (ps := MLP.parameters model) in *.
  set (P := λ q, q ∈ ps).
  set (L := λ ρ, MLPSpec.l2_loss ρ (MLP.layers model)
                   ((λ x : list pyobj, MLPSpec.num <$> x) <$> xs)
                   (MLPSpec.num <$> ys)).
  assert (∀ q, P q → (q < length h)%nat) as P_old.
  { intros q Hq. by eapply params_ok_old. }
  assert (∀ q, P q → backward_of h q = BNone) as P_leaf.
  { intros q Hq. by eapply params_ok_leaf. }
  (* the forward pass and the loss *)
  destruct (loss_yields h P P_old model xs ys h)
    as (loss & l & E1 & Hinv1 & Hacc & Hnz & Hval); try done.
  { by apply inv_start. }
  { apply neuron_params_in_model. }
  set (h1 := h ++ l) in *.
  destruct Hacc as [->|(lo & -> & Hlo)]; [by destruct Hnz|].
  simpl in Hval. destruct Hlo as [Hlo Hlou].
  pose proof Hinv1 as (_ & Hwf1 & Hnodes1).
  (* zeroing the parameters' grads *)
  destruct (zero_grad_spec ps h1) as (h2 & E2 & Hs12 & Hg2).
  assert (wf h2) as Hwf2 by (by eapply wf_same_graph).
  assert (length h2 = length h1) as Hlen2 by (by destruct Hs12).
  assert (∀ n, reachable h2 lo n → Fresh.usable h P n) as Hreach.
  { intros n Hn. apply (reachable_usable h P P_old h1 lo n); try done.
    eapply reachable_same_graph; [|exact Hn]. by apply same_graph_sym. }
  assert (∀ n, Fresh.usable h P n →
            grad_of h2 n = 0 ∧ value_ok h2 n ∧ closure_defined h2 n) as Huse.
  { intros n Hn. rewrite Hg2.
    destruct (decide (n ∈ ps)) as [Hin|Hnin].
    - split; [done|].
      assert (backward_of h2 n = BNone) as Hb.
      { destruct Hs12 as [_ Hs]. destruct (Hs n) as (_ & _ & ->).
        unfold h1. rewrite backward_of_app_l by (by apply P_old).
        by apply P_leaf. }
      unfold value_ok, closure_defined. by rewrite Hb.
    - destruct Hn as [Hge|?]; [|done].
      destruct (Hnodes1 n Hge) as (Hv & Hg & Hd & _). split_and!.
      + done.
      + by eapply value_ok_same_graph.
      + by eapply same_graph_closure_defined. }
  (* the backward pass *)
  destruct (backward_grads iter h2 lo (S lo) Hiter Hwf2) as (h3 & E3 & Hg3).
  { lia. }
  { lia. }
  { intros n Hn. destruct (Huse n (Hreach n Hn)) as (? & ? & ?). done. }
  destruct (backward_returns iter Hiter h2 lo (S lo) h3 Hwf2 E3)
    as (s & Es & Hs23 & _ & _).
  destruct (schedule_facts iter Hiter h2 lo (S lo) s Hwf2 Es)
    as (_ & Hmem & _ & _).
  assert (∀ n, reachable h2 lo n ∨ ¬ reachable h2 lo n) as Hdec.
  { intros n. destruct (decide (n ∈ reverse (topo s))) as [Hin|Hnin].
    - left. by apply Hmem.
    - right. intros Hr. by apply Hnin, Hmem. }
  assert (∀ n, ¬ reachable h2 lo n → grad_of h3 n = grad_of h2 n) as Hframe3.
  { intros n Hr.
    pose proof (backward_unreachable iter (S lo) lo h2 n Hwf2 Hiter Hr) as Hf.
    by rewrite E3 in Hf. }
  (* the descent *)
  destruct (descend_spec lr ps Hnd h3) as (h4 & E4 & Hlen4 & Hs34 & Hd4).
  assert (same_graph h1 h3) as Hs13 by (by eapply same_graph_trans).
  assert (∀ v, (v < length h)%nat → data_of h3 v = data_of h v) as Hdata3.
  { intros v Hv. destruct Hs13 as [_ Hs]. destruct (Hs v) as (-> & _).
    unfold h1. by apply data_of_app_l. }
  assert (∀ n, grad_of h4 n = grad_of h3 n ∧ prev_of h4 n = prev_of h1 n ∧
               backward_of h4 n = backward_of h1 n) as Hs14.
  { intros n. destruct (Hs34 n) as (-> & -> & ->).
    destruct Hs13 as [_ Hs]. by destruct (Hs n) as (_ & -> & ->). }
  assert (length h4 = length h1) as Hlen41.
  { rewrite Hlen4. destruct Hs13 as [-> _]. done. }
  exists (S lo), h4. split_and!.
  - intros fuel Hfuel. unfold ValueTrainer.iteration.
    rewrite bind_assoc3, (bind_ok _ _ _ _ _ E1).
    rewrite (bind_ok _ _ _ _ _ E2).
    rewrite (bind_ok _ _ _ _ _
               (backward_fuel_mono iter (S lo) fuel lo h2 h3 Hfuel E3)).
    rewrite (bind_ok _ _ h3 h3 h3) by done.
    rewrite (bind_ok _ _ _ _ _ E4). unfold ret. do 2 f_equal.
    destruct Hs13 as [_ Hs]. destruct (Hs lo) as (-> & _).
    rewrite <- (Hval (data_of h)). symmetry.
    apply (value_in_data h P h1 Hinv1). lia.
  - intros p Hp.
    assert (grad_of h3 p = chain_grad h2 lo p) as Hgp.
    { destruct (Hdec p) as [Hr|Hr]; [by apply Hg3|].
      rewrite (Hframe3 p Hr), Hg2, decide_True by done.
      unfold chain_grad. by rewrite path_sum_unreachable. }
    destruct (Hs14 p) as (-> & _ & _). split.
    + rewrite Hgp.
      assert (data_of h p = data_of h2 p) as ->.
      { destruct Hs12 as [_ Hs]. destruct (Hs p) as (-> & _).
        unfold h1. symmetry. apply data_of_app_l. by apply P_old. }
      eapply derivable_pt_lim_ext;
        [|apply (reeval_deriv_local h2 p Hwf2 (S lo) lo)].
      * intros x. cbv beta. rewrite (reeval_same_graph h1 h2 _ _ Hs12).
        rewrite <- (value_in_reeval h P P_old h1 p x Hinv1 P_leaf Hp)
          by (lia || done).
        apply Hval.
      * lia.
      * intros v Hv. destruct (Huse v (Hreach v Hv)) as (? & ? & ?). done.
    + rewrite Hd4, decide_True by done.
      by rewrite Hdata3 by (by apply P_old).
  - eapply wf_struct; [|exact Hwf1]. intros n.
    by destruct (Hs14 n) as (_ & -> & ->).
  - unfold MLPSpec.params_ok. apply Forall_forall. intros p Hp. split.
    + rewrite Hlen41. unfold h1. rewrite length_app.
      pose proof (P_old p Hp). lia.
    + destruct (Hs14 p) as (_ & _ & ->). unfold h1.
      rewrite backward_of_app_l by (by apply P_old). by apply P_leaf.
  - rewrite Hlen41. unfold h1. rewrite length_app. lia.
  - intros v Hv Hnin. destruct (Hs14 v) as (-> & -> & ->). split_and!.
    + rewrite Hd4, decide_False by done. by apply Hdata3.
    + rewrite Hframe3.
      * rewrite Hg2, decide_False by done. unfold h1. by apply grad_of_app_l.
      * intros Hr. apply Hreach in Hr as [?|?]; [lia|done].
    + unfold h1. by apply prev_of_app_l.
    + unfold h1. by apply backward_of_app_l.
Qed.

End TrainFacts.

(** ** Applying layers and models *)

Section Models.
Import Value Graph Chain Alloc NeuronSpec.

(** On a list, the calls of [MLP] are those of [Layer]. *)
Lemma call_neurons_list ns xs h :
  MLP.call_neurons ns (MLP.VList xs) h = Layer.apply_all ns xs h.
Proof.
  revert h. induction ns as [|n ns IH]; intros h; [done|].
  simpl. unfold mbind, M_bind, bind.
  destruct (Neuron.__call__ n xs h) as [o h1|e h1]; [|done].
  by rewrite IH.
Qed.

Lemma call_layer_list layer xs h :
  MLP.call_layer layer (MLP.VList xs) h = Layer.__call__ layer xs h.
Proof.
  unfold MLP.call_layer, Layer.__call__, mbind, M_bind, bind.
  by rewrite call_neurons_list.
Qed.

Lemma obj_at_data h o : MLPSpec.obj_at (data_of h) o = obj_val h o.
Proof. by destruct o. Qed.

Lemma obj_at_ext (f g : nat → R) o :
  (∀ v, f v = g v) → MLPSpec.obj_at f o = MLPSpec.obj_at g o.
Proof. intros Hfg. destruct o; simpl; by rewrite ?Hfg. Qed.

Lemma vals_ext (f g : nat → R) y :
  (∀ v, f v = g v) → MLPSpec.vals f y = MLPSpec.vals g y.
Proof.
  intros Hfg. destruct y as [xs|v]; simpl; [|by rewrite Hfg].
  apply list_fmap_ext. intros _ o _. by apply obj_at_ext.
Qed.

Lemma inputs_ok h (xs : list pyobj) :
  Forall (input_ok h) xs →
  Forall (Fresh.ok_obj h (λ v, (v < length h)%nat) h) xs.
Proof.
  intros Hxs. eapply Forall_impl; [exact Hxs|]. intros o [Hne Ho].
  destruct o; simpl in *; try done. split; [done|by right].
Qed.

Lemma inputs_values h (xs : list pyobj) :
  MLPSpec.obj_at (Fresh.value_in h h (data_of h)) <$> xs = obj_val h <$> xs.
Proof.
  apply list_fmap_ext. intros _ o _. rewrite <- obj_at_data.
  apply obj_at_ext. intros v. unfold Fresh.value_in. simpl.
  case_decide as Hv; [done|]. rewrite backward_of_ge by lia.
  done.
Qed.

Lemma value_in_data_all (h h' : heap) :
  Fresh.inv h (λ v, (v < length h)%nat) h' →
  ∀ v, Fresh.value_in h h' (data_of h) v = data_of h' v.
Proof.
  intros Hi v. apply (value_in_data h _ h' Hi). lia.
Qed.

Lemma layer_params_ok (h : heap) layer :
  Forall (λ p, (p < length h)%nat) (Layer.parameters layer) →
  Forall (λ n, Forall (λ v, (v < length h)%nat) (Neuron.parameters n))
    (Layer.neurons layer).
Proof.
  intros Hps. apply Forall_forall. intros n Hn.
  apply Forall_forall. intros q Hq.
  rewrite Forall_forall in Hps. apply Hps.
  unfold Layer.parameters. apply elem_of_concat.
  exists (Neuron.parameters n). split; [done|]. by apply list_elem_of_fmap_2.
Qed.

Lemma model_params_ok (h : heap) ls :
  Forall (λ p, (p < length h)%nat) (concat (Layer.parameters <$> ls)) →
  Forall (λ n, Forall (λ v, (v < length h)%nat) (Neuron.parameters n))
    (ls ≫= Layer.neurons).
Proof.
  intros Hps. apply Forall_forall. intros n Hn.
  apply list_elem_of_bind in Hn as (layer & Hn & Hl).
  revert n Hn. apply Forall_forall, layer_params_ok.
  apply Forall_forall. intros q Hq.
  rewrite Forall_forall in Hps. apply Hps.
  apply elem_of_concat.
  exists (Layer.parameters layer). split; [done|]. by apply list_elem_of_fmap_2.
Qed.







End Models.

(** ** [ValueTrainer.train] *)

Section Training.
Import Value Graph Chain Alloc NeuronSpec.

(** The loop of [train]. *)
Lemma loop_spec iter (model : MLP.t) (xs : list (list pyobj))
    (ys : list pyobj) (lr : R) (turns : list nat) :
  iter_ok iter → NoDup (MLP.parameters model) →
  MLPSpec.chained (MLP.layers model) →
  MLPSpec.scalar_output (MLP.layers model) →
  Forall (Forall MLPSpec.is_number) xs → Forall MLPSpec.is_number ys →
  xs ≠ [] → ys ≠ [] →
  ∀ h, wf h → MLPSpec.params_ok h (MLP.parameters model) →
  ∃ N h' lines,
    (∀ fuel, (N ≤ fuel)%nat →
       ValueTrainer.loop iter fuel model (MLP.VList <$> xs) ys lr turns h =
       Ok lines h') ∧
    lines.*1 = turns ∧
    (∀ line, head lines = Some line →
       line.2 = MLPSpec.l2_loss (data_of h) (MLP.layers model)
                  ((λ x : list pyobj, MLPSpec.num <$> x) <$> xs)
                  (MLPSpec.num <$> ys)) ∧
    wf h' ∧ MLPSpec.params_ok h' (MLP.parameters model) ∧
    (length h ≤ length h')%nat ∧
    ∀ v, (v < length h)%nat → v ∉ MLP.parameters model →
         data_of h' v = data_of h v ∧ grad_of h' v = grad_of h v ∧
         prev_of h' v = prev_of h v ∧ backward_of h' v = backward_of h v.
Proof.
  intros Hiter Hnd Hch Hsc Hxs Hys Hxne Hyne.
  induction turns as [|i turns IH]; intros h Hwf Hps.
  - exists 0%nat, h, []. split_and!; try done.
  - destruct (iteration_spec iter model xs ys lr i h)
      as (N1 & h1 & E1 & _ & Hwf1 & Hps1 & Hlen1 & Hfr1); try done.
    destruct (IH h1 Hwf1 Hps1)
      as (N2 & h2 & lines & E2 & Hidx & _ & Hwf2 & Hps2 & Hlen2 & Hfr2).
    exists (N1 `max` N2)%nat, h2,
      ((i, MLPSpec.l2_loss (data_of h) (MLP.layers model)
             ((λ x : list pyobj, MLPSpec.num <$> x) <$> xs)
             (MLPSpec.num <$> ys)) :: lines).
    split_and!.
    + intros fuel Hfuel. simpl.
      rewrite (bind_ok _ _ _ _ _ (E1 fuel ltac:(lia))).
      rewrite (bind_ok _ _ _ _ _ (E2 fuel ltac:(lia))). done.
    + rewrite fmap_cons, Hidx. done.
    + by intros line [= <-].
    + done.
    + done.
    + lia.
    + intros v Hv Hnin.
      destruct (Hfr1 v Hv Hnin) as (<- & <- & <- & <-).
      apply Hfr2; [lia | done].
Qed.





(** X14.  [train] without data.  With an empty list of inputs and at
    least one iteration, [train] raises [AttributeError]: [sum] of the
    empty list is the integer 0, which has no [backward].  By then the
    parameters' [grad]s were set to zero; nothing else was written and
    nothing was printed. *)
Theorem train_no_data (iter : gset nat → list nat) (fuel : nat)
    (model : MLP.t) (ys : list pyobj) (iterations : nat) (lr : R)
    (h : heap) :
  ∃ h',
    ValueTrainer.train iter fuel model [] ys (S iterations) lr h =
    Raise AttributeError h' ∧
    same_graph h h' ∧
    ∀ v, grad_of h' v =
         if decide (v ∈ MLP.parameters model) then 0 else grad_of h v.
Proof.
  destruct (zero_grad_spec (MLP.parameters model) h) as (h' & E & Hs & Hg).
  exists h'. split_and!; [|done|done].
  unfold ValueTrainer.train. rewrite <- cons_seq.
  change (ValueTrainer.loop iter fuel model [] ys lr
            (0%nat :: seq 1 iterations))
    with (line ← ValueTrainer.iteration iter fuel model [] ys lr 0;
          lines ← ValueTrainer.loop iter fuel model [] ys lr (seq 1 iterations);
          ret (line :: lines)).
  apply bind_raise. unfold ValueTrainer.iteration.
  simpl ValueTrainer.predict.
  rewrite (bind_ok _ _ h [] h) by done.
  assert (zip ys (@nil MLP.pyval) = []) as -> by (by destruct ys).
  simpl ValueTrainer.squared_errors.
  rewrite (bind_ok _ _ h [] h) by done.
  simpl ValueTrainer.py_sum.
  rewrite (bind_ok _ _ h (PyInt 0) h) by done.
  by rewrite (bind_ok _ _ _ _ _ E).
Qed.



End Training.

(** ** Building a model, training it, using it *)

Section Program.
Import Value Graph Chain Alloc NeuronSpec.

Lemma wf_nil : wf [].
Proof. intros i. unfold closure_ok, backward_of, prev_of. by simpl. Qed.

Lemma wf_app_leaves {A} (f : A → R) (js : list A) :
  ∀ h, wf h → wf (h ++ ((λ j, leaf (f j) "") <$> js)).
Proof.
  induction js as [|j js IH]; intros h Hwf; csimpl.
  - by rewrite app_nil_r.
  - replace (h ++ leaf (f j) "" :: ((λ j, leaf (f j) "") <$> js))
      with ((h ++ [leaf (f j) ""]) ++ ((λ j, leaf (f j) "") <$> js))
      by (by rewrite <- app_assoc).
    apply IH. by apply wf_alloc.
Qed.

Lemma params_ok_leaves {A} (f : A → R) (js : list A) h :
  MLPSpec.params_ok (h ++ ((λ j, leaf (f j) "") <$> js))
    (seq (length h) (length js)).
Proof.
  apply Forall_forall. intros p Hp. apply elem_of_seq in Hp.
  split; [rewrite length_app, length_fmap; lia|].
  unfold backward_of. rewrite lookup_app_r by lia.
  rewrite list_lookup_fmap.
  by destruct (js !! (p - length h)%nat).
Qed.

Lemma widths_counts ls nin nouts :
  MLPSpec.widths ls =
  (λ io, replicate io.2 io.1) <$> zip (nin :: nouts) nouts →
  (λ l, length (Layer.neurons l)) <$> ls = nouts.
Proof.
  intros Hw. apply (f_equal (fmap length)) in Hw.
  unfold MLPSpec.widths in Hw. rewrite <- !list_fmap_compose in Hw.
  assert (nouts = (zip (nin :: nouts) nouts).*2) as Hn
    by (rewrite snd_zip; [done|simpl; lia]).
  rewrite Hn.
  etrans; [|etrans; [exact Hw|]].
  - apply list_fmap_ext. intros _ l _. simpl. by rewrite length_fmap.
  - apply list_fmap_ext. intros _ io _. simpl. by rewrite length_replicate.
Qed.

Lemma chained_counts ls :
  (∀ i n, ((λ l, length (Layer.neurons l)) <$> ls) !! i = Some n →
          (S i < length ls)%nat → n ≠ 1%nat) →
  MLPSpec.chained ls.
Proof.
  induction ls as [|l ls IH]; intros H; [done|].
  destruct ls as [|l' ls]; [done|].
  split.
  - apply (H 0%nat); [done|simpl; lia].
  - apply IH. intros i n Hi Hlt. apply (H (S i)); [done|simpl in *; lia].
Qed.

Lemma scalar_counts ls :
  last ((λ l, length (Layer.neurons l)) <$> ls) = Some 1%nat →
  MLPSpec.scalar_output ls.
Proof.
  rewrite fmap_last. intros H.
  destruct (last ls) as [l|] eqn:E; [|done].
  exists l. split; [done|]. by injection H.
Qed.

(** [model = MLP(nin, nouts)], then [train(model, xs, ys, ...)], then
    [[model(x) for x in xs]]. *)
Lemma init_train_predict_spec iter (nin : nat) (nouts : list nat)
    (rnd : nat → R) (xs : list (list pyobj)) (ys : list pyobj)
    (iterations : nat) (lr : R) (h : heap) :
  iter_ok iter → wf h →
  (∀ i n, nouts !! i = Some n → (S i < length nouts)%nat → n ≠ 1%nat) →
  last nouts = Some 1%nat →
  Forall (Forall MLPSpec.is_number) xs → Forall MLPSpec.is_number ys →
  xs ≠ [] → ys ≠ [] →
  ∃ model N lines vs h' l,
    MLP.__init__ nin nouts rnd h =
    Ok model (h ++ ((λ i, leaf (rnd i) "")
                      <$> seq 0 (MLPSpec.param_count nin nouts))) ∧
    (∀ fuel, (N ≤ fuel)%nat →
       ValueTrainer.train iter fuel model (MLP.VList <$> xs) ys iterations
         lr (h ++ ((λ i, leaf (rnd i) "")
                     <$> seq 0 (MLPSpec.param_count nin nouts))) =
       Ok lines h') ∧
    ValueTrainer.predict model (MLP.VList <$> xs) h' =
    Ok (MLP.VValue <$> vs) (h' ++ l) ∧
    lines.*1 = seq 0 iterations ∧
    (∀ line, head lines = Some line →
       line.2 =
       MLPSpec.l2_loss
         (data_of (h ++ ((λ i, leaf (rnd i) "")
                           <$> seq 0 (MLPSpec.param_count nin nouts))))
         (MLP.layers model)
         ((λ x : list pyobj, MLPSpec.num <$> x) <$> xs)
         (MLPSpec.num <$> ys)) ∧
    data_of (h' ++ l) <$> vs =
    (λ x : list pyobj,
       MLPSpec.output (data_of h') (MLP.layers model) (MLPSpec.num <$> x))
      <$> xs ∧
    ∀ v, (v < length h)%nat →
         data_of (h' ++ l) v = data_of h v ∧
         grad_of (h' ++ l) v = grad_of h v ∧
         prev_of (h' ++ l) v = prev_of h v ∧
         backward_of (h' ++ l) v = backward_of h v.
Proof.
  intros Hiter Hwf Hhid Hlast Hxs Hys Hxne Hyne.
  destruct (make_layers_spec nouts nin rnd h) as (ls & E & Hp & Hw).
  set (h1 := h ++ ((λ i, leaf (rnd i) "")
                     <$> seq 0 (MLPSpec.param_count nin nouts))) in *.
  pose proof (widths_counts _ _ _ Hw) as Hc.
  assert (length ls = length nouts) as Hlen0
    by (by rewrite <- Hc, length_fmap).
  assert (MLPSpec.chained ls) as Hch.
  { apply chained_counts. rewrite Hc, Hlen0. exact Hhid. }
  assert (MLPSpec.scalar_output ls) as Hsc.
  { apply scalar_counts. by rewrite Hc. }
  assert (wf h1) as Hwf1 by (by apply wf_app_leaves).
  assert (MLP.parameters (MLP.mk ls) =
          seq (length h) (MLPSpec.param_count nin nouts)) as Hpar
    by (unfold MLP.parameters; simpl; exact Hp).
  assert (MLPSpec.params_ok h1 (MLP.parameters (MLP.mk ls))) as Hps1.
  { rewrite Hpar.
    replace (seq (length h) (MLPSpec.param_count nin nouts))
      with (seq (length h)
              (length (seq 0 (MLPSpec.param_count nin nouts))))
      by (by rewrite length_seq).
    apply params_ok_leaves. }
  assert (NoDup (MLP.parameters (MLP.mk ls))) as Hnd
    by (rewrite Hpar; apply NoDup_seq).
  destruct (loop_spec iter (MLP.mk ls) xs ys lr (seq 0 iterations)
              Hiter Hnd Hch Hsc Hxs Hys Hxne Hyne h1 Hwf1 Hps1)
    as (N & h' & lines & Et & Hidx & Hfirst & Hwf' & Hps' & Hlen & Hfr).
  destruct (predict_yields h' (λ v, (v < length h')%nat) (λ _ Hq, Hq)
              (MLP.mk ls) xs h')
    as (ypred & l & Ep & Hi & vs & -> & Hvs & Hval); try done.
  { by apply inv_start. }
  { apply model_params_ok. eapply Forall_impl; [exact Hps'|].
    by intros p [Hp' _]. }
  exists (MLP.mk ls), N, lines, vs, h', l. split_and!; try done.
  - unfold MLP.__init__. simpl. by rewrite (bind_ok _ _ _ _ _ E).
  - rewrite <- (Hval (data_of h')). apply list_fmap_ext. intros _ v _.
    symmetry. by apply value_in_data_all.
  - intros v Hv.
    assert (length h1 = (length h + MLPSpec.param_count nin nouts)%nat)
      as Hl1 by (unfold h1; by rewrite length_app, length_fmap, length_seq).
    destruct (Hfr v) as (Hd & Hg & Hpv & Hb); [lia | |].
    { rewrite Hpar. intros Hin. apply elem_of_seq in Hin. lia. }
    rewrite data_of_app_l, grad_of_app_l, prev_of_app_l, backward_of_app_l
      by lia.
    rewrite Hd, Hg, Hpv, Hb. unfold h1.
    by rewrite data_of_app_l, grad_of_app_l, prev_of_app_l,
      backward_of_app_l by lia.
Qed.

Lemma numbers_main_xs : Forall (Forall MLPSpec.is_number) Main.xs.
Proof.
  repeat (apply Forall_cons_2;
          [repeat (apply Forall_cons_2; [by eexists|]); apply Forall_nil_2|]).
  apply Forall_nil_2.
Qed.

Lemma numbers_main_ys : Forall MLPSpec.is_number Main.ys.
Proof. repeat (apply Forall_cons_2; [by eexists|]). apply Forall_nil_2. Qed.

Lemma hidden_main (i n : nat) :
  [4; 4; 1]%nat !! i = Some n → (S i < length [4; 4; 1]%nat)%nat → n ≠ 1%nat.
Proof.
  intros Hi Hlt. simpl in Hlt.
  destruct i as [|[|i]]; simpl in Hi; [injection Hi as <-; lia ..|lia].
Qed.





End Program.
